(** * include-cleaner: used-header analysis

    A shallow embedding of the include-cleaner library
    (clang-tools-extra/include-cleaner), of the standalone tool built on
    it and of clangd's unused-include check, together with the
    properties of their specification.

    Pointers to objects owned by the compiler ([const FileEntry *],
    [const IdentifierInfo *]) are modelled by the object they point to;
    pointer equality is equality of the objects.  Pointers into the
    vector of recorded includes are modelled by the ordinal of the
    element, so that pointer order is ordinal order. *)

From Stdlib Require Import ZArith NArith Ascii String List Bool Lia.
From Stdlib Require OrderedTypeEx.
From stdpp Require Import base decidable option list numbers strings sorting gmap.

Import ListNotations.
Local Open Scope string_scope.
Local Open Scope list_scope.

(** ** llvm/ADT and the standard algorithms *)

Module ADT.

(** [llvm::stable_sort(Range, Comp)].  The C++ standard fixes the result
    only when [Comp] is a strict weak order, and then every stable sort
    returns the same sequence.  The model is the insertion sort that the
    standard libraries run on short ranges: each element is moved
    backwards past the elements it compares less than. *)
Section Sort.
Context {A : Type} (Comp : A -> A -> bool).

(** [Sorted] holds the already sorted prefix, last element first. *)
Fixpoint linear_insert (Val : A) (Sorted : list A) : list A :=
  match Sorted with
  | [] => [Val]
  | Prev :: Rest =>
      if Comp Val Prev then Prev :: linear_insert Val Rest
      else Val :: Prev :: Rest
  end.

Definition stable_sort (Range : list A) : list A :=
  rev (fold_left (fun Sorted Val => linear_insert Val Sorted) Range []).

(** The other algorithm of the implementations of [std::stable_sort],
    for longer ranges: sort the two halves and merge them, taking from
    the second half only what compares less. *)
Fixpoint merge (L1 : list A) : list A -> list A :=
  fix merge_into (L2 : list A) : list A :=
    match L1, L2 with
    | [], _ => L2
    | _, [] => L1
    | X :: L1', Y :: L2' =>
        if Comp Y X then Y :: merge_into L2' else X :: merge L1' L2
    end.

Fixpoint merge_sort_upto (Depth : nat) (Range : list A) : list A :=
  match Depth, Range with
  | 0, _ | _, [] | _, [_] => Range
  | S Depth', _ =>
      let Half := (length Range + 1) / 2 in
      merge (merge_sort_upto Depth' (take Half Range))
            (merge_sort_upto Depth' (drop Half Range))
  end.

Definition stable_merge_sort (Range : list A) : list A :=
  merge_sort_upto (length Range) Range.

(** [llvm::sort(Range)] under a total order, where the result does not
    depend on the algorithm. *)
Definition sort (Range : list A) : list A := stable_sort Range.

(** [std::unique] under the equality [Comp]: of every run of equal
    elements the first is kept; [W] is the last element written. *)
Fixpoint unique_from (W : A) (Read : list A) : list A :=
  match Read with
  | [] => [W]
  | R :: Read' =>
      if Comp W R then unique_from W Read' else W :: unique_from R Read'
  end.

Definition unique (Range : list A) : list A :=
  match Range with
  | [] => []
  | First :: Read => unique_from First Read
  end.
End Sort.

(** The elements of a vector with their ordinals, which stand for the
    addresses of the elements. *)
Definition enumerate {A} (Vec : list A) : list (nat * A) := imap pair Vec.

(** [StringRef::equals_insensitive]: ASCII case folding. *)
Definition toLower (c : ascii) : ascii :=
  let n := nat_of_ascii c in
  if (65 <=? n)%nat && (n <=? 90)%nat then ascii_of_nat (n + 32) else c.

Fixpoint equals_insensitive (L R : string) : bool :=
  match L, R with
  | EmptyString, EmptyString => true
  | String a L', String b R' =>
      Ascii.eqb (toLower a) (toLower b) && equals_insensitive L' R'
  | _, _ => false
  end.

(** [StringRef::trim(Chars)]: drop from both ends every character that
    occurs in [Chars]. *)
Definition is_contained (c : ascii) (Chars : string) : bool :=
  existsb (Ascii.eqb c) (list_ascii_of_string Chars).

Fixpoint ltrim_chars (Chars : string) (Str : list ascii) : list ascii :=
  match Str with
  | c :: Str' => if is_contained c Chars then ltrim_chars Chars Str' else Str
  | [] => []
  end.

Definition trim (Chars : string) (Str : string) : string :=
  string_of_list_ascii
    (rev (ltrim_chars Chars
            (rev (ltrim_chars Chars (list_ascii_of_string Str))))).

End ADT.

(** ** Types.h: Symbol, Location, Header *)

(** A [SourceLocation] is its raw encoding; 0 is the invalid location. *)
Definition SourceLocation := N.
Definition isValid (Loc : SourceLocation) : bool := negb (Loc =? 0)%N.

Definition FileID := Z.

(** [clang::FileEntry]; [getName] is the path the file was opened by. *)
Record FileEntry := { getUID : N; getName : string }.

#[global] Instance FileEntry_eq_dec : EqDecision FileEntry.
Proof. solve_decision. Defined.

#[global] Instance FileEntry_countable : Countable FileEntry.
Proof.
  refine (inj_countable' (fun F => (getUID F, getName F))
                         (fun p => {| getUID := p.1; getName := p.2 |}) _).
  by intros [].
Defined.

(** [tooling::stdlib::Header] and [tooling::stdlib::Symbol] are indices
    into the tables of the standard library mapping; both compare by
    index. *)
Definition StdlibHeader := N.
Definition StdlibSymbol := N.

Inductive FriendObjectKind := FOK_None | FOK_Declared | FOK_Undeclared.

(** The classes of declaration that [declHint] tells apart. *)
Inductive DeclClass := TagDecl | ClassTemplateDecl | FunctionTemplateDecl | OtherDecl.

(** What the locator reads of a [Decl], one declaration of a
    redeclaration chain. *)
Record Decl_ := {
  getFriendObjectKind : FriendObjectKind;
  getLocation : SourceLocation;
  getClass : DeclClass;
  isThisDeclarationADefinition : bool;
}.

(** A canonical [NamedDecl] with what the analysis reads from it. *)
Record NamedDecl := {
  getAsIdentifierInfo : option string; (* null for operators, constructors... *)
  getNameAsString : string;
  getDeclKindName : string;
  redecls : list Decl_;
}.

Record DefinedMacro := { Name : string; Definition_ : SourceLocation }.

Module Symbol.
Inductive Kind := Macro | Declaration.

#[global] Instance Kind_eq_dec : EqDecision Kind.
Proof. solve_decision. Defined.

(** [llvm::PointerUnion<const DefinedMacro *, NamedDecl *>] *)
Inductive t := ofMacro (M : DefinedMacro) | ofDecl (ND : NamedDecl).

Definition kind (Sym : t) : Kind :=
  match Sym with ofDecl _ => Declaration | ofMacro _ => Macro end.

(** [PointerUnion::get] asserts that the union holds the requested
    member; [None] is the failed assertion. *)
Definition getDeclaration (Sym : t) : option NamedDecl :=
  match Sym with ofDecl ND => Some ND | ofMacro _ => None end.
Definition getMacro (Sym : t) : option DefinedMacro :=
  match Sym with ofMacro M => Some M | ofDecl _ => None end.

Definition name (Sym : t) : string :=
  match Sym with
  | ofMacro M => Name M
  | ofDecl ND => getNameAsString ND
  end.

Definition nodeName (Sym : t) : string :=
  match Sym with
  | ofMacro _ => "macro"
  | ofDecl ND => getDeclKindName ND
  end.
End Symbol.

Record SymbolReference := { Location_ : SourceLocation; Target : Symbol.t }.

Module Location.
Inductive t := Physical (SrcLoc : SourceLocation) | StandardLibrary (StdlibSym : StdlibSymbol).
End Location.

Module Header.
Inductive Kind := KPhysical | KStandardLibrary | KVerbatim | KBuiltin | KMainFile.

(** The enumerators of [enum Kind : uint8_t]. *)
Definition Kind_value (K : Kind) : Z :=
  match K with
  | KPhysical => 0 | KStandardLibrary => 1 | KVerbatim => 2
  | KBuiltin => 3 | KMainFile => 4
  end.

Inductive t :=
| Physical (FE : FileEntry)
| StandardLibrary (H : StdlibHeader)
| Verbatim (V : string)
| Builtin
| MainFile.

Definition kind (H : t) : Kind :=
  match H with
  | Physical _ => KPhysical
  | StandardLibrary _ => KStandardLibrary
  | Verbatim _ => KVerbatim
  | Builtin => KBuiltin
  | MainFile => KMainFile
  end.

(** [operator==] *)
Definition eqb (L R : t) : bool :=
  match L, R with
  | Physical l, Physical r => bool_decide (l = r)
  | StandardLibrary l, StandardLibrary r => (l =? r)%N
  | Verbatim l, Verbatim r => String.eqb l r
  | Builtin, Builtin => true
  | MainFile, MainFile => true
  | _, _ => false
  end.

(** [operator<]: on different kinds the order of the kinds, on equal
    kinds a comparison of the payloads. *)
Definition ltb (L R : t) : bool :=
  if negb (Kind_value (kind L) =? Kind_value (kind R))%Z
  then (Kind_value (kind L) <? Kind_value (kind R))%Z
  else
    match L, R with
    | Physical l, Physical r => bool_decide (l = r)
    | StandardLibrary l, StandardLibrary r => (l <? r)%N
    | Verbatim l, Verbatim r => String.ltb l r
    | _, _ => false (* no payload *)
    end.

#[global] Instance eq_dec : EqDecision t.
Proof. solve_decision. Defined.
End Header.

(** ** AnalysisInternal.h: hints *)

(** [enum class Hint : uint16_t], a bit mask. *)
Definition Hint := Z.

Module Hints.
Definition None : Hint := 0%Z.
Definition Complete : Hint := 1%Z.  (* Provides a complete definition. *)
Definition NameMatch : Hint := 1%Z. (* Header name matches the symbol name. *)
End Hints.

(** [bool(H & Bit)] *)
Definition hasHint (H Bit : Hint) : bool := negb (Z.land H Bit =? 0)%Z.

Record Hinted (T : Type) := mkHinted { Value : T; Hint_ : Hint }.
Arguments mkHinted {T} _ _.
Arguments Value {T} _.
Arguments Hint_ {T} _.

(** The converting constructor [Hinted(T Value, Hint H = Hint::None)]. *)
Definition unhinted {T} (V : T) : Hinted T := mkHinted V Hints.None.

(** ** The compiler state borrowed by an analysis *)

Record Policy := { Construction : bool; Members : bool; Operators : bool }.

(** [Policy{}]: every flag defaults to off. *)
Definition defaultPolicy : Policy :=
  {| Construction := false; Members := false; Operators := false |}.

(** The mapping of the standard library ([clang/Tooling/Inclusions]),
    which the analysis only queries. *)
Record StdlibMapping := {
  Symbol_header : StdlibSymbol -> StdlibHeader; (* [stdlib::Symbol::header()] *)
  Header_name : StdlibHeader -> string;         (* [stdlib::Header::name()], as [<vector>] *)
  Header_named : string -> option StdlibHeader; (* [stdlib::Header::named()] *)
}.

(** [AnalysisContext]: the policy, and the queries made to the source
    manager, to the preprocessor and to the cache's recognizer. *)
Record AnalysisContext := {
  policy : Policy;
  getExpansionLoc : SourceLocation -> SourceLocation;
  getFileID : SourceLocation -> FileID;
  getMainFileID : FileID;
  getFileEntryForID : FileID -> option FileEntry;
  isWrittenInMainFile : SourceLocation -> bool;
  getSpellingLineNumber : SourceLocation -> N;
  getPredefinesFileID : FileID;
  StdlibRecognizer : NamedDecl -> option StdlibSymbol;
}.

(** ** A state monad with failing assertions

    [walkUsed] and its clients run a callback that mutates the state it
    captured, and abort on a failed [assert].  A computation maps the
    captured state to the state reached and to [Some] result, or to [None]
    when an assertion failed on the way. *)

Module Run.
Definition M (St A : Type) : Type := St -> St * option A.

Definition ret {St A} (a : A) : M St A := fun s => (s, Some a).

Definition bind {St A B} (m : M St A) (k : A -> M St B) : M St B :=
  fun s => match m s with
           | (s', Some a) => k a s'
           | (s', None) => (s', None)
           end.

Definition modify {St} (f : St -> St) : M St unit := fun s => (f s, Some tt).

Definition assert_ {St} (b : bool) : M St unit :=
  fun s => (s, if b then Some tt else None).

(** [PointerUnion::get] and the like: the access is an assertion. *)
Definition get_ {St A} (o : option A) : M St A := fun s => (s, o).

Fixpoint for_each {St A} (Range : list A) (Body : A -> M St unit) : M St unit :=
  match Range with
  | [] => ret tt
  | X :: Rest => bind (Body X) (fun _ => for_each Rest Body)
  end.

Definition returned {St A} (r : St * option A) : Prop := is_Some r.2.
End Run.

#[global] Instance Run_ret {St} : MRet (Run.M St) := fun A => @Run.ret St A.
#[global] Instance Run_bind {St} : MBind (Run.M St) := fun A B k m => Run.bind m k.

(** ** Locations.cpp, Headers.cpp, Analysis.cpp *)

Module Analysis.

Section WithCompiler.
Context (Std : StdlibMapping) (Ctx : AnalysisContext).

(** *** Locations.cpp *)

Definition declHint (D : Decl_) : Hint :=
  let H := Hints.None in
  let H := match getClass D with
           | TagDecl => if isThisDeclarationADefinition D
                        then Z.lor H Hints.Complete else H
           | _ => H
           end in
  let H := match getClass D with
           | ClassTemplateDecl => if isThisDeclarationADefinition D
                                  then Z.lor H Hints.Complete else H
           | _ => H
           end in
  (* A function template being defined is similar to a class being defined. *)
  let H := match getClass D with
           | FunctionTemplateDecl => if isThisDeclarationADefinition D
                                     then Z.lor H Hints.Complete else H
           | _ => H
           end in
  H.

Definition locateDecl (ND : NamedDecl) : list (Hinted Location.t) :=
  match StdlibRecognizer Ctx ND with
  | Some StdlibSym => [unhinted (Location.StandardLibrary StdlibSym)]
  | None =>
      flat_map
        (fun RD =>
           match getFriendObjectKind RD with
           | FOK_Declared => []
           | _ =>
               let Loc := getLocation RD in
               if isValid Loc
               then [mkHinted (Location.Physical Loc) (declHint RD)]
               else []
           end)
        (redecls ND)
  end.

Definition locateMacro (M : DefinedMacro) : Hinted Location.t :=
  unhinted (Location.Physical (Definition_ M)).

(** *** Headers.cpp *)

Definition includableHeader (Loc : Location.t) : list (Hinted Header.t) :=
  match Loc with
  | Location.Physical L =>
      let FID := getFileID Ctx (getExpansionLoc Ctx L) in
      if (FID =? getMainFileID Ctx)%Z then [unhinted Header.MainFile]
      else if (FID =? getPredefinesFileID Ctx)%Z then [unhinted Header.Builtin]
      else match getFileEntryForID Ctx FID with
           | Some FE => [unhinted (Header.Physical FE)]
           | None => []
           end
  | Location.StandardLibrary Sym =>
      [unhinted (Header.StandardLibrary (Symbol_header Std Sym))]
  end.

(** *** Analysis.cpp *)

(** [std::tuple<bool, bool>] under [operator<], with [false < true]. *)
Definition bool_lt (a b : bool) : bool := negb a && b.
Definition tuple_lt (a b : bool * bool) : bool :=
  bool_lt a.1 b.1 || (negb (bool_lt b.1 a.1) && bool_lt a.2 b.2).

Definition prefer (L R : Hint) : bool :=
  tuple_lt (hasHint R Hints.NameMatch, hasHint R Hints.Complete)
           (hasHint L Hints.NameMatch, hasHint L Hints.Complete).

Definition orHint {T} (H : Hint) (Item : Hinted T) : Hinted T :=
  mkHinted (Value Item) (Z.lor (Hint_ Item) H).

Definition nameMatches (II : string) (HH : Hinted Header.t) : bool :=
  match Value HH with
  | Header.Physical FE => ADT.equals_insensitive II (getName FE)
  | _ => false
  end.

Definition addNameMatchHint (II : option string) (H : list (Hinted Header.t))
  : list (Hinted Header.t) :=
  match II with
  | None => H
  | Some II =>
      map (fun HH => if nameMatches II HH then orHint Hints.NameMatch HH else HH) H
  end.

(** The loop of [rank] that folds a run of equal headers into its first
    element, [W] being the element under the write cursor. *)
Fixpoint mergeRuns (W : Hinted Header.t) (Read : list (Hinted Header.t))
  : list (Hinted Header.t) :=
  match Read with
  | [] => [W]
  | R :: Read' =>
      if Header.eqb (Value R) (Value W)
      then mergeRuns (orHint (Hint_ R) W) Read'
      else W :: mergeRuns R Read'
  end.

Definition uniqueMergingHints (Candidates : list (Hinted Header.t))
  : list (Hinted Header.t) :=
  match Candidates with
  | [] => []
  | First :: Read => mergeRuns First Read
  end.

(** [rank], over the implementation of [llvm::stable_sort]. *)
Definition rankWith
    (stable_sort : (Hinted Header.t -> Hinted Header.t -> bool) ->
                   list (Hinted Header.t) -> list (Hinted Header.t))
    (Candidates : list (Hinted Header.t)) : list Header.t :=
  (* Sort by Header, so we can deduplicate (and combine flags). *)
  let Candidates :=
    stable_sort (fun L R => Header.ltb (Value L) (Value R)) Candidates in
  (* Like unique(), but merge hints. *)
  let Candidates := uniqueMergingHints Candidates in
  (* Now sort by hints. *)
  let Candidates :=
    stable_sort (fun L R => prefer (Hint_ L) (Hint_ R)) Candidates in
  (* Drop hints to return clean result list. *)
  map Value Candidates.

Definition rank : list (Hinted Header.t) -> list Header.t :=
  rankWith ADT.stable_sort.

Definition addHint {T} (H : Hint) (Items : list (Hinted T)) : list (Hinted T) :=
  map (orHint H) Items.

(** The headers that [walkUsed] hands to the callback for a reference to
    a declaration, and for a reference to a macro. *)
Definition headersOfDecl (ND : Hinted NamedDecl) : list Header.t :=
  let Locations := locateDecl (Value ND) in
  let Headers :=
    flat_map (fun Loc => addHint (Hint_ Loc) (includableHeader (Value Loc)))
             Locations in
  let Headers := addHint (Hint_ ND) Headers in
  let Headers := addNameMatchHint (getAsIdentifierInfo (Value ND)) Headers in
  rank Headers.

Definition headersOfMacro (M : DefinedMacro) : list Header.t :=
  let Loc := locateMacro M in
  let Headers := includableHeader (Value Loc) in
  let Headers := addHint (Hint_ Loc) Headers in
  let Headers := addNameMatchHint (Some (Name M)) Headers in
  rank Headers.

(** The AST walker (WalkAST.cpp) drives the front end's recursive
    visitor; it enters the analysis as the sequence of reports that the
    traversal of a root makes to its callback. *)
Context {Decl : Type}
        (walkAST : Decl -> list (SourceLocation * Hinted NamedDecl)).

Section WalkUsed.
Context {St : Type}
        (Callback : SourceLocation -> Symbol.t -> list Header.t -> St -> St).

(** The body of the loop over [MacroRefs]. *)
Definition macroBody (MacroRef : SymbolReference) : Run.M St unit :=
  Run.assert_ (bool_decide (Symbol.kind (Target MacroRef) = Symbol.Macro));;
  M ← Run.get_ (Symbol.getMacro (Target MacroRef));
  Run.modify (Callback (Location_ MacroRef) (Target MacroRef) (headersOfMacro M)).

Definition walkUsed (ASTRoots : list Decl) (MacroRefs : list SymbolReference)
  : Run.M St unit :=
  Run.for_each ASTRoots (fun Root =>
    Run.for_each (walkAST Root) (fun '(RefLoc, ND) =>
      Run.modify (Callback RefLoc (Symbol.ofDecl (Value ND)) (headersOfDecl ND))));;
  Run.for_each MacroRefs macroBody.

End WalkUsed.
End WithCompiler.
End Analysis.

(** ** Hooks.h, Hooks.cpp: recording the preprocessor *)

Module RecordedPP.

(** A single [#include] directive from the main file. *)
Record Include := {
  Spelled : string;              (* e.g. vector *)
  Resolved : option FileEntry;   (* e.g. /path/to/c++/v1/vector, or null *)
  Location : SourceLocation;     (* of hash in #include <vector> *)
  Line : N;                      (* 1-based line number for #include *)
}.

(** The set of includes recorded from the main file: the vector [All]
    and the two indices into it, a [StringMap] and a [DenseMap] of
    vectors of ordinals. *)
Record RecordedIncludes := {
  All : list Include;
  BySpelling : gmap string (list nat);
  ByFile : gmap (option FileEntry) (list nat);
}.

Record t := {
  MacroReferences : list SymbolReference;
  Includes : RecordedIncludes;
}.

Definition empty : t :=
  {| MacroReferences := [];
     Includes := {| All := []; BySpelling := ∅; ByFile := ∅ |} |}.

(** [Map.lookup(Key)]: the value, or a default-constructed (empty) vector. *)
Definition lookup `{Countable K} (Map : gmap K (list nat)) (Key : K) : list nat :=
  default [] (Map !! Key).

(** [Map[Key].push_back(Index)], which creates the entry when missing. *)
Definition push_back_at `{Countable K} (Key : K) (Index : nat)
    (Map : gmap K (list nat)) : gmap K (list nat) :=
  <[Key := lookup Map Key ++ [Index]]> Map.

(** [RecordedIncludes::match]: pointers to the matching includes, as
    ordinals of [All]. *)
Definition match_ (Std : StdlibMapping) (R : RecordedIncludes) (H : Header.t)
  : list nat :=
  let Result :=
    match H with
    | Header.Physical FE => lookup (ByFile R) (Some FE)
    | Header.StandardLibrary StdlibHdr =>
        lookup (BySpelling R) (ADT.trim "<>" (Header_name Std StdlibHdr))
    | Header.Verbatim V => lookup (BySpelling R) V
    | Header.Builtin | Header.MainFile => []
    end in
  ADT.unique Nat.eqb (ADT.sort Nat.ltb Result).

End RecordedPP.

Module PPRecorder.
Import RecordedPP.

(** What [recordMacroRef] reads of a [MacroInfo]. *)
Record MacroInfo := { isBuiltinMacro : bool; getDefinitionLoc : SourceLocation }.

(** A token naming a macro, or a token of a macro body together with what
    the preprocessor knows of its identifier when the body is scanned. *)
Record Token := {
  getTokLocation : SourceLocation;
  getIdentifierInfo : option string;
  hadMacroDefinition : bool;
  getMacroInfo : option MacroInfo; (* [Preprocessor::getMacroInfo(II)] *)
}.

(** The preprocessor callbacks that the recorder overrides. *)
Inductive Event :=
| FileChanged (Loc : SourceLocation)
| InclusionDirective (Hash : SourceLocation) (SpelledFilename : string)
                     (IsAngled : bool) (File : option FileEntry)
| MacroExpands (MacroName : Token) (MI : MacroInfo)
| MacroDefined (MacroName : Token) (Params : list string) (Tokens : list Token).

Record State := { Active : bool; Recorded : RecordedPP.t }.

Definition initial : State := {| Active := false; Recorded := RecordedPP.empty |}.

Section WithContext.
Context (Ctx : AnalysisContext).

(** [Cache::macro] hands out one [DefinedMacro] per name and definition;
    the symbol is that pair.  The token naming a macro always carries its
    identifier. *)
Definition recordMacroRef (Tok : Token) (MI : MacroInfo) (R : RecordedPP.t)
  : RecordedPP.t :=
  if isBuiltinMacro MI then R (* __FILE__ is not a reference. *)
  else
    match getIdentifierInfo Tok with
    | Some II =>
        {| MacroReferences :=
             MacroReferences R ++
               [{| Location_ := getTokLocation Tok;
                   Target := Symbol.ofMacro
                               {| Name := II; Definition_ := getDefinitionLoc MI |} |}];
           Includes := Includes R |}
    | None => R
    end.

Definition recordInclude (Hash : SourceLocation) (SpelledFilename : string)
    (File : option FileEntry) (R : RecordedIncludes) : RecordedIncludes :=
  let Index := length (All R) in
  let I := {| Location := Hash;
              Resolved := File;
              Line := getSpellingLineNumber Ctx Hash;
              Spelled := SpelledFilename |} in
  {| All := All R ++ [I];
     BySpelling := push_back_at SpelledFilename Index (BySpelling R);
     ByFile := push_back_at File Index (ByFile R) |}.

Definition step (PS : State) (E : Event) : State :=
  match E with
  | FileChanged Loc =>
      {| Active := isWrittenInMainFile Ctx Loc; Recorded := Recorded PS |}
  | InclusionDirective Hash SpelledFilename _ File =>
      if negb (Active PS) then PS
      else {| Active := Active PS;
              Recorded :=
                {| MacroReferences := MacroReferences (Recorded PS);
                   Includes := recordInclude Hash SpelledFilename File
                                 (Includes (Recorded PS)) |} |}
  | MacroExpands MacroName MI =>
      if negb (Active PS) then PS
      else {| Active := Active PS;
              Recorded := recordMacroRef MacroName MI (Recorded PS) |}
  | MacroDefined _ Params Tokens =>
      if negb (Active PS) then PS
      else
        {| Active := Active PS;
           Recorded :=
             fold_left
               (fun R Tok =>
                  match getIdentifierInfo Tok with
                  | None => R
                  | Some II =>
                      (* Could this token be a reference to a macro? *)
                      if negb (hadMacroDefinition Tok)
                         || bool_decide (II ∈ Params)
                      then R
                      else match getMacroInfo Tok with
                           | Some MI => recordMacroRef Tok MI R
                           | None => R
                           end
                  end)
               Tokens (Recorded PS) |}
  end.

(** The recorder after a run of the preprocessor. *)
Definition record (Events : list Event) : State := fold_left step Events initial.

End WithContext.
End PPRecorder.

(** [Header::name] (Types.cpp) *)
Definition Header_name_of (Std : StdlibMapping) (H : Header.t) : string :=
  match H with
  | Header.Physical FE => getName FE
  | Header.StandardLibrary StdlibHdr => Header_name Std StdlibHdr
  | Header.Verbatim V => V
  | Header.Builtin => "<built-in>"
  | Header.MainFile => "<main-file>"
  end.

(** ** ClangIncludeCleaner.cpp: the standalone tool *)

Module Tool.

(** The command line flags [-satisfied] and [-recover]. *)
Record Options := { ShowSatisfied : bool; Recover : bool }.

(** [llvm::cl::init]: the values of the flags when they are not given. *)
Definition initOptions : Options := {| ShowSatisfied := false; Recover := true |}.

Inductive Level := Ignored | Note | Remark | Warning | Error.

(** [CustomDiagnosticIDs] *)
Module ID.
Inductive t := Satisfied | Unsatisfied | NoHeader | NoteHeader | Used | Unused.
End ID.

Definition levelOf (Opts : Options) (D : ID.t) : Level :=
  let SatisfiedLevel := if ShowSatisfied Opts then Remark else Ignored in
  match D with
  | ID.Satisfied => SatisfiedLevel
  | ID.Unsatisfied => Error
  | ID.NoHeader => Warning
  | ID.NoteHeader => Note
  | ID.Used => SatisfiedLevel
  | ID.Unused => Error
  end.

Definition formatOf (D : ID.t) : string :=
  match D with
  | ID.Satisfied => "%0 '%1' provided by %2"
  | ID.Unsatisfied => "no header included for %0 '%1'"
  | ID.NoHeader => "unknown header provides %0 '%1'"
  | ID.NoteHeader => "provided by %0"
  | ID.Used => "include provides %0 '%1'"
  | ID.Unused => "include is unused"
  end.

(** One [Diag->Report(Loc, ID) << Args...]. *)
Record Diagnostic := {
  At : option SourceLocation;
  DiagID : ID.t;
  Severity : Level;
  Args : list string;
}.

(** The variables captured by the callback of [EndSourceFile], and the
    diagnostics engine. *)
Record State := {
  Recovered : list Header.t;      (* [llvm::DenseSet<Header>] *)
  UsedBy : gmap nat Symbol.t;     (* [llvm::DenseMap<const Include *, Symbol>] *)
  Reported : list Diagnostic;
}.

Definition contains (Set_ : list Header.t) (H : Header.t) : bool :=
  existsb (Header.eqb H) Set_.

Definition insert (H : Header.t) (Set_ : list Header.t) : list Header.t :=
  if contains Set_ H then Set_ else Set_ ++ [H].

Definition try_emplace (I : nat) (Sym : Symbol.t) (Map : gmap nat Symbol.t)
  : gmap nat Symbol.t :=
  match Map !! I with
  | Some _ => Map
  | None => <[I := Sym]> Map
  end.

Section WithAction.
Context (Opts : Options) (Std : StdlibMapping) (PP : RecordedPP.t).

Definition Report (Loc : option SourceLocation) (D : ID.t) (Args : list string)
    (Diags : list Diagnostic) : list Diagnostic :=
  Diags ++ [{| At := Loc; DiagID := D; Severity := levelOf Opts D; Args := Args |}].

Definition SpelledOf (I : nat) : string :=
  from_option RecordedPP.Spelled "" (RecordedPP.All (RecordedPP.Includes PP) !! I).

Definition isBuiltinOrMainFile (H : Header.t) : bool :=
  match H with
  | Header.Builtin | Header.MainFile => true
  | _ => false
  end.

(** The first loop of [diagnoseReference] over [Headers]; the loop
    carries [Diagnosed], [Used] and the diagnostics reported. *)
Definition markUsed (Loc : SourceLocation) (Sym : Symbol.t) (Headers : list Header.t)
    (Used0 : gmap nat Symbol.t) (Diags0 : list Diagnostic)
  : bool * gmap nat Symbol.t * list Diagnostic :=
  fold_left
    (fun '(Diagnosed, Used, Diags) H =>
       let '(Diagnosed, Diags) :=
         if isBuiltinOrMainFile H && negb Diagnosed
         then (true, Report (Some Loc) ID.Satisfied
                       [Symbol.nodeName Sym; Symbol.name Sym; Header_name_of Std H]
                       Diags)
         else (Diagnosed, Diags) in
       fold_left
         (fun '(Diagnosed, Used, Diags) I =>
            let Used := try_emplace I Sym Used in
            if negb Diagnosed
            then (true, Used,
                  Report (Some Loc) ID.Satisfied
                    [Symbol.nodeName Sym; Symbol.name Sym; SpelledOf I] Diags)
            else (Diagnosed, Used, Diags))
         (RecordedPP.match_ Std (RecordedPP.Includes PP) H)
         (Diagnosed, Used, Diags))
    Headers (false, Used0, Diags0).

Definition diagnoseReference (Loc : SourceLocation) (Sym : Symbol.t)
    (Headers : list Header.t) (S0 : State) : State :=
  let '(Diagnosed, Used, Diags) :=
    markUsed Loc Sym Headers (UsedBy S0) (Reported S0) in
  if Diagnosed
  then {| Recovered := Recovered S0; UsedBy := Used; Reported := Diags |}
  else
    match find (contains (Recovered S0)) Headers with
    | Some H =>
        {| Recovered := Recovered S0;
           UsedBy := Used;
           Reported := Report (Some Loc) ID.Satisfied
                         [Symbol.nodeName Sym; Symbol.name Sym; Header_name_of Std H]
                         Diags |}
    | None =>
        let Diags :=
          Report (Some Loc)
                 (match Headers with [] => ID.NoHeader | _ => ID.Unsatisfied end)
                 [Symbol.nodeName Sym; Symbol.name Sym] Diags in
        fold_left
          (fun S1 H =>
             {| Recovered := insert H (Recovered S1);
                UsedBy := UsedBy S1;
                Reported := Report None ID.NoteHeader [Header_name_of Std H]
                              (Reported S1) |})
          Headers
          {| Recovered := Recovered S0; UsedBy := Used; Reported := Diags |}
    end.

Definition diagnoseIncludes (Includes : list RecordedPP.Include)
    (Used : gmap nat Symbol.t) (Diags : list Diagnostic) : list Diagnostic :=
  fold_left
    (fun Diags '(Ord, Inc) =>
       match Used !! Ord with
       | None => Report (Some (RecordedPP.Location Inc)) ID.Unused [] Diags
       | Some Sym =>
           Report (Some (RecordedPP.Location Inc)) ID.Used
                  [Symbol.nodeName Sym; Symbol.name Sym] Diags
       end)
    (ADT.enumerate Includes) Diags.

Context (Ctx : AnalysisContext) {Decl : Type}
        (walkAST : Decl -> list (SourceLocation * Hinted NamedDecl)).

(** [Action::EndSourceFile] on the recorded top-level declarations:
    [Recovered] and [Used] are its local variables, and the diagnostics
    engine holds [Diags] when it is entered. *)
Definition EndSourceFile (TopLevelDecls : list Decl) (Diags : list Diagnostic)
  : list Diagnostic * option unit :=
  let Locals := {| Recovered := []; UsedBy := ∅; Reported := Diags |} in
  let Done :=
    (Analysis.walkUsed Std Ctx walkAST diagnoseReference
       TopLevelDecls (RecordedPP.MacroReferences PP);;
     Run.modify (fun S1 =>
       {| Recovered := Recovered S1;
          UsedBy := UsedBy S1;
          Reported := diagnoseIncludes (RecordedPP.All (RecordedPP.Includes PP))
                        (UsedBy S1) (Reported S1) |})) Locals in
  (Reported Done.1, Done.2).

End WithAction.
End Tool.

(** ** clangd/IncludeCleaner.cpp *)

Module Clangd.

(** What the check reads of a clangd [Inclusion]. *)
Record Inclusion := {
  Written : string;          (* as written, with the quotes or angle brackets *)
  HeaderID : option nat;     (* absent when the file was not resolved *)
  BehindPragmaKeep : bool;
  HashLine : nat;
}.

(** What the check reads of a [ParsedAST]: the main-file includes, the
    file behind the real path of a header, the header search's knowledge
    of include guards and the identifiers of the include structure. *)
Record ParsedAST := {
  MainFileIncludes : list Inclusion;
  getFile : nat -> option FileEntry;
  isFileMultipleIncludeGuarded : FileEntry -> bool;
  getID : FileEntry -> option nat;
}.

Section WithGlobals.
(** The file-static flag behind [setIncludeCleanerAnalyzesStdlib]. *)
Context (AnalyzeStdlib : bool) (Std : StdlibMapping).

Definition front (Str : string) : option ascii :=
  match Str with
  | String c _ => Some c
  | EmptyString => None
  end.

(** [None] is a failed assertion (or [front()] of an empty string). *)
Definition mayConsiderUnused (Inc : Inclusion) (AST : ParsedAST) : option bool :=
  if BehindPragmaKeep Inc then Some false
  else
    c ← front (Written Inc);
    if Ascii.eqb c "<"
    then
      if AnalyzeStdlib && bool_decide (is_Some (Header_named Std (Written Inc)))
      then Some true
      else Some false
    else
      ID ← HeaderID Inc;       (* assert(Inc.HeaderID) *)
      FE ← getFile AST ID;     (* assert(FE) *)
      if negb (isFileMultipleIncludeGuarded AST FE)
      then Some false
      else Some true.

(** The result holds pointers into [MainFileIncludes], as ordinals. *)
Definition getUnused (AST : ParsedAST) (ReferencedFiles : gset nat)
  : option (list nat) :=
  foldl
    (fun Acc '(Ord, MFI) =>
       Unused ← Acc;
       match HeaderID MFI with
       | None => Some Unused
       | Some IncludeID =>
           let Used := bool_decide (IncludeID ∈ ReferencedFiles) in
           if Used then Some Unused
           else
             May ← mayConsiderUnused MFI AST;
             if negb May then Some Unused
             else Some (Unused ++ [Ord])
       end)
    (Some []) (ADT.enumerate (MainFileIncludes AST)).

(** [match]: does an include-cleaner header spec match a recorded
    inclusion? *)
Definition match_ (H : Header.t) (I : Inclusion) (AST : ParsedAST) : bool :=
  match H with
  | Header.Physical FE =>
      match getID AST FE with
      | Some HID => bool_decide (Some HID = HeaderID I)
      | None => false
      end
  | Header.StandardLibrary StdlibHdr =>
      String.eqb (Written I) (Header_name Std StdlibHdr)
  | Header.Verbatim V => String.eqb (ADT.trim (String (ascii_of_nat 34) "<>") (Written I)) V
  | Header.Builtin | Header.MainFile => false
  end.

Context (Ctx : AnalysisContext) {Decl : Type}
        (walkAST : Decl -> list (SourceLocation * Hinted NamedDecl)).

(** The callback of [computeUnusedIncludes], which captures [Used]. *)
Definition markUsed (AST : ParsedAST) (Loc : SourceLocation) (Sym : Symbol.t)
    (Headers : list Header.t) (Used : gset nat) : gset nat :=
  fold_left
    (fun Used '(Ord, Inc) =>
       fold_left
         (fun Used H => if match_ H Inc AST then {[Ord]} ∪ Used else Used)
         Headers Used)
    (ADT.enumerate (MainFileIncludes AST)) Used.

(** The final loop of [computeUnusedIncludes]. *)
Definition collectUnused (AST : ParsedAST) (Used : gset nat) : option (list nat) :=
  foldl
    (fun (Acc : option (list nat)) '((Ord, Inc) : nat * Inclusion) =>
       Unused ← Acc;
       if bool_decide (Ord ∈ Used) then Some Unused
       else
         May ← mayConsiderUnused Inc AST;
         if (May : bool) then Some (Unused ++ [Ord]) else Some Unused)
    (Some []) (ADT.enumerate (MainFileIncludes AST)).

(** [computeUnusedIncludes] on the local top-level declarations and the
    macro references found in the main file. *)
Definition computeUnusedIncludes (AST : ParsedAST) (LocalTopLevelDecls : list Decl)
    (ReferencedMacros : list SymbolReference) : option (list nat) :=
  match Analysis.walkUsed Std Ctx walkAST (markUsed AST)
          LocalTopLevelDecls ReferencedMacros ∅ with
  | (Used, Some _) => collectUnused AST Used
  | (_, None) => None
  end.

End WithGlobals.
End Clangd.

(** ** The properties as the specification words them *)

Module Spec.

(** The filename stem of a path: the name without directory or extension. *)
Fixpoint afterLast (Sep : ascii) (Str Acc : list ascii) : list ascii :=
  match Str with
  | [] => rev Acc
  | c :: Str' =>
      if Ascii.eqb c Sep then afterLast Sep Str' [] else afterLast Sep Str' (c :: Acc)
  end.

Fixpoint beforeLast (Sep : ascii) (Str : list ascii) : option (list ascii) :=
  match Str with
  | [] => None
  | c :: Str' =>
      match beforeLast Sep Str' with
      | Some Pre => Some (c :: Pre)
      | None => if Ascii.eqb c Sep then Some [] else None
      end
  end.

Definition stem (Path : string) : string :=
  let File := afterLast "/" (list_ascii_of_string Path) [] in
  string_of_list_ascii (default File (beforeLast "." File)).

(** The match predicate of a header on an include, per variant. *)
Definition matches (Std : StdlibMapping) (H : Header.t) (Inc : RecordedPP.Include)
  : Prop :=
  match H with
  | Header.Physical F => RecordedPP.Resolved Inc = Some F
  | Header.StandardLibrary StdlibHdr =>
      RecordedPP.Spelled Inc = ADT.trim "<>" (Header_name Std StdlibHdr)
  | Header.Verbatim V => RecordedPP.Spelled Inc = V
  | Header.Builtin | Header.MainFile => False
  end.

(** The ordinals of the elements of a vector that satisfy [P], in
    ascending order. *)
Definition ordinals {A} (P : A -> Prop) `{forall x, Decision (P x)} (Vec : list A)
  : list nat :=
  (filter (fun x => P x.2) (ADT.enumerate Vec)).*1.

(** The two indices of the recorded includes list, per key, the ordinals
    of the includes spelled so, and of those resolved to the file. *)
Definition indexed (R : RecordedPP.RecordedIncludes) : Prop :=
  (forall Spelling,
     RecordedPP.lookup (RecordedPP.BySpelling R) Spelling
     = ordinals (fun Inc => RecordedPP.Spelled Inc = Spelling) (RecordedPP.All R)) /\
  (forall File,
     RecordedPP.lookup (RecordedPP.ByFile R) File
     = ordinals (fun Inc => RecordedPP.Resolved Inc = File) (RecordedPP.All R)).

(** A strict total order consistent with an equality: exactly one of
    [A < B], [B < A], [A == B] holds, and [<] is irreflexive and
    transitive. *)
Definition exactlyOne (a b c : bool) : Prop :=
  (a = true /\ b = false /\ c = false) \/
  (a = false /\ b = true /\ c = false) \/
  (a = false /\ b = false /\ c = true).

Record StrictTotalOrder {A} (lt eq : A -> A -> bool) : Prop := {
  trichotomy : forall a b, exactlyOne (lt a b) (lt b a) (eq a b);
  irreflexive : forall a, lt a a = false;
  transitive : forall a b c, lt a b = true -> lt b c = true -> lt a c = true;
}.

(** The references that [walkUsed] reports, in order: those of the AST
    walker on each root, then the macro references. *)
Definition references {Decl} (walkAST : Decl -> list (SourceLocation * Hinted NamedDecl))
    (ASTRoots : list Decl) (MacroRefs : list SymbolReference)
  : list (SourceLocation * Symbol.t) :=
  flat_map (fun Root =>
              map (fun R => (R.1, Symbol.ofDecl (Value R.2))) (walkAST Root))
           ASTRoots
  ++ map (fun R => (Location_ R, Target R)) MacroRefs.

(** The invocations of the callback, with the headers handed over: for
    the reports of the AST walker, and for the macro references up to the
    first one that does not target a macro. *)
Section Calls.
Context (Std : StdlibMapping) (Ctx : AnalysisContext) {Decl : Type}
        (walkAST : Decl -> list (SourceLocation * Hinted NamedDecl)).

Definition declCalls (ASTRoots : list Decl)
  : list (SourceLocation * Symbol.t * list Header.t) :=
  flat_map
    (fun Root =>
       map (fun R => (R.1, Symbol.ofDecl (Value R.2),
                      Analysis.headersOfDecl Std Ctx R.2))
           (walkAST Root))
    ASTRoots.

Fixpoint macroCalls (MacroRefs : list SymbolReference)
  : list (SourceLocation * Symbol.t * list Header.t) :=
  match MacroRefs with
  | [] => []
  | R :: Rest =>
      match Target R with
      | Symbol.ofMacro M =>
          (Location_ R, Target R, Analysis.headersOfMacro Std Ctx M)
            :: macroCalls Rest
      | Symbol.ofDecl _ => []
      end
  end.

Definition invoke {St} (Callback : SourceLocation -> Symbol.t -> list Header.t -> St -> St)
    (s : St) (c : SourceLocation * Symbol.t * list Header.t) : St :=
  Callback c.1.1 c.1.2 c.2 s.
End Calls.

(** The eligibility of an include for an unused-include report: no keep
    annotation; written in angle brackets only with standard-library
    analysis on and a recognized standard header; written in quotes only
    when it resolves to a file with an include guard. *)
Definition angled (Inc : Clangd.Inclusion) : Prop :=
  Clangd.front (Clangd.Written Inc) = Some "<"%char.

Definition eligible (AnalyzeStdlib : bool) (Std : StdlibMapping)
    (AST : Clangd.ParsedAST) (Inc : Clangd.Inclusion) : Prop :=
  Clangd.BehindPragmaKeep Inc = false /\
  (angled Inc ->
     AnalyzeStdlib = true /\ is_Some (Header_named Std (Clangd.Written Inc))) /\
  (~ angled Inc ->
     exists ID FE, Clangd.HeaderID Inc = Some ID /\
                   Clangd.getFile AST ID = Some FE /\
                   Clangd.isFileMultipleIncludeGuarded AST FE = true).

(** The diagnostics [New] extend [Old] by "provided by" remarks only. *)
Definition onlySatisfied (Old New : list Tool.Diagnostic) : Prop :=
  exists Added,
    New = Old ++ Added /\
    Forall (fun D => Tool.DiagID D = Tool.ID.Satisfied) Added.

End Spec.

(** ** A translation unit to run the analysis on *)

Module Example.
Local Open Scope N_scope.

Definition a_h : FileEntry := {| getUID := 1; getName := "a.h" |}.
Definition b_h : FileEntry := {| getUID := 2; getName := "b.h" |}.
Definition c_h : FileEntry := {| getUID := 3; getName := "c.h" |}.
Definition foo_h : FileEntry := {| getUID := 4; getName := "foo.h" |}.
Definition Foo_file : FileEntry := {| getUID := 5; getName := "Foo" |}.
Definition cassert_file : FileEntry :=
  {| getUID := 6; getName := "/usr/include/c++/cassert" |}.

(** Two standard headers: [<vector>] is header 0 and [<cassert>] header 1;
    every standard symbol lives in [<vector>]. *)
Definition std : StdlibMapping :=
  {| Symbol_header := fun _ => 0%N;
     Header_name := fun H => if (H =? 0)%N then "<vector>" else "<cassert>";
     Header_named := fun Str =>
       if String.eqb Str "<vector>" then Some 0%N
       else if String.eqb Str "<cassert>" then Some 1%N
       else None |}.

(** A source manager in which location [100 * F + L] is line [L] of file
    [F]; file 0 is the predefines buffer, file 1 the main file. *)
Definition ctx : AnalysisContext :=
  {| policy := defaultPolicy;
     getExpansionLoc := fun Loc => Loc;
     getFileID := fun Loc => Z.of_N (Loc / 100);
     getMainFileID := 1%Z;
     getFileEntryForID := fun FID =>
       match FID with
       | 2 => Some a_h | 3 => Some b_h | 4 => Some c_h
       | 5 => Some foo_h | 6 => Some Foo_file | 7 => Some cassert_file
       | _ => None
       end%Z;
     isWrittenInMainFile := fun Loc => (Loc / 100 =? 1)%N;
     getSpellingLineNumber := fun Loc => (Loc mod 100)%N;
     getPredefinesFileID := 0%Z;
     StdlibRecognizer := fun _ => None |}.

Definition declaredAt (Loc : SourceLocation) (Def : bool) : Decl_ :=
  {| getFriendObjectKind := FOK_None;
     getLocation := Loc;
     getClass := TagDecl;
     isThisDeclarationADefinition := Def |}.

(** [class Foo], declared in a.h, in b.h, in c.h and again in b.h. *)
Definition Foo : NamedDecl :=
  {| getAsIdentifierInfo := Some "Foo";
     getNameAsString := "Foo";
     getDeclKindName := "CXXRecord";
     redecls := [declaredAt 201 false; declaredAt 301 false;
                 declaredAt 401 false; declaredAt 305 false] |}.

(** [class Foo], defined in b.h and declared in the file named Foo. *)
Definition Foo' : NamedDecl :=
  {| getAsIdentifierInfo := Some "Foo";
     getNameAsString := "Foo";
     getDeclKindName := "CXXRecord";
     redecls := [declaredAt 301 true; declaredAt 601 false] |}.

(** A macro defined in b.h, which the main file does not include. *)
Definition BAR : DefinedMacro := {| Name := "BAR"; Definition_ := 302%N |}.

(** Each root is one reference, made on its own line of the main file. *)
Definition walkAST (Root : N * NamedDecl) : list (SourceLocation * Hinted NamedDecl) :=
  [((100 + Root.1)%N, unhinted Root.2)].

(** The callback that logs its invocations. *)
Definition logCall (Loc : SourceLocation) (Sym : Symbol.t) (Headers : list Header.t)
    (Log : list (SourceLocation * Symbol.t * list Header.t))
  : list (SourceLocation * Symbol.t * list Header.t) :=
  Log ++ [(Loc, Sym, Headers)].

(** A main file with [#include "a.h"], [#include <vector>] and again
    [#include "a.h"]; the directive of line 9 is read in a.h. *)
Definition events : list PPRecorder.Event :=
  [PPRecorder.FileChanged 100%N;
   PPRecorder.InclusionDirective 101%N "a.h" false (Some a_h);
   PPRecorder.InclusionDirective 102%N "vector" true None;
   PPRecorder.FileChanged 200%N;
   PPRecorder.InclusionDirective 209%N "c.h" false (Some c_h);
   PPRecorder.FileChanged 103%N;
   PPRecorder.InclusionDirective 103%N "a.h" false (Some a_h)].

Definition quoted (Str : string) : string :=
  String (ascii_of_nat 34) (Str ++ String (ascii_of_nat 34) "")%string.

(** clangd's view of a main file with [#include <cassert>], whose file
    has no include guard, and [#include "a.h"], which has one; and of the
    same file with a third directive that could not be resolved. *)
Definition includes : list Clangd.Inclusion :=
  [{| Clangd.Written := "<cassert>"; Clangd.HeaderID := Some 7%nat;
      Clangd.BehindPragmaKeep := false; Clangd.HashLine := 0%nat |};
   {| Clangd.Written := quoted "a.h"; Clangd.HeaderID := Some 2%nat;
      Clangd.BehindPragmaKeep := false; Clangd.HashLine := 1%nat |}].

Definition unresolved : Clangd.Inclusion :=
  {| Clangd.Written := quoted "missing.h"; Clangd.HeaderID := None;
     Clangd.BehindPragmaKeep := false; Clangd.HashLine := 2%nat |}.

Definition parsed (Includes : list Clangd.Inclusion) : Clangd.ParsedAST :=
  {| Clangd.MainFileIncludes := Includes;
     Clangd.getFile := fun ID => getFileEntryForID ctx (Z.of_nat ID);
     Clangd.isFileMultipleIncludeGuarded := fun FE => negb (getUID FE =? 6)%N;
     Clangd.getID := fun FE => Some (N.to_nat (getUID FE) + 1)%nat |}.

Definition ast : Clangd.ParsedAST := parsed includes.
Definition ast_unresolved : Clangd.ParsedAST := parsed (includes ++ [unresolved]).

(** The standalone tool run without [-recover], on a main file without
    includes that uses the macro BAR of b.h on two lines. *)
Definition noRecover : Tool.Options :=
  {| Tool.ShowSatisfied := false; Tool.Recover := false |}.

Definition twoUses : RecordedPP.t :=
  {| RecordedPP.MacroReferences :=
       [{| Location_ := 107; Target := Symbol.ofMacro BAR |};
        {| Location_ := 108; Target := Symbol.ofMacro BAR |}];
     RecordedPP.Includes := RecordedPP.Includes RecordedPP.empty |}.

End Example.

(** ** AnalysisInternal.h: the arena of macro symbols *)

Module Cache.

(** A pointer into the arena [DefinedMacros]: the bucket of the macro's
    name and the position in it. *)
Definition Slot : Type := string * nat.

(** The linear search of [macro], from position [Pos] on. *)
Fixpoint search (Def : SourceLocation) (DMS : list DefinedMacro) (Pos : nat)
  : option nat :=
  match DMS with
  | [] => None
  | DM :: Rest =>
      if (Definition_ DM =? Def)%N then Some Pos else search Def Rest (S Pos)
  end.

(** [Cache::macro]: the slot handed out, and the arena afterwards;
    [DefinedMacros[Name]] creates the bucket when it is missing. *)
Definition macro (Name : string) (Def : SourceLocation)
    (DefinedMacros : gmap string (list DefinedMacro))
  : Slot * gmap string (list DefinedMacro) :=
  let DMS := default [] (DefinedMacros !! Name) in
  match search Def DMS 0 with
  | Some Pos => ((Name, Pos), <[Name := DMS]> DefinedMacros)
  | None =>
      ((Name, length DMS),
       <[Name := DMS ++ [{| Name := Name; Definition_ := Def |}]]> DefinedMacros)
  end.

(** The [DefinedMacro] behind a slot. *)
Definition deref (DefinedMacros : gmap string (list DefinedMacro)) (P : Slot)
  : option DefinedMacro :=
  default [] (DefinedMacros !! P.1) !! P.2.

(** The arena after a sequence of calls of [macro], from the empty one. *)
Definition after (Queries : list (string * SourceLocation))
  : gmap string (list DefinedMacro) :=
  fold_left (fun C Q => (macro Q.1 Q.2 C).2) Queries ∅.

(** Every bucket holds macros of its name, with distinct definitions. *)
Definition bucketsDistinct (C : gmap string (list DefinedMacro)) : Prop :=
  forall N DMS, C !! N = Some DMS ->
    Forall (fun DM => Name DM = N) DMS /\ NoDup (Definition_ <$> DMS).

End Cache.

(** ** Shapes of the further properties *)

Module Laws.

(** The declarations to which [declHint] gives [Complete]: the defining
    declaration of a tag, of a class template or of a function template. *)
Definition isTypeLikeDefinition (D : Decl_) : bool :=
  match getClass D with
  | TagDecl | ClassTemplateDecl | FunctionTemplateDecl =>
      isThisDeclarationADefinition D
  | OtherDecl => false
  end.

(** What [std::stable_sort] asks of its comparison: a strict weak order. *)
Record StrictWeakOrder {A} (lt : A -> A -> bool) : Prop := {
  weak_irreflexive : forall a, lt a a = false;
  weak_transitive : forall a b c, lt a b = true -> lt b c = true -> lt a c = true;
  weak_incomparable : forall a b c,
    lt a b = false -> lt b a = false -> lt b c = false -> lt c b = false ->
    lt a c = false /\ lt c a = false;
}.

Definition isPhysical (H : Header.t) : bool :=
  match H with Header.Physical _ => true | _ => false end.

(** A verbatim spelling; [DenseMapInfo<Header>] takes its two reserved
    keys from these. *)
Definition isVerbatim (H : Header.t) : bool :=
  match H with Header.Verbatim _ => true | _ => false end.

(** The callbacks of the recorder by what they can record. *)
Definition isFileChanged (E : PPRecorder.Event) : bool :=
  match E with PPRecorder.FileChanged _ => true | _ => false end.

Definition isMacroEvent (E : PPRecorder.Event) : bool :=
  match E with
  | PPRecorder.MacroExpands _ _ | PPRecorder.MacroDefined _ _ _ => true
  | _ => false
  end.

Definition isInclusionDirective (E : PPRecorder.Event) : bool :=
  match E with PPRecorder.InclusionDirective _ _ _ _ => true | _ => false end.

(** The reference that the scan of a macro definition with the
    parameters [Params] makes of one token of the body, if any. *)
Definition referenceOfToken (Params : list string) (Tok : PPRecorder.Token)
  : option SymbolReference :=
  match PPRecorder.getIdentifierInfo Tok with
  | None => None
  | Some II =>
      if negb (PPRecorder.hadMacroDefinition Tok) || bool_decide (II ∈ Params)
      then None
      else
        match PPRecorder.getMacroInfo Tok with
        | Some MI =>
            if PPRecorder.isBuiltinMacro MI then None
            else Some {| Location_ := PPRecorder.getTokLocation Tok;
                         Target := Symbol.ofMacro
                                     {| Name := II;
                                        Definition_ := PPRecorder.getDefinitionLoc MI |} |}
        | None => None
        end
  end.

(** A reference recorded from the body [Tokens] of a macro definition
    with the parameters [Params]: it is at a token that names a macro
    defined at that point, neither built in nor a parameter, and targets
    that definition. *)
Definition recordedFromBody (Params : list string) (Tokens : list PPRecorder.Token)
    (Ref : SymbolReference) : Prop :=
  exists Tok MI,
    Tok ∈ Tokens /\
    PPRecorder.getIdentifierInfo Tok = Some (Symbol.name (Target Ref)) /\
    (Symbol.name (Target Ref) ∉ Params) /\
    PPRecorder.hadMacroDefinition Tok = true /\
    PPRecorder.getMacroInfo Tok = Some MI /\
    PPRecorder.isBuiltinMacro MI = false /\
    Ref = {| Location_ := PPRecorder.getTokLocation Tok;
             Target := Symbol.ofMacro
                         {| Name := Symbol.name (Target Ref);
                            Definition_ := PPRecorder.getDefinitionLoc MI |} |}.

End Laws.

(** ** Hooks.cpp: recording the top-level declarations *)

Module RecordedAST.

Inductive TemplateSpecializationKind :=
| TSK_Undeclared
| TSK_ImplicitInstantiation
| TSK_ExplicitSpecialization
| TSK_ExplicitInstantiationDeclaration
| TSK_ExplicitInstantiationDefinition.

(** The classes that [HandleTopLevelDecl] tells apart by [dyn_cast] and
    [isa]. *)
Inductive TopLevelClass :=
| FunctionDecl | CXXRecordDecl | VarDecl | ObjCMethodDecl | OtherTopLevel.

(** What the consumer reads of a [Decl] of a declaration group. *)
Record TopLevelDecl := {
  getLocation : SourceLocation;
  getClass : TopLevelClass;
  getTemplateSpecializationKind : TemplateSpecializationKind;
}.

Definition isImplicitInstantiation (D : TopLevelDecl) : bool :=
  match getTemplateSpecializationKind D with
  | TSK_ImplicitInstantiation => true
  | _ => false
  end.

Section WithContext.
Context (Ctx : AnalysisContext).

(** [ASTRecorder::HandleTopLevelDecl]: the recorded declarations
    afterwards, and the value returned. *)
Definition HandleTopLevelDecl (DG : list TopLevelDecl) (TopLevelDecls : list TopLevelDecl)
  : list TopLevelDecl * bool :=
  (fold_left
     (fun Recorded D =>
        if negb (isWrittenInMainFile Ctx (getExpansionLoc Ctx (getLocation D)))
        then Recorded
        else
          match getClass D with
          | FunctionDecl | CXXRecordDecl | VarDecl =>
              if isImplicitInstantiation D then Recorded else Recorded ++ [D]
          | ObjCMethodDecl => Recorded (* ObjCMethodDecl are not actually top-level! *)
          | OtherTopLevel => Recorded ++ [D]
          end)
     DG TopLevelDecls,
   true).

(** A declaration that the consumer keeps. *)
Definition kept (D : TopLevelDecl) : Prop :=
  isWrittenInMainFile Ctx (getExpansionLoc Ctx (getLocation D)) = true /\
  getClass D <> ObjCMethodDecl /\
  (getClass D = OtherTopLevel \/ isImplicitInstantiation D = false).

End WithContext.
End RecordedAST.

(** ** clang-tidy/misc/UnusedIncludesCheck.cpp *)

Module UnusedIncludesCheck.

(** The sets captured by the callback of [onEndOfTranslationUnit]. *)
Record Captured := {
  Used : gset nat;          (* [llvm::DenseSet<const Include *>] *)
  Seen : list Header.t;     (* [llvm::DenseSet<Header>] *)
}.

(** A diagnostic with its fix: the removal of the characters from [line,
    column] to [line, column] of a file. *)
Record Diag := {
  At : SourceLocation;
  Message : string;
  RemoveFrom : FileID * N * N;
  RemoveTo : FileID * N * N;
}.

Section WithCheck.
Context (Std : StdlibMapping) (Ctx : AnalysisContext) (PP : RecordedPP.t).

Definition callback (Loc : SourceLocation) (Sym : Symbol.t)
    (Headers : list Header.t) (C : Captured) : Captured :=
  fold_left
    (fun C Header =>
       if Tool.contains (Seen C) Header then C (* [!Seen.insert(Header).second] *)
       else
         {| Seen := Seen C ++ [Header];
            Used := fold_left (fun Used Inc => {[Inc]} ∪ Used)
                      (RecordedPP.match_ Std (RecordedPP.Includes PP) Header)
                      (Used C) |})
    Headers C.

Definition unusedDiag (Inc : RecordedPP.Include) : Diag :=
  let FID := getFileID Ctx (RecordedPP.Location Inc) in
  {| At := RecordedPP.Location Inc;
     Message := "include is unused";
     RemoveFrom := (FID, RecordedPP.Line Inc, 1%N);
     RemoveTo := (FID, (RecordedPP.Line Inc + 1)%N, 1%N) |}.

(** The loop over [all()] that diagnoses the includes outside [Used]. *)
Definition diagnose (Used : gset nat) : list Diag :=
  fold_left
    (fun Diags '(Ord, Inc) =>
       if bool_decide (Ord ∈ Used) then Diags else Diags ++ [unusedDiag Inc])
    (ADT.enumerate (RecordedPP.All (RecordedPP.Includes PP))) [].

Context {Decl : Type}
        (walkAST : Decl -> list (SourceLocation * Hinted NamedDecl)).

(** [onEndOfTranslationUnit] on the declarations collected in [Top]: the
    diagnostics, when no assertion has failed. *)
Definition onEndOfTranslationUnit (Top : list Decl) : option (list Diag) :=
  match Analysis.walkUsed Std Ctx walkAST callback Top
          (RecordedPP.MacroReferences PP) {| Used := ∅; Seen := [] |} with
  | (C, Some _) => Some (diagnose (Used C))
  | (_, None) => None
  end.

End WithCheck.
End UnusedIncludesCheck.

(** ** clangd/IncludeCleaner.cpp: the macros referenced in the main file *)

Module ClangdMacros.

(** A spelled token of the main file, with the answer of [locateMacroAt]
    for it: the name of the macro and the location of its definition. *)
Record SpelledToken := {
  location : SourceLocation;
  locateMacroAt : option (string * SourceLocation);
}.

(** [findReferencedMacros]; [Ctx.macro] hands out the symbol of a name
    and definition. *)
Definition findReferencedMacros (Tokens : list SpelledToken) : list SymbolReference :=
  fold_left
    (fun Result Tok =>
       match locateMacroAt Tok with
       | None => Result
       | Some (MacroName, Loc) =>
           if isValid Loc
           then Result ++
                  [{| Location_ := location Tok;
                      Target := Symbol.ofMacro
                                  {| Name := MacroName; Definition_ := Loc |} |}]
           else Result
       end)
    Tokens [].

End ClangdMacros.


(** ** What the tool's diagnostics name *)

Module Provided.

(** A diagnostic without its severity. *)
Definition content (D : Tool.Diagnostic)
  : option SourceLocation * Tool.ID.t * list string :=
  (Tool.At D, Tool.DiagID D, Tool.Args D).

Section WithAction.
Context (Opts : Tool.Options) (Std : StdlibMapping) (PP : RecordedPP.t).

(** What satisfies a reference to a symbol of the header [H]: the header
    itself when it is built in or the main file, else the first include
    that matches it. *)
Definition provider (H : Header.t) : option string :=
  if Tool.isBuiltinOrMainFile H then Some (Header_name_of Std H)
  else
    match RecordedPP.match_ Std (RecordedPP.Includes PP) H with
    | Ord :: _ => Some (Tool.SpelledOf PP Ord)
    | [] => None
    end.

Definition firstProvider (Headers : list Header.t) : option string :=
  head (omap provider Headers).

(** The includes matched by one of the headers. *)
Definition matchedBy (Headers : list Header.t) : list nat :=
  Headers ≫= RecordedPP.match_ Std (RecordedPP.Includes PP).

Definition remark (Loc : SourceLocation) (Sym : Symbol.t) (Provider : string)
  : Tool.Diagnostic :=
  {| Tool.At := Some Loc; Tool.DiagID := Tool.ID.Satisfied;
     Tool.Severity := Tool.levelOf Opts Tool.ID.Satisfied;
     Tool.Args := [Symbol.nodeName Sym; Symbol.name Sym; Provider] |}.

Definition missing (Loc : SourceLocation) (Sym : Symbol.t) (Headers : list Header.t)
  : Tool.Diagnostic :=
  let D := match Headers with [] => Tool.ID.NoHeader | _ => Tool.ID.Unsatisfied end in
  {| Tool.At := Some Loc; Tool.DiagID := D;
     Tool.Severity := Tool.levelOf Opts D;
     Tool.Args := [Symbol.nodeName Sym; Symbol.name Sym] |}.

Definition note (H : Header.t) : Tool.Diagnostic :=
  {| Tool.At := None; Tool.DiagID := Tool.ID.NoteHeader;
     Tool.Severity := Tool.levelOf Opts Tool.ID.NoteHeader;
     Tool.Args := [Header_name_of Std H] |}.

(** The diagnostics of one reference. *)
Definition reportOf (Loc : SourceLocation) (Sym : Symbol.t) (Headers : list Header.t)
    (Recovered : list Header.t) : list Tool.Diagnostic :=
  match firstProvider Headers with
  | Some P => [remark Loc Sym P]
  | None =>
      match find (Tool.contains Recovered) Headers with
      | Some H => [remark Loc Sym (Header_name_of Std H)]
      | None => missing Loc Sym Headers :: map note Headers
      end
  end.

(** The diagnostic of one include at the end of the file. *)
Definition includeDiag (Used : gmap nat Symbol.t) (Ord : nat)
    (Inc : RecordedPP.Include) : Tool.Diagnostic :=
  match Used !! Ord with
  | None =>
      {| Tool.At := Some (RecordedPP.Location Inc); Tool.DiagID := Tool.ID.Unused;
         Tool.Severity := Tool.levelOf Opts Tool.ID.Unused; Tool.Args := [] |}
  | Some Sym =>
      {| Tool.At := Some (RecordedPP.Location Inc); Tool.DiagID := Tool.ID.Used;
         Tool.Severity := Tool.levelOf Opts Tool.ID.Used;
         Tool.Args := [Symbol.nodeName Sym; Symbol.name Sym] |}
  end.

End WithAction.
End Provided.

(** ** Includes that no reference uses *)

Module Unused.

#[global] Instance matches_dec (Std : StdlibMapping) (H : Header.t)
    (Inc : RecordedPP.Include) : Decision (Spec.matches Std H Inc).
Proof. destruct H; simpl; apply _. Defined.

(** No header offered in one of the calls of the callback matches the
    include. *)
Definition unusedIn (Std : StdlibMapping)
    (Calls : list (SourceLocation * Symbol.t * list Header.t))
    (Inc : RecordedPP.Include) : Prop :=
  Forall (fun c => Forall (fun H => ~ Spec.matches Std H Inc) c.2) Calls.

#[global] Instance unusedIn_dec Std Calls Inc : Decision (unusedIn Std Calls Inc).
Proof. unfold unusedIn. apply _. Defined.

(** clangd: a header offered in one of the calls matches the inclusion. *)
Definition usedIn (Std : StdlibMapping) (AST : Clangd.ParsedAST)
    (Calls : list (SourceLocation * Symbol.t * list Header.t))
    (Inc : Clangd.Inclusion) : Prop :=
  exists c H, c ∈ Calls /\ H ∈ c.2 /\ Clangd.match_ Std H Inc AST = true.

(** The reference that [findReferencedMacros] makes of a spelled token. *)
Definition referenceOf (Tok : ClangdMacros.SpelledToken) : option SymbolReference :=
  match ClangdMacros.locateMacroAt Tok with
  | Some (MacroName, Loc) =>
      if isValid Loc
      then Some {| Location_ := ClangdMacros.location Tok;
                   Target := Symbol.ofMacro {| Name := MacroName; Definition_ := Loc |} |}
      else None
  | None => None
  end.

End Unused.
(** * Properties *)

(** ** Header order (Types.h) *)

Lemma Header_eqb_eq (L R : Header.t) : Header.eqb L R = true <-> L = R.
Proof.
  destruct L, R; simpl; try (split; [discriminate | congruence]); try tauto.
  - rewrite bool_decide_eq_true. split; congruence.
  - rewrite N.eqb_eq. split; congruence.
  - rewrite String.eqb_eq. split; congruence.
Qed.

(** On two physical headers [operator<] answers the question that
    [operator==] answers. *)
Lemma Header_ltb_Physical (L R : FileEntry) :
  Header.ltb (Header.Physical L) (Header.Physical R)
  = Header.eqb (Header.Physical L) (Header.Physical R).
Proof. reflexivity. Qed.

Lemma String_trichotomy (l r : string) :
  Spec.exactlyOne (String.ltb l r) (String.ltb r l) (String.eqb l r).
Proof.
  unfold Spec.exactlyOne, String.ltb.
  pose proof (String.compare_antisym l r) as HA.
  pose proof (String.compare_eq_iff r l) as HE.
  destruct (String.eqb_spec l r) as [->|Hne].
  - destruct (String.compare r r); simpl in HA; try discriminate. tauto.
  - rewrite HA. destruct (String.compare r l); simpl; try tauto.
    destruct Hne. symmetry. by apply HE.
Qed.

Lemma N_trichotomy (l r : N) :
  Spec.exactlyOne (l <? r)%N (r <? l)%N (l =? r)%N.
Proof.
  unfold Spec.exactlyOne.
  destruct (N.ltb_spec l r), (N.ltb_spec r l), (N.eqb_spec l r); lia || tauto.
Qed.

(** Apart from pairs of physical headers, exactly one of [L < R],
    [R < L] and [L == R] holds. *)
Lemma Header_trichotomy_off_Physical (L R : Header.t) :
  match L, R with
  | Header.Physical _, Header.Physical _ => True
  | _, _ => Spec.exactlyOne (Header.ltb L R) (Header.ltb R L) (Header.eqb L R)
  end.
Proof.
  destruct L, R; try done;
    try (unfold Spec.exactlyOne; simpl; tauto);
    unfold Header.ltb; simpl;
    auto using String_trichotomy, N_trichotomy.
Qed.

(** C2.  [operator<] on [Header] is not a strict total order consistent
    with [operator==]: a physical header is less than itself, and of two
    distinct physical headers neither is less than the other although
    they are not equal.  Hence trichotomy and irreflexivity both fail. *)
Theorem C2_Header_less_on_Physical :
  let A := Header.Physical Example.a_h in
  let B := Header.Physical Example.b_h in
  Header.ltb A A = true /\
  (Header.ltb A B = false /\ Header.ltb B A = false /\ Header.eqb A B = false) /\
  ~ Spec.StrictTotalOrder Header.ltb Header.eqb.
Proof.
  repeat split; try reflexivity.
  intros [_ Irr _]. specialize (Irr (Header.Physical Example.a_h)).
  discriminate Irr.
Qed.

(** ** Ranking (Analysis.cpp) *)

(** The two hints are the same bit of the mask. *)
Lemma NameMatch_is_Complete : Hints.NameMatch = Hints.Complete.
Proof. reflexivity. Qed.

(** C1.  The header list handed to the visitor for a reference to
    [class Foo], declared in a.h, b.h, c.h and b.h again, holds b.h
    twice: sorting by [Header] leaves distinct physical headers where
    they are, so that the two b.h are not adjacent when runs are folded. *)
Theorem C1_rank_keeps_duplicates :
  let Headers := Analysis.headersOfDecl Example.std Example.ctx (unhinted Example.Foo) in
  Headers = [Header.Physical Example.a_h; Header.Physical Example.b_h;
             Header.Physical Example.c_h; Header.Physical Example.b_h] /\
  ~ NoDup Headers.
Proof.
  split; [reflexivity |].
  intros HND. vm_compute in HND.
  apply NoDup_cons_1_2 in HND. apply NoDup_cons_1_1 in HND.
  apply HND. set_solver.
Qed.

(** The duplicate does not come from the insertion sort: sorting by
    merging returns the same list, since neither compares b.h with
    itself. *)
Lemma rank_keeps_duplicates_merging :
  Analysis.rankWith ADT.stable_merge_sort
    (map unhinted [Header.Physical Example.a_h; Header.Physical Example.b_h;
                   Header.Physical Example.c_h; Header.Physical Example.b_h])
  = [Header.Physical Example.a_h; Header.Physical Example.b_h;
     Header.Physical Example.c_h; Header.Physical Example.b_h].
Proof. reflexivity. Qed.

(** A header that only provides the complete definition (b.h) is ranked
    like one whose name matches, and stays ahead of the file named after
    the symbol. *)
Lemma rank_Complete_ties_NameMatch :
  Analysis.headersOfDecl Example.std Example.ctx (unhinted Example.Foo')
  = [Header.Physical Example.b_h; Header.Physical Example.Foo_file].
Proof. reflexivity. Qed.

(** *** The name-match hint *)

Lemma hasHint_or (H Bit : Hint) :
  Bit <> 0%Z -> hasHint (Z.lor H Bit) Bit = true.
Proof.
  intros HB. unfold hasHint. rewrite Z.land_lor_distr_l, Z.land_diag.
  apply negb_true_iff, Z.eqb_neq. rewrite Z.lor_eq_0_iff. tauto.
Qed.

(** [addNameMatchHint] compares the identifier with the file name as a
    whole, the path under which the file was opened.  Case folding maps
    no character to a dot or a slash but these themselves, so no
    identifier matches a name with an extension or a directory. *)
Lemma toLower_separator (c : ascii) :
  (ADT.toLower c = "."%char -> c = "."%char) /\
  (ADT.toLower c = "/"%char -> c = "/"%char).
Proof. destruct c as [[] [] [] [] [] [] [] []]; vm_compute; split; congruence. Qed.

Lemma equals_insensitive_chars (L R : string) :
  ADT.equals_insensitive L R = true ->
  forall c, c ∈ list_ascii_of_string R ->
    exists c', c' ∈ list_ascii_of_string L /\ ADT.toLower c' = ADT.toLower c.
Proof.
  revert R. induction L as [|a L IH]; intros [|b R]; simpl; try done.
  - by intros _ c ?%elem_of_nil.
  - intros [Hab HLR]%andb_true_iff c [-> |Hc]%elem_of_cons.
    + exists a. split; [by left|]. by apply Ascii.eqb_eq.
    + destruct (IH R HLR c Hc) as (c' & ? & ?). exists c'. split; [by right|done].
Qed.

Lemma NameMatch_never_for_paths (II : string) (FE : FileEntry) (h : Hint) :
  (forall c, c ∈ list_ascii_of_string II -> c <> "."%char /\ c <> "/"%char) ->
  (exists c, c ∈ list_ascii_of_string (getName FE) /\ (c = "."%char \/ c = "/"%char)) ->
  Analysis.addNameMatchHint (Some II) [mkHinted (Header.Physical FE) h]
  = [mkHinted (Header.Physical FE) h].
Proof.
  intros HII (c & Hc & Hsep). simpl. unfold Analysis.nameMatches. simpl.
  destruct (ADT.equals_insensitive II (getName FE)) eqn:E; [|done].
  destruct (equals_insensitive_chars _ _ E c Hc) as (c' & Hc' & HL).
  destruct (HII c' Hc') as [Hdot Hslash].
  destruct (toLower_separator c') as [H1 H2].
  destruct Hsep as [-> | ->]; [destruct Hdot|destruct Hslash]; auto.
Qed.

(** C3.  The code misses the claim: the stem of foo.h is foo, which
    equals the identifier foo, and yet [addNameMatchHint] leaves the
    candidate foo.h as it is, without the NameMatch hint. *)
Lemma C3_stem_match_gets_no_hint :
  let Candidate := unhinted (Header.Physical Example.foo_h) in
  ADT.equals_insensitive "foo" (Spec.stem (getName Example.foo_h)) = true /\
  Analysis.addNameMatchHint (Some "foo") [Candidate] = [Candidate] /\
  hasHint (Hint_ Candidate) Hints.NameMatch = false.
Proof. repeat split. Qed.

(** The same for a name with a directory: the stem of
    /usr/include/c++/v1/vector is vector. *)
Lemma NameMatch_example_vector :
  let FE := {| getUID := 9; getName := "/usr/include/c++/v1/vector" |} in
  ADT.equals_insensitive "vector" (Spec.stem (getName FE)) = true /\
  Analysis.addNameMatchHint (Some "vector") [unhinted (Header.Physical FE)]
  = [unhinted (Header.Physical FE)].
Proof. repeat split. Qed.

(** ** The analyzer's entry point *)

Section WalkUsedFacts.
Context (Std : StdlibMapping) (Ctx : AnalysisContext) {Decl : Type}
        (walkAST : Decl -> list (SourceLocation * Hinted NamedDecl)).
Context {St : Type}
        (Callback : SourceLocation -> Symbol.t -> list Header.t -> St -> St).

Lemma for_each_modify {A} (Range : list A) (f : A -> St -> St) (s : St) :
  Run.for_each Range (fun X => Run.modify (f X)) s
  = (fold_left (fun s X => f X s) Range s, Some tt).
Proof.
  revert s. induction Range as [|X Rest IH]; intros s; simpl; [done|].
  unfold Run.bind, Run.modify at 1. apply IH.
Qed.

Lemma for_each_ext {A} (Range : list A) (Body Body' : A -> Run.M St unit) :
  (forall X, Body X = Body' X) ->
  Run.for_each Range Body = Run.for_each Range Body'.
Proof.
  intros E. induction Range as [|X Rest IH]; simpl; [done|]. by rewrite E, IH.
Qed.

Lemma decl_loop (ASTRoots : list Decl) (s : St) :
  Run.for_each ASTRoots (fun Root =>
    Run.for_each (walkAST Root) (fun '(RefLoc, ND) =>
      Run.modify (Callback RefLoc (Symbol.ofDecl (Value ND))
                    (Analysis.headersOfDecl Std Ctx ND)))) s
  = (fold_left (Spec.invoke Callback) (Spec.declCalls Std Ctx walkAST ASTRoots) s, Some tt).
Proof.
  revert s. induction ASTRoots as [|Root Rest IH]; intros s; simpl; [done|].
  unfold Run.bind at 1.
  rewrite (for_each_ext (walkAST Root) _
             (fun R => Run.modify
                         (Callback R.1 (Symbol.ofDecl (Value R.2))
                            (Analysis.headersOfDecl Std Ctx R.2))))
    by (by intros [??]).
  rewrite for_each_modify, IH, fold_left_app. f_equal. f_equal.
  generalize (walkAST Root) s. clear.
  induction l as [|R l IH]; intros s; simpl; [done|]. apply IH.
Qed.

Lemma macro_loop (MacroRefs : list SymbolReference) (s : St) :
  Run.for_each MacroRefs (Analysis.macroBody Std Ctx Callback) s
  = (fold_left (Spec.invoke Callback) (Spec.macroCalls Std Ctx MacroRefs) s,
     if bool_decide (Forall (fun R => Symbol.kind (Target R) = Symbol.Macro) MacroRefs)
     then Some tt else None).
Proof.
  revert s. induction MacroRefs as [|R Rest IH]; intros s; simpl; [done|].
  unfold Run.bind at 1. unfold Analysis.macroBody at 1.
  destruct R as [Loc [M|ND]]; simpl.
  - unfold mbind, Run_bind, Run.bind, Run.assert_, Run.get_, Run.modify. simpl.
    rewrite IH. f_equal.
    destruct (decide (Forall (fun R => Symbol.kind (Target R) = Symbol.Macro) Rest))
      as [HF|HF].
    + rewrite (bool_decide_eq_true_2 _ HF).
      by rewrite bool_decide_eq_true_2 by (by constructor).
    + rewrite (bool_decide_eq_false_2 _ HF).
      rewrite bool_decide_eq_false_2; [done|].
      intros HF'. apply Forall_cons in HF'. tauto.
  - reflexivity.
Qed.

Lemma walkUsed_run (ASTRoots : list Decl) (MacroRefs : list SymbolReference) (s : St) :
  Analysis.walkUsed Std Ctx walkAST Callback ASTRoots MacroRefs s
  = (fold_left (Spec.invoke Callback) (Spec.declCalls Std Ctx walkAST ASTRoots ++ Spec.macroCalls Std Ctx MacroRefs) s,
     if bool_decide (Forall (fun R => Symbol.kind (Target R) = Symbol.Macro) MacroRefs)
     then Some tt else None).
Proof.
  unfold Analysis.walkUsed, mbind, Run_bind. unfold Run.bind at 1.
  rewrite decl_loop. rewrite fold_left_app. apply macro_loop.
Qed.

Lemma macroCalls_references (MacroRefs : list SymbolReference) :
  Forall (fun R => Symbol.kind (Target R) = Symbol.Macro) MacroRefs ->
  map (fun c => (c.1.1, c.1.2)) (Spec.macroCalls Std Ctx MacroRefs)
  = map (fun R => (Location_ R, Target R)) MacroRefs.
Proof.
  induction 1 as [|R Rest HR _ IH]; simpl; [done|].
  destruct (Target R) eqn:E; [|discriminate]. simpl. by rewrite IH.
Qed.

Lemma declCalls_references (ASTRoots : list Decl) :
  map (fun c => (c.1.1, c.1.2)) (Spec.declCalls Std Ctx walkAST ASTRoots)
  = flat_map (fun Root =>
                map (fun R => (R.1, Symbol.ofDecl (Value R.2))) (walkAST Root))
             ASTRoots.
Proof.
  induction ASTRoots as [|Root Rest IH]; simpl; [done|].
  rewrite map_app, IH. f_equal. rewrite map_map. done.
Qed.

End WalkUsedFacts.

(** C4.  When every macro reference targets a macro, [walkUsed] returns
    and has invoked the callback exactly once per reference: once per
    report of the AST walker over the roots in traversal order, then once
    per macro reference in the order of the list, whatever headers are
    found (none included) and whatever the callback does. *)
Theorem C4_walkUsed_once_per_reference
    (Std : StdlibMapping) (Ctx : AnalysisContext) {Decl : Type}
    (walkAST : Decl -> list (SourceLocation * Hinted NamedDecl))
    (ASTRoots : list Decl) (MacroRefs : list SymbolReference) :
  Forall (fun R => Symbol.kind (Target R) = Symbol.Macro) MacroRefs ->
  exists Calls : list (SourceLocation * Symbol.t * list Header.t),
    map (fun c => (c.1.1, c.1.2)) Calls = Spec.references walkAST ASTRoots MacroRefs /\
    forall (St : Type) (Callback : SourceLocation -> Symbol.t -> list Header.t -> St -> St)
           (s : St),
      Analysis.walkUsed Std Ctx walkAST Callback ASTRoots MacroRefs s
      = (fold_left (Spec.invoke Callback) Calls s, Some tt).
Proof.
  intros HM.
  exists (Spec.declCalls Std Ctx walkAST ASTRoots ++ Spec.macroCalls Std Ctx MacroRefs).
  split.
  - unfold Spec.references.
    by rewrite map_app, declCalls_references, macroCalls_references.
  - intros St Callback s. rewrite walkUsed_run.
    by rewrite bool_decide_eq_true_2.
Qed.

(** A macro defined in a file unknown to the source manager has no
    provider header, and the callback is invoked for it all the same. *)
Lemma walkUsed_reports_empty_ranking :
  Analysis.walkUsed Example.std Example.ctx Example.walkAST Example.logCall
    [] [{| Location_ := 107%N;
           Target := Symbol.ofMacro {| Name := "X"; Definition_ := 9901%N |} |}] []
  = ([(107%N, Symbol.ofMacro {| Name := "X"; Definition_ := 9901%N |}, [])], Some tt).
Proof. reflexivity. Qed.

Lemma C4_walkUsed_once_per_reference_witness :
  exists Calls : list (SourceLocation * Symbol.t * list Header.t),
    map (fun c => (c.1.1, c.1.2)) Calls
    = Spec.references Example.walkAST [(5%N, Example.Foo)]
        [{| Location_ := 107%N; Target := Symbol.ofMacro Example.BAR |}] /\
    forall (St : Type) (Callback : SourceLocation -> Symbol.t -> list Header.t -> St -> St)
           (s : St),
      Analysis.walkUsed Example.std Example.ctx Example.walkAST Callback
        [(5%N, Example.Foo)]
        [{| Location_ := 107%N; Target := Symbol.ofMacro Example.BAR |}] s
      = (fold_left (Spec.invoke Callback) Calls s, Some tt).
Proof.
  apply (C4_walkUsed_once_per_reference Example.std Example.ctx Example.walkAST).
  repeat constructor.
Defined.

(** C9.  The macro member of a symbol can be read exactly when the symbol
    is a macro, and [walkUsed] runs to its end exactly when every macro
    reference targets a macro: a reference to a declaration among them
    fails the assertion. *)
Theorem C9_walkUsed_asserts_macro_targets
    (Std : StdlibMapping) (Ctx : AnalysisContext) {Decl : Type}
    (walkAST : Decl -> list (SourceLocation * Hinted NamedDecl))
    {St : Type} (Callback : SourceLocation -> Symbol.t -> list Header.t -> St -> St)
    (ASTRoots : list Decl) (MacroRefs : list SymbolReference) (s : St) :
  (forall Sym, is_Some (Symbol.getMacro Sym) <-> Symbol.kind Sym = Symbol.Macro) /\
  (Run.returned (Analysis.walkUsed Std Ctx walkAST Callback ASTRoots MacroRefs s)
   <-> Forall (fun R => Symbol.kind (Target R) = Symbol.Macro) MacroRefs).
Proof.
  split.
  - intros [M|ND]; simpl; split; try done; by intros [? ?].
  - rewrite walkUsed_run. unfold Run.returned. simpl.
    case_bool_decide; split; try done; by intros [? ?].
Qed.

(** With a reference to a declaration among the macro references, the
    run stops at it: the callback has been invoked for what precedes. *)
Lemma walkUsed_stops_at_declaration :
  Analysis.walkUsed Example.std Example.ctx Example.walkAST Example.logCall []
    [{| Location_ := 107%N; Target := Symbol.ofMacro Example.BAR |};
     {| Location_ := 108%N; Target := Symbol.ofDecl Example.Foo |};
     {| Location_ := 109%N; Target := Symbol.ofMacro Example.BAR |}] []
  = ([(107%N, Symbol.ofMacro Example.BAR, [Header.Physical Example.b_h])], None).
Proof. reflexivity. Qed.

(** ** The recorded includes (Hooks.cpp) *)

Section Ordinals.
Context {A : Type} (P : A -> Prop) `{forall x, Decision (P x)}.

Lemma ordinals_snoc (Vec : list A) (x : A) :
  Spec.ordinals P (Vec ++ [x])
  = Spec.ordinals P Vec ++ (if decide (P x) then [length Vec] else []).
Proof.
  unfold Spec.ordinals, ADT.enumerate.
  rewrite imap_app, filter_app, fmap_app. f_equal. simpl.
  rewrite Nat.add_0_r, filter_cons. simpl. by destruct (decide (P x)).
Qed.

Lemma elem_of_ordinals (Vec : list A) (i : nat) :
  i ∈ Spec.ordinals P Vec <-> exists x, Vec !! i = Some x /\ P x.
Proof.
  unfold Spec.ordinals, ADT.enumerate. rewrite list_elem_of_fmap. split.
  - intros ([j x] & -> & Hx). apply list_elem_of_filter in Hx as [HP Hx].
    apply elem_of_lookup_imap in Hx as (k & y & [= -> ->] & Hk). eauto.
  - intros (x & Hi & HP). exists (i, x). split; [done|].
    apply list_elem_of_filter. split; [done|].
    apply elem_of_lookup_imap. eauto.
Qed.

Lemma ordinals_sorted (Vec : list A) : StronglySorted lt (Spec.ordinals P Vec).
Proof.
  induction Vec as [|x Vec IH] using rev_ind; [constructor|].
  rewrite ordinals_snoc. apply StronglySorted_app_2; [|done|].
  - intros i j Hi Hj. apply elem_of_ordinals in Hi as (y & Hi & _).
    apply lookup_lt_Some in Hi.
    destruct (decide (P x)); [|by apply elem_of_nil in Hj].
    apply list_elem_of_singleton in Hj. by subst.
  - destruct (decide (P x)); repeat constructor.
Qed.
End Ordinals.

Lemma sorted_NoDup (l : list nat) : StronglySorted lt l -> NoDup l.
Proof.
  induction 1 as [|x l _ IH Hx]; constructor; [|done].
  intros Hin. rewrite Forall_forall in Hx. specialize (Hx _ Hin). lia.
Qed.

(** Sorting and uniquing a strictly ascending vector changes nothing. *)
Lemma insert_sorted (Sorted Range : list nat) :
  StronglySorted lt (rev Sorted ++ Range) ->
  fold_left (fun Sorted Val => ADT.linear_insert Nat.ltb Val Sorted) Range Sorted
  = rev Range ++ Sorted.
Proof.
  revert Sorted. induction Range as [|x Range IH]; intros Sorted HS; simpl; [done|].
  assert (ADT.linear_insert Nat.ltb x Sorted = x :: Sorted) as ->.
  { destruct Sorted as [|p r]; simpl; [done|].
    assert (p < x) as Hp.
    { eapply StronglySorted_app_1_elem_of; [exact HS| |set_solver].
      simpl. set_solver. }
    apply Nat.ltb_ge in Hp as Hp'. 
    destruct (Nat.ltb_spec x p); [lia|done]. }
  rewrite IH.
  - by rewrite <- app_assoc.
  - simpl. by rewrite <- app_assoc.
Qed.

Lemma sort_sorted (Range : list nat) :
  StronglySorted lt Range -> ADT.sort Nat.ltb Range = Range.
Proof.
  intros HS. unfold ADT.sort, ADT.stable_sort.
  rewrite insert_sorted by done. by rewrite app_nil_r, rev_involutive.
Qed.

Lemma unique_sorted (Range : list nat) :
  StronglySorted lt Range -> ADT.unique Nat.eqb Range = Range.
Proof.
  destruct Range as [|W Read]; [done|]. simpl.
  revert W. induction Read as [|R Read IH]; intros W HS; simpl; [done|].
  apply StronglySorted_cons in HS as [HW HS].
  apply Forall_cons in HW as [HWR _].
  destruct (Nat.eqb_spec W R); [lia|]. by rewrite IH.
Qed.

Section RecorderFacts.
Context (Ctx : AnalysisContext).
Import RecordedPP PPRecorder.

Lemma lookup_push_back_at `{Countable K} (Key Key' : K) (Index : nat)
    (Map : gmap K (list nat)) :
  lookup (push_back_at Key Index Map) Key'
  = lookup Map Key' ++ (if decide (Key = Key') then [Index] else []).
Proof.
  unfold lookup, push_back_at. destruct (decide (Key = Key')) as [->|Hne].
  - by rewrite lookup_insert_eq.
  - rewrite lookup_insert_ne by done. by rewrite app_nil_r.
Qed.

Lemma indexed_empty : Spec.indexed (Includes RecordedPP.empty).
Proof. split; intros; reflexivity. Qed.

Lemma indexed_recordInclude (Hash : SourceLocation) (Spelling : string)
    (File : option FileEntry) (R : RecordedIncludes) :
  Spec.indexed R -> Spec.indexed (recordInclude Ctx Hash Spelling File R).
Proof.
  intros [HS HF]. split; intros Key; simpl;
    rewrite lookup_push_back_at, ordinals_snoc; simpl.
  - by rewrite HS.
  - by rewrite HF.
Qed.

Lemma Includes_recordMacroRef (Tok : Token) (MI : MacroInfo) (R : RecordedPP.t) :
  Includes (recordMacroRef Tok MI R) = Includes R.
Proof. unfold recordMacroRef. by repeat case_match. Qed.

Lemma indexed_step (PS : State) (E : Event) :
  Spec.indexed (Includes (Recorded PS)) ->
  Spec.indexed (Includes (Recorded (step Ctx PS E))).
Proof.
  intros HI. destruct E; simpl; [done| | |]; destruct (Active PS); simpl; try done.
  - by apply indexed_recordInclude.
  - by rewrite Includes_recordMacroRef.
  - revert HI. generalize (Recorded PS). induction Tokens as [|Tok Tokens IH];
      intros R HI; simpl; [done|].
    apply IH. repeat case_match; try done; by rewrite Includes_recordMacroRef.
Qed.

Lemma indexed_record (Events : list Event) :
  Spec.indexed (Includes (Recorded (record Ctx Events))).
Proof.
  unfold record. generalize indexed_empty. change RecordedPP.empty with (Recorded initial).
  generalize initial. induction Events as [|E Events IH]; intros PS HI; simpl; [done|].
  by apply IH, indexed_step.
Qed.

Lemma match_indexed (Std : StdlibMapping) (R : RecordedIncludes) (H : Header.t) :
  Spec.indexed R ->
  StronglySorted lt (match_ Std R H) /\
  forall i, i ∈ match_ Std R H <-> exists Inc, All R !! i = Some Inc /\ Spec.matches Std H Inc.
Proof.
  intros [HS HF]. unfold match_.
  destruct H as [FE|StdlibHdr|V| |]; simpl;
    rewrite ?HF, ?HS, ?sort_sorted, ?unique_sorted
      by (rewrite ?sort_sorted; auto using ordinals_sorted);
    (split; [apply ordinals_sorted || constructor|]); intros i;
    rewrite ?elem_of_ordinals; try done;
    split; try (by intros []%elem_of_nil); by intros (? & _ & []).
Qed.

End RecorderFacts.

(** C5.  On the includes recorded by any run of the preprocessor,
    [match] returns exactly the includes that satisfy the predicate of
    the header's variant (none for Builtin and MainFile), in ascending
    order of address and without duplicates. *)
Theorem C5_match_exact_sorted_unique
    (Std : StdlibMapping) (Ctx : AnalysisContext)
    (Events : list PPRecorder.Event) (H : Header.t) :
  let R := RecordedPP.Includes (PPRecorder.Recorded (PPRecorder.record Ctx Events)) in
  (forall i, i ∈ RecordedPP.match_ Std R H
             <-> exists Inc, RecordedPP.All R !! i = Some Inc /\ Spec.matches Std H Inc) /\
  StronglySorted lt (RecordedPP.match_ Std R H) /\
  NoDup (RecordedPP.match_ Std R H) /\
  match H with
  | Header.Builtin | Header.MainFile => RecordedPP.match_ Std R H = []
  | _ => True
  end.
Proof.
  intros R.
  destruct (match_indexed Std R H (indexed_record Ctx Events)) as [HS HM].
  split; [done|]. split; [done|]. split; [by apply sorted_NoDup|].
  by destruct H.
Qed.

(** On the example main file, a.h is matched by its two directives. *)
Lemma match_example :
  let R := RecordedPP.Includes
             (PPRecorder.Recorded (PPRecorder.record Example.ctx Example.events)) in
  RecordedPP.match_ Example.std R (Header.Physical Example.a_h) = [0; 2]%nat /\
  RecordedPP.match_ Example.std R (Header.StandardLibrary 0%N) = [1]%nat /\
  RecordedPP.match_ Example.std R Header.MainFile = [].
Proof. by vm_compute. Qed.

(** The callbacks other than [FileChanged] leave [Active] as it is, so
    the recorder is active exactly when the last file change went to a
    location written in the main file. *)
Lemma Active_step (Ctx : AnalysisContext) (PS : PPRecorder.State)
    (E : PPRecorder.Event) :
  Laws.isFileChanged E = false ->
  PPRecorder.Active (PPRecorder.step Ctx PS E) = PPRecorder.Active PS.
Proof.
  destruct E; simpl; [done| | |]; intros _;
    by destruct (PPRecorder.Active PS) eqn:HA.
Qed.

Lemma Active_after_FileChanged (Ctx : AnalysisContext)
    (Events Mid : list PPRecorder.Event) (Loc : SourceLocation) :
  Forall (fun E => Laws.isFileChanged E = false) Mid ->
  PPRecorder.Active (PPRecorder.record Ctx (Events ++ PPRecorder.FileChanged Loc :: Mid))
  = isWrittenInMainFile Ctx Loc.
Proof.
  intros HM. unfold PPRecorder.record. rewrite fold_left_app. simpl.
  assert (forall PS, PPRecorder.Active (fold_left (PPRecorder.step Ctx) Mid PS)
                     = PPRecorder.Active PS) as HK.
  { induction HM as [|E Mid HE _ IH]; intros PS; simpl; [done|].
    by rewrite IH, Active_step. }
  by rewrite HK.
Qed.

(** C6.  After any run of the preprocessor both indices agree with the
    vector of includes: every ordinal filed under a spelling, or under a
    file, is that of an include with this spelling, or resolved to this
    file.  And once the preprocessor has changed to a location written in
    the main file, two inclusion directives of one spelling read there
    (after any callbacks other than a file change) add two entries, with
    the hashes and files of the directives, and the two ordinals [n] and
    [n + 1] under the spelling; after a change to a location that is not
    written in the main file they add nothing. *)
Theorem C6_indices_consistent
    (Ctx : AnalysisContext) (Events Mid : list PPRecorder.Event) (Loc : SourceLocation)
    (Hash1 Hash2 : SourceLocation) (Spelling : string) (Angled1 Angled2 : bool)
    (File1 File2 : option FileEntry) :
  Forall (fun E => Laws.isFileChanged E = false) Mid ->
  let Before := Events ++ PPRecorder.FileChanged Loc :: Mid in
  let R := RecordedPP.Includes (PPRecorder.Recorded (PPRecorder.record Ctx Before)) in
  let R2 := RecordedPP.Includes (PPRecorder.Recorded (PPRecorder.record Ctx
              (Before ++ [PPRecorder.InclusionDirective Hash1 Spelling Angled1 File1;
                          PPRecorder.InclusionDirective Hash2 Spelling Angled2 File2]))) in
  let n := length (RecordedPP.All R) in
  (forall Any s i,
     let R0 := RecordedPP.Includes (PPRecorder.Recorded (PPRecorder.record Ctx Any)) in
     i ∈ RecordedPP.lookup (RecordedPP.BySpelling R0) s ->
     exists Inc, RecordedPP.All R0 !! i = Some Inc /\ RecordedPP.Spelled Inc = s) /\
  (forall Any F i,
     let R0 := RecordedPP.Includes (PPRecorder.Recorded (PPRecorder.record Ctx Any)) in
     i ∈ RecordedPP.lookup (RecordedPP.ByFile R0) F ->
     exists Inc, RecordedPP.All R0 !! i = Some Inc /\ RecordedPP.Resolved Inc = F) /\
  (isWrittenInMainFile Ctx Loc = true ->
   exists Inc1 Inc2,
     RecordedPP.All R2 = RecordedPP.All R ++ [Inc1; Inc2] /\
     RecordedPP.Spelled Inc1 = Spelling /\ RecordedPP.Spelled Inc2 = Spelling /\
     RecordedPP.Location Inc1 = Hash1 /\ RecordedPP.Location Inc2 = Hash2 /\
     RecordedPP.Resolved Inc1 = File1 /\ RecordedPP.Resolved Inc2 = File2 /\
     RecordedPP.lookup (RecordedPP.BySpelling R2) Spelling
     = RecordedPP.lookup (RecordedPP.BySpelling R) Spelling ++ [n; S n] /\
     n <> S n) /\
  (isWrittenInMainFile Ctx Loc = false -> R2 = R).
Proof.
  intros HMid Before R R2 n.
  pose proof (Active_after_FileChanged Ctx Events Mid Loc HMid) as HA. fold Before in HA.
  split; [|split; [|split]].
  - intros Any s i R0 Hi. destruct (indexed_record Ctx Any) as [HS _]. fold R0 in HS.
    rewrite HS in Hi. by apply elem_of_ordinals in Hi.
  - intros Any F i R0 Hi. destruct (indexed_record Ctx Any) as [_ HF]. fold R0 in HF.
    rewrite HF in Hi. by apply elem_of_ordinals in Hi.
  - intros HW. rewrite HW in HA. subst R2. unfold PPRecorder.record.
    rewrite fold_left_app. fold (PPRecorder.record Ctx Before). simpl.
    rewrite HA. simpl.
    eexists _, _. split; [by rewrite <- app_assoc|].
    do 6 (split; [done|]). split; [|lia].
    rewrite !lookup_push_back_at, !decide_True by done.
    rewrite length_app. simpl. fold R. fold n.
    rewrite <- app_assoc. simpl. do 3 f_equal. lia.
  - intros HW. rewrite HW in HA. subst R2. unfold PPRecorder.record.
    rewrite fold_left_app. fold (PPRecorder.record Ctx Before). simpl.
    rewrite HA. simpl. by rewrite HA.
Qed.

Lemma C6_indices_consistent_witness :
  let Before := [PPRecorder.FileChanged 100%N;
                 PPRecorder.InclusionDirective 101%N "vector" true None;
                 PPRecorder.MacroExpands
                   {| PPRecorder.getTokLocation := 102%N;
                      PPRecorder.getIdentifierInfo := Some "BAR";
                      PPRecorder.hadMacroDefinition := true;
                      PPRecorder.getMacroInfo := None |}
                   {| PPRecorder.isBuiltinMacro := false;
                      PPRecorder.getDefinitionLoc := 302%N |}] in
  let R := RecordedPP.Includes
             (PPRecorder.Recorded (PPRecorder.record Example.ctx Before)) in
  let R2 := RecordedPP.Includes (PPRecorder.Recorded (PPRecorder.record Example.ctx
              (Before ++
               [PPRecorder.InclusionDirective 103%N "a.h" false (Some Example.a_h);
                PPRecorder.InclusionDirective 104%N "a.h" false (Some Example.a_h)]))) in
  exists Inc1 Inc2,
    RecordedPP.All R2 = RecordedPP.All R ++ [Inc1; Inc2] /\
    RecordedPP.Spelled Inc1 = "a.h" /\ RecordedPP.Spelled Inc2 = "a.h" /\
    RecordedPP.Location Inc1 = 103%N /\ RecordedPP.Location Inc2 = 104%N /\
    RecordedPP.Resolved Inc1 = Some Example.a_h /\
    RecordedPP.Resolved Inc2 = Some Example.a_h /\
    RecordedPP.lookup (RecordedPP.BySpelling R2) "a.h"
    = RecordedPP.lookup (RecordedPP.BySpelling R) "a.h" ++ [1; 2]%nat /\
    1%nat <> 2%nat.
Proof.
  intros Before R R2.
  destruct (C6_indices_consistent Example.ctx [] (tail Before) 100%N 103%N 104%N
              "a.h" false false (Some Example.a_h) (Some Example.a_h))
    as (_ & _ & HR & _).
  - repeat constructor.
  - apply HR. reflexivity.
Defined.

(** The two directives for a.h of the example main file are entries 0
    and 2, and the directive read inside a.h is not recorded. *)
Lemma record_example :
  let R := RecordedPP.Includes
             (PPRecorder.Recorded (PPRecorder.record Example.ctx Example.events)) in
  map RecordedPP.Spelled (RecordedPP.All R) = ["a.h"; "vector"; "a.h"] /\
  RecordedPP.lookup (RecordedPP.BySpelling R) "a.h" = [0; 2]%nat /\
  RecordedPP.lookup (RecordedPP.ByFile R) (Some Example.a_h) = [0; 2]%nat /\
  RecordedPP.lookup (RecordedPP.ByFile R) None = [1]%nat.
Proof. by vm_compute. Qed.

(** ** The standalone tool (ClangIncludeCleaner.cpp) *)

(** Nothing that [diagnoseReference] does depends on the flag [-recover]. *)
Lemma Recover_is_never_read (Opts : Tool.Options) (Flag : bool)
    (Std : StdlibMapping) (PP : RecordedPP.t) (Loc : SourceLocation)
    (Sym : Symbol.t) (Headers : list Header.t) (S0 : Tool.State) :
  Tool.diagnoseReference Opts Std PP Loc Sym Headers S0
  = Tool.diagnoseReference
      {| Tool.ShowSatisfied := Tool.ShowSatisfied Opts; Tool.Recover := Flag |}
      Std PP Loc Sym Headers S0.
Proof. destruct Opts. reflexivity. Qed.

Section ToolFacts.
Context (Opts : Tool.Options) (Std : StdlibMapping) (PP : RecordedPP.t).

Lemma onlySatisfied_refl (Diags : list Tool.Diagnostic) :
  Spec.onlySatisfied Diags Diags.
Proof. exists []. by rewrite app_nil_r. Qed.

Lemma onlySatisfied_Report (Old Diags : list Tool.Diagnostic)
    (Loc : option SourceLocation) (Args : list string) :
  Spec.onlySatisfied Old Diags ->
  Spec.onlySatisfied Old (Tool.Report Opts Loc Tool.ID.Satisfied Args Diags).
Proof.
  intros (Added & -> & HA). unfold Tool.Report. eexists. rewrite <- app_assoc.
  split; [done|]. apply Forall_app. split; [done|]. by repeat constructor.
Qed.

Lemma fold_left_inv {A B} (f : A -> B -> A) (Inv : A -> Prop) (l : list B) (a : A) :
  (forall a x, Inv a -> Inv (f a x)) -> Inv a -> Inv (fold_left f l a).
Proof. intros Hf. revert a. induction l; simpl; auto. Qed.

Lemma markUsed_onlySatisfied (Loc : SourceLocation) (Sym : Symbol.t)
    (Headers : list Header.t) (Used0 : gmap nat Symbol.t)
    (Diags0 : list Tool.Diagnostic) :
  Spec.onlySatisfied Diags0 (Tool.markUsed Opts Std PP Loc Sym Headers Used0 Diags0).2.
Proof.
  unfold Tool.markUsed.
  apply (fold_left_inv _ (fun st => Spec.onlySatisfied Diags0 st.2));
    [|apply onlySatisfied_refl].
  intros [[Diagnosed Used] Diags] H HI. simpl in HI.
  destruct (Tool.isBuiltinOrMainFile H && negb Diagnosed);
    apply (fold_left_inv _ (fun st => Spec.onlySatisfied Diags0 st.2));
    try (intros [[Diagnosed' Used'] Diags'] I HI'; simpl in *;
         destruct Diagnosed'; simpl; [done|]; by apply onlySatisfied_Report).
  - by apply onlySatisfied_Report.
  - done.
Qed.

(** A reference with a header that was already reported as missing gets
    remarks only, whatever the flags. *)
Lemma diagnoseReference_recovered (Loc : SourceLocation) (Sym : Symbol.t)
    (Headers : list Header.t) (S0 : Tool.State) (H : Header.t) :
  H ∈ Headers ->
  Tool.contains (Tool.Recovered S0) H = true ->
  Spec.onlySatisfied (Tool.Reported S0)
    (Tool.Reported (Tool.diagnoseReference Opts Std PP Loc Sym Headers S0)).
Proof.
  intros HH HR. unfold Tool.diagnoseReference.
  pose proof (markUsed_onlySatisfied Loc Sym Headers (Tool.UsedBy S0) (Tool.Reported S0))
    as HM.
  destruct (Tool.markUsed _ _ _ _ _ _ _ _) as [[Diagnosed Used] Diags]. simpl in HM.
  destruct Diagnosed; simpl; [done|].
  destruct (find _ Headers) as [H'|] eqn:HF; simpl.
  - by apply onlySatisfied_Report.
  - apply list_elem_of_In in HH. eapply find_none in HF; [|exact HH]. congruence.
Qed.

End ToolFacts.

(** C8.  Run with [-recover] disabled on a main file that uses a macro
    of the missing header b.h on lines 7 and 8, the tool reports the error
    once: the second reference gets the (ignored) "provided by" remark and
    no error, exactly as with [-recover] enabled. *)
Theorem C8_no_recover_still_suppresses :
  let Run_ Opts :=
    Tool.EndSourceFile Opts Example.std Example.twoUses Example.ctx
      Example.walkAST [] [] in
  map (fun D => (Tool.At D, Tool.DiagID D, Tool.Severity D)) (Run_ Example.noRecover).1
  = [(Some 107%N, Tool.ID.Unsatisfied, Tool.Error);
     (None, Tool.ID.NoteHeader, Tool.Note);
     (Some 108%N, Tool.ID.Satisfied, Tool.Ignored)] /\
  Tool.Recover Example.noRecover = false /\
  Run_ Example.noRecover = Run_ Tool.initOptions.
Proof. by vm_compute. Qed.

(** ** clangd's unused-include check (IncludeCleaner.cpp) *)

Section ClangdFacts.
Context (AnalyzeStdlib : bool) (Std : StdlibMapping).
Import Clangd.

Lemma foldl_failed {A B} (f : option B -> A -> option B) (l : list A) :
  (forall x, f None x = None) -> foldl f None l = None.
Proof. intros Hf. induction l as [|x l IH]; simpl; [done|]. by rewrite Hf. Qed.

Lemma foldl_option_inv {A B} (f : option B -> A -> option B) (Inv : B -> Prop)
    (l : list A) :
  (forall x, f None x = None) ->
  (forall x b b', x ∈ l -> Inv b -> f (Some b) x = Some b' -> Inv b') ->
  forall b r, Inv b -> foldl f (Some b) l = Some r -> Inv r.
Proof.
  intros Hf. induction l as [|x l IH]; intros Hstep b r Hb; simpl.
  - by intros [= <-].
  - destruct (f (Some b) x) as [b'|] eqn:E.
    + apply IH; [|by eapply Hstep; [left| |]].
      intros ? ? ? ?. apply Hstep. by right.
    + by rewrite foldl_failed.
Qed.

Lemma foldl_option_returns {A B} (f : option B -> A -> option B) (l : list A) :
  (forall x b, x ∈ l -> is_Some (f (Some b) x)) ->
  forall b, is_Some (foldl f (Some b) l).
Proof.
  induction l as [|x l IH]; intros Hstep b; simpl; [done|].
  destruct (Hstep x b) as [b' ->]; [by left|].
  apply IH. intros ? ? ?. apply Hstep. by right.
Qed.

Lemma elem_of_enumerate {A} (Vec : list A) (i : nat) (x : A) :
  (i, x) ∈ ADT.enumerate Vec <-> Vec !! i = Some x.
Proof.
  unfold ADT.enumerate. rewrite elem_of_lookup_imap. split.
  - by intros (? & ? & [= -> ->] & ?).
  - eauto.
Qed.

(** What [mayConsiderUnused] has checked when it answers yes. *)
Lemma mayConsiderUnused_eligible (Inc : Inclusion) (AST : ParsedAST) :
  mayConsiderUnused AnalyzeStdlib Std Inc AST = Some true ->
  Spec.eligible AnalyzeStdlib Std AST Inc.
Proof.
  unfold mayConsiderUnused, Spec.eligible, Spec.angled.
  destruct (BehindPragmaKeep Inc); [done|].
  destruct (front (Written Inc)) as [c|]; [|done]. simpl.
  destruct (Ascii.eqb_spec c "<") as [->|Hc].
  - destruct AnalyzeStdlib; simpl; [|done].
    case_bool_decide; [|done]. intros _. split; [done|]. split; [done|].
    by intros [].
  - destruct (HeaderID Inc) as [ID|]; [|done]. simpl.
    destruct (getFile AST ID) as [FE|] eqn:HFE; [|done]. simpl.
    destruct (isFileMultipleIncludeGuarded AST FE) eqn:HG; [|done].
    intros _. split; [done|]. split; [by intros [= ->]|].
    intros _. by exists ID, FE.
Qed.

Lemma collectUnused_sound (AST : ParsedAST) (Used : gset nat) (Unused : list nat) :
  collectUnused AnalyzeStdlib Std AST Used = Some Unused ->
  forall i, i ∈ Unused ->
    exists Inc, MainFileIncludes AST !! i = Some Inc /\ (i ∉ Used) /\
                mayConsiderUnused AnalyzeStdlib Std Inc AST = Some true.
Proof.
  unfold collectUnused.
  apply (foldl_option_inv _
           (fun Unused => forall i, i ∈ Unused ->
              exists Inc, MainFileIncludes AST !! i = Some Inc /\ (i ∉ Used) /\
                          mayConsiderUnused AnalyzeStdlib Std Inc AST = Some true)).
  - by intros [].
  - intros [Ord Inc] b b' Hin Hb. apply elem_of_enumerate in Hin. simpl.
    case_bool_decide as HU; [by intros [= <-]|].
    destruct (mayConsiderUnused AnalyzeStdlib Std Inc AST) as [[]|] eqn:HM;
      simpl; intros [= <-]; [|done].
    intros i [Hi| ->%list_elem_of_singleton]%elem_of_app; eauto.
  - by intros i ?%elem_of_nil.
Qed.

Lemma getUnused_sound (AST : ParsedAST) (Refs : gset nat) (Unused : list nat) :
  getUnused AnalyzeStdlib Std AST Refs = Some Unused ->
  forall i, i ∈ Unused ->
    exists Inc ID, MainFileIncludes AST !! i = Some Inc /\
                   HeaderID Inc = Some ID /\ (ID ∉ Refs) /\
                   mayConsiderUnused AnalyzeStdlib Std Inc AST = Some true.
Proof.
  unfold getUnused.
  apply (foldl_option_inv _
           (fun Unused => forall i, i ∈ Unused ->
              exists Inc ID, MainFileIncludes AST !! i = Some Inc /\
                             HeaderID Inc = Some ID /\ (ID ∉ Refs) /\
                             mayConsiderUnused AnalyzeStdlib Std Inc AST = Some true)).
  - by intros [].
  - intros [Ord Inc] b b' Hin Hb. apply elem_of_enumerate in Hin. simpl.
    destruct (HeaderID Inc) as [ID|] eqn:HID; [|by intros [= <-]].
    case_bool_decide as HU; simpl; [by intros [= <-]|].
    destruct (mayConsiderUnused AnalyzeStdlib Std Inc AST) as [[]|] eqn:HM;
      simpl; intros [= <-]; [|done].
    intros i [Hi| ->%list_elem_of_singleton]%elem_of_app; eauto 10.
  - by intros i ?%elem_of_nil.
Qed.

(** [getUnused] runs to its end when the includes are written with their
    delimiters and the file manager knows the resolved headers. *)
Lemma getUnused_returns (AST : ParsedAST) (Refs : gset nat) :
  (forall Inc, Inc ∈ MainFileIncludes AST ->
     Written Inc <> "" /\
     forall ID, HeaderID Inc = Some ID -> is_Some (getFile AST ID)) ->
  is_Some (getUnused AnalyzeStdlib Std AST Refs).
Proof.
  intros Hwf. unfold getUnused. apply foldl_option_returns.
  intros [Ord Inc] b Hin. apply elem_of_enumerate in Hin. simpl.
  destruct (Hwf Inc) as [HW HF]; [by eapply list_elem_of_lookup_2|].
  destruct (HeaderID Inc) as [ID|] eqn:HID; [|done].
  case_bool_decide; simpl; [done|].
  unfold mayConsiderUnused. rewrite HID.
  destruct (BehindPragmaKeep Inc); simpl; [done|].
  destruct (Written Inc) as [|c ?]; [done|]. simpl.
  destruct (Ascii.eqb c "<").
  - by destruct (AnalyzeStdlib && _).
  - destruct (HF ID eq_refl) as [FE ->]. simpl.
    by destruct (isFileMultipleIncludeGuarded AST FE).
Qed.

End ClangdFacts.

(** C7 (as stated) fails: with standard-library analysis on, the unused
    [#include <cassert>] is reported although it resolves to a file
    without include guard. *)
Lemma C7_unguarded_standard_header_reported :
  let Inc := {| Clangd.Written := "<cassert>"; Clangd.HeaderID := Some 7%nat;
                Clangd.BehindPragmaKeep := false; Clangd.HashLine := 0%nat |} in
  Clangd.computeUnusedIncludes true Example.std Example.ctx Example.walkAST
    Example.ast [] [] = Some [0; 1]%nat /\
  Clangd.MainFileIncludes Example.ast !! 0%nat = Some Inc /\
  Clangd.mayConsiderUnused true Example.std Inc Example.ast = Some true /\
  Clangd.getFile Example.ast 7%nat = Some Example.cassert_file /\
  Clangd.isFileMultipleIncludeGuarded Example.ast Example.cassert_file = false.
Proof. by vm_compute. Qed.

(** C7 (amended).  An include that [computeUnusedIncludes] reports was
    marked used by no reference and is eligible: it carries no keep
    annotation; if written in angle brackets, standard-library analysis is
    on and its spelling is a recognized standard header; if not written in
    angle brackets, it resolves to a file with an include guard. *)
Theorem C7_reported_unused_is_eligible
    (AnalyzeStdlib : bool) (Std : StdlibMapping) (Ctx : AnalysisContext)
    {Decl : Type} (walkAST : Decl -> list (SourceLocation * Hinted NamedDecl))
    (AST : Clangd.ParsedAST) (LocalTopLevelDecls : list Decl)
    (ReferencedMacros : list SymbolReference) (Unused : list nat) (i : nat) :
  Clangd.computeUnusedIncludes AnalyzeStdlib Std Ctx walkAST AST
    LocalTopLevelDecls ReferencedMacros = Some Unused ->
  i ∈ Unused ->
  exists Inc,
    Clangd.MainFileIncludes AST !! i = Some Inc /\
    (i ∉ (Analysis.walkUsed Std Ctx walkAST (Clangd.markUsed Std AST)
            LocalTopLevelDecls ReferencedMacros ∅).1) /\
    Spec.eligible AnalyzeStdlib Std AST Inc.
Proof.
  unfold Clangd.computeUnusedIncludes.
  destruct (Analysis.walkUsed _ _ _ _ _ _ _) as [Used [[]|]]; [|done].
  intros HU Hi.
  destruct (collectUnused_sound _ _ _ _ _ HU i Hi) as (Inc & ? & ? & HM).
  exists Inc. eauto using mayConsiderUnused_eligible.
Qed.

Lemma C7_reported_unused_is_eligible_witness :
  exists Inc,
    Clangd.MainFileIncludes Example.ast !! 1%nat = Some Inc /\
    (1%nat ∉ (Analysis.walkUsed Example.std Example.ctx Example.walkAST
                (Clangd.markUsed Example.std Example.ast) [] [] ∅).1) /\
    Spec.eligible false Example.std Example.ast Inc.
Proof.
  apply (C7_reported_unused_is_eligible false Example.std Example.ctx
           Example.walkAST Example.ast [] [] [1%nat] 1%nat).
  - reflexivity.
  - apply list_elem_of_singleton. reflexivity.
Defined.

(** C10.  [getUnused] reports only includes with a resolved header that
    is not among the referenced files, so an include without [HeaderID]
    is never in its result; and it runs to its end when the includes are
    written with their delimiters and the resolved headers have files. *)
Theorem C10_getUnused_skips_unresolved
    (AnalyzeStdlib : bool) (Std : StdlibMapping)
    (AST : Clangd.ParsedAST) (ReferencedFiles : gset nat) :
  (forall Unused i,
     Clangd.getUnused AnalyzeStdlib Std AST ReferencedFiles = Some Unused ->
     i ∈ Unused ->
     exists Inc ID, Clangd.MainFileIncludes AST !! i = Some Inc /\
                    Clangd.HeaderID Inc = Some ID /\ ID ∉ ReferencedFiles) /\
  ((forall Inc, Inc ∈ Clangd.MainFileIncludes AST ->
      Clangd.Written Inc <> "" /\
      forall ID, Clangd.HeaderID Inc = Some ID -> is_Some (Clangd.getFile AST ID)) ->
   is_Some (Clangd.getUnused AnalyzeStdlib Std AST ReferencedFiles)).
Proof.
  split.
  - intros Unused i HU Hi.
    destruct (getUnused_sound _ _ _ _ _ HU i Hi) as (Inc & ID & ? & ? & ? & _).
    by exists Inc, ID.
  - apply getUnused_returns.
Qed.

(** On the example with the unresolved [missing.h], the result holds the
    two resolved includes only. *)
Lemma getUnused_example :
  Clangd.getUnused true Example.std Example.ast_unresolved ∅ = Some [0; 1]%nat /\
  Clangd.HeaderID <$> Clangd.MainFileIncludes Example.ast_unresolved !! 2%nat
  = Some None.
Proof. by vm_compute. Qed.

(** * Further properties of the code *)

(** ** The arena of macro symbols (AnalysisInternal.h) *)

Section CacheFacts.
Import Cache.

Lemma search_bounds (Def : SourceLocation) (DMS : list DefinedMacro) (Pos i : nat) :
  search Def DMS Pos = Some i ->
  exists DM, DMS !! (i - Pos)%nat = Some DM /\ Definition_ DM = Def /\ (Pos <= i)%nat.
Proof.
  revert Pos. induction DMS as [|DM Rest IH]; intros Pos; simpl; [done|].
  destruct (N.eqb_spec (Definition_ DM) Def) as [HD|HD].
  - intros [= <-]. exists DM. by rewrite Nat.sub_diag.
  - intros (DM' & Hl & ? & ?)%IH. exists DM'.
    replace (i - Pos)%nat with (S (i - S Pos)) by lia. split; [done|]. split; [done|lia].
Qed.

Lemma search_None (Def : SourceLocation) (DMS : list DefinedMacro) (Pos : nat) :
  search Def DMS Pos = None <-> Def ∉ Definition_ <$> DMS.
Proof.
  revert Pos. induction DMS as [|DM Rest IH]; intros Pos; simpl.
  - split; [intros _; apply not_elem_of_nil|done].
  - rewrite not_elem_of_cons. destruct (N.eqb_spec (Definition_ DM) Def) as [HD|HD].
    + split; [done|]. by intros [? _].
    + rewrite IH. split; [by intros ?|by intros [_ ?]].
Qed.

Lemma search_found (DMS : list DefinedMacro) (Pos i : nat) (DM : DefinedMacro) :
  NoDup (Definition_ <$> DMS) -> DMS !! i = Some DM ->
  search (Definition_ DM) DMS Pos = Some (Pos + i)%nat.
Proof.
  revert Pos i. induction DMS as [|DM' Rest IH]; intros Pos i HND Hi; [done|].
  simpl in HND. apply NoDup_cons in HND as [Hnot HND]. simpl.
  destruct i as [|i]; simpl in Hi.
  - injection Hi as ->. rewrite N.eqb_refl. f_equal. lia.
  - destruct (N.eqb_spec (Definition_ DM') (Definition_ DM)) as [HD|HD].
    + destruct Hnot. rewrite HD. apply list_elem_of_fmap. exists DM.
      split; [done|]. by eapply list_elem_of_lookup_2.
    + rewrite (IH (S Pos) i) by done. f_equal. lia.
Qed.

Lemma search_fresh (N : string) (D : SourceLocation) (DMS : list DefinedMacro)
    (Pos : nat) :
  search D DMS Pos = None ->
  search D (DMS ++ [{| Name := N; Definition_ := D |}]) Pos
  = Some (Pos + length DMS)%nat.
Proof.
  revert Pos. induction DMS as [|DM Rest IH]; intros Pos; simpl.
  - intros _. rewrite N.eqb_refl. f_equal. lia.
  - destruct (Definition_ DM =? D)%N; [done|]. intros HS.
    rewrite IH by done. f_equal. lia.
Qed.

Lemma bucketsDistinct_macro (N : string) (D : SourceLocation)
    (C : gmap string (list DefinedMacro)) :
  bucketsDistinct C -> bucketsDistinct (macro N D C).2.
Proof.
  intros HC N' DMS'. unfold macro.
  assert (Forall (fun DM => Name DM = N) (default [] (C !! N)) /\
          NoDup (Definition_ <$> default [] (C !! N))) as [HF HND].
  { destruct (C !! N) as [DMS|] eqn:E; simpl; [by apply HC|]. split; constructor. }
  destruct (search D _ 0) as [Pos|] eqn:HS; simpl.
  - destruct (decide (N = N')) as [<-|Hne].
    + rewrite lookup_insert_eq. by intros [= <-].
    + rewrite lookup_insert_ne by done. apply HC.
  - destruct (decide (N = N')) as [<-|Hne].
    + rewrite lookup_insert_eq. intros [= <-]. split.
      * apply Forall_app. split; [done|]. by repeat constructor.
      * rewrite fmap_app. apply NoDup_app. split; [done|]. split.
        -- intros x Hx ->%list_elem_of_singleton. by apply search_None in HS.
        -- apply NoDup_singleton.
    + rewrite lookup_insert_ne by done. apply HC.
Qed.

Lemma bucketsDistinct_after (Queries : list (string * SourceLocation)) :
  bucketsDistinct (after Queries).
Proof.
  unfold after.
  assert (bucketsDistinct ∅) as H0 by (intros ? ?; by rewrite lookup_empty).
  revert H0. generalize (∅ : gmap string (list DefinedMacro)).
  induction Queries as [|Q Queries IH]; intros C HC; simpl; [done|].
  by apply IH, bucketsDistinct_macro.
Qed.

(** X1.  In an arena built by calls of [macro], a call hands out a slot
    that holds the macro of the requested name and definition, and asking
    again returns the same slot and leaves the arena as it is. *)
Theorem Cache_macro_again (Queries : list (string * SourceLocation))
    (N : string) (D : SourceLocation) :
  let R := macro N D (after Queries) in
  deref R.2 R.1 = Some {| Name := N; Definition_ := D |} /\
  macro N D R.2 = R.
Proof.
  intros R. subst R. pose proof (bucketsDistinct_after Queries) as HC.
  generalize dependent (after Queries). intros C HC. unfold macro, deref.
  assert (Forall (fun DM => Name DM = N) (default [] (C !! N))) as HF.
  { destruct (C !! N) as [DMS|] eqn:E; simpl; [by apply HC|]. constructor. }
  destruct (search D _ 0) as [Pos|] eqn:HS; simpl.
  - rewrite lookup_insert_eq. simpl. rewrite HS. split; [|by rewrite insert_insert_eq].
    apply search_bounds in HS as (DM & Hl & HD & _). rewrite Nat.sub_0_r in Hl.
    rewrite Hl. f_equal. rewrite Forall_forall in HF.
    specialize (HF DM (list_elem_of_lookup_2 _ _ _ Hl)). destruct DM. simpl in *. congruence.
  - rewrite lookup_insert_eq. simpl. split.
    + rewrite lookup_app_r by done. by rewrite Nat.sub_diag.
    + rewrite search_fresh by done. by rewrite insert_insert_eq.
Qed.

(** X2.  A call of [macro] changes no element of the arena: what a
    bucket holds at a position it still holds afterwards, the arena only
    grows at the end of a bucket.  (Slots are a bucket and a position;
    whether an element keeps its address when its [SmallVector] grows is
    not part of the model.) *)
Theorem Cache_slots_kept (N : string) (D : SourceLocation)
    (C : gmap string (list DefinedMacro)) (P : Slot) (DM : DefinedMacro) :
  deref C P = Some DM -> deref (macro N D C).2 P = Some DM.
Proof.
  destruct P as [N' i]. unfold deref, macro. simpl. intros HP.
  destruct (search D _ 0) as [Pos|]; simpl.
  - destruct (decide (N = N')) as [<-|Hne];
      [by rewrite lookup_insert_eq|by rewrite lookup_insert_ne].
  - destruct (decide (N = N')) as [<-|Hne];
      [|by rewrite lookup_insert_ne].
    rewrite lookup_insert_eq. simpl. by apply lookup_app_l_Some.
Qed.

Lemma Cache_slots_kept_witness :
  deref (macro "BAR" 302%N (after [("FOO", 201%N); ("FOO", 301%N)])).2 ("FOO", 1%nat)
  = Some {| Name := "FOO"; Definition_ := 301%N |}.
Proof.
  apply (Cache_slots_kept "BAR" 302%N (after [("FOO", 201%N); ("FOO", 301%N)])
           ("FOO", 1%nat)).
  reflexivity.
Defined.

(** X3.  In an arena built by calls of [macro], the slot of a macro is
    the one that [macro] returns for its name and definition, without
    changing the arena: one slot per name and definition, so that two
    slots hold the same macro only if they are the same slot. *)
Theorem Cache_one_slot_per_definition (Queries : list (string * SourceLocation))
    (P Q : Slot) (DM : DefinedMacro) :
  deref (after Queries) P = Some DM ->
  macro (Name DM) (Definition_ DM) (after Queries) = (P, after Queries) /\
  (deref (after Queries) Q = Some DM -> P = Q).
Proof.
  pose proof (bucketsDistinct_after Queries) as HC.
  generalize dependent (after Queries). intros C HC.
  assert (forall P, deref C P = Some DM ->
            macro (Name DM) (Definition_ DM) C = (P, C)) as Hone.
  { clear P Q. intros [N i]. unfold deref, macro. simpl. intros HP.
    destruct (C !! N) as [DMS|] eqn:E; simpl in HP; [|done].
    destruct (HC N DMS E) as [HF HND]. rewrite Forall_forall in HF.
    rewrite (HF DM (list_elem_of_lookup_2 _ _ _ HP)), E. simpl.
    rewrite (search_found DMS 0 i DM) by done. simpl.
    by rewrite insert_id. }
  intros HP. split; [by apply Hone|].
  intros HQ. apply Hone in HP, HQ. congruence.
Qed.

Lemma Cache_one_slot_per_definition_witness :
  macro "FOO" 301%N (after [("FOO", 201%N); ("FOO", 301%N); ("BAR", 301%N)])
  = (("FOO", 1%nat), after [("FOO", 201%N); ("FOO", 301%N); ("BAR", 301%N)]) /\
  (deref (after [("FOO", 201%N); ("FOO", 301%N); ("BAR", 301%N)]) ("FOO", 1%nat)
   = Some {| Name := "FOO"; Definition_ := 301%N |} -> ("FOO", 1%nat) = ("FOO", 1%nat)).
Proof.
  apply (Cache_one_slot_per_definition
           [("FOO", 201%N); ("FOO", 301%N); ("BAR", 301%N)]
           ("FOO", 1%nat) ("FOO", 1%nat) {| Name := "FOO"; Definition_ := 301%N |}).
  reflexivity.
Defined.

End CacheFacts.

(** ** Locating and ranking (Locations.cpp, Headers.cpp, Analysis.cpp) *)


Section AnalysisFacts.
Context (Std : StdlibMapping) (Ctx : AnalysisContext).

Lemma declHint_definition (D : Decl_) :
  Analysis.declHint D
  = if Laws.isTypeLikeDefinition D then Hints.Complete else Hints.None.
Proof.
  unfold Analysis.declHint, Laws.isTypeLikeDefinition.
  by destruct (getClass D), (isThisDeclarationADefinition D).
Qed.

(** X4.  [locateDecl] answers a declaration that the recognizer knows
    with its standard-library symbol alone, whatever its redeclarations;
    otherwise with the locations of its redeclarations that are valid and
    not friend declarations, and with no other: each is hinted [Complete]
    exactly when the redeclaration defines a tag, a class template or a
    function template. *)
Theorem locateDecl_locations (ND : NamedDecl) (L : Hinted Location.t) :
  L ∈ Analysis.locateDecl Ctx ND <->
  match StdlibRecognizer Ctx ND with
  | Some StdlibSym => L = unhinted (Location.StandardLibrary StdlibSym)
  | None =>
      exists RD, RD ∈ redecls ND /\
        getFriendObjectKind RD <> FOK_Declared /\
        isValid (getLocation RD) = true /\
        Value L = Location.Physical (getLocation RD) /\
        Hint_ L = if Laws.isTypeLikeDefinition RD then Hints.Complete else Hints.None
  end.
Proof.
  unfold Analysis.locateDecl. destruct (StdlibRecognizer Ctx ND) as [Sym|].
  - apply list_elem_of_singleton.
  - rewrite list_elem_of_In, in_flat_map. setoid_rewrite <- list_elem_of_In. split.
    + intros (RD & HRD & HL). exists RD. split; [done|].
      destruct (getFriendObjectKind RD) eqn:HF; try (by apply elem_of_nil in HL);
        destruct (isValid (getLocation RD)) eqn:HV; try (by apply elem_of_nil in HL);
        apply list_elem_of_singleton in HL as ->; simpl;
        by rewrite declHint_definition.
    + intros (RD & HRD & HF & HV & HVal & HH). exists RD. split; [done|].
      rewrite HV. destruct L as [V h]. simpl in *. subst.
      rewrite <- declHint_definition.
      destruct (getFriendObjectKind RD); try done; apply list_elem_of_singleton; done.
Qed.

Lemma includableHeader_cases (Loc : Location.t) :
  Analysis.includableHeader Std Ctx Loc = [] \/
  exists H, Analysis.includableHeader Std Ctx Loc = [unhinted H] /\
            Laws.isVerbatim H = false.
Proof.
  destruct Loc as [L|Sym]; simpl; [|by eauto].
  repeat case_match; eauto.
Qed.

(** X5.  A location has at most one includable header, and it is handed
    over without hint. *)
Theorem includableHeader_at_most_one (Loc : Location.t) :
  Analysis.includableHeader Std Ctx Loc = [] \/
  exists H, Analysis.includableHeader Std Ctx Loc = [unhinted H].
Proof.
  destruct (includableHeader_cases Loc) as [?|(H & ? & _)]; eauto.
Qed.

(** X6.  [prefer] is a strict weak order on hints, as the stable sort of
    [rank] needs; with the enumerators as declared it holds exactly when
    the left hint has the bit of [Complete] and the right one has not. *)
Theorem prefer_strict_weak_order :
  Laws.StrictWeakOrder Analysis.prefer /\
  forall L R, Analysis.prefer L R
              = hasHint L Hints.Complete && negb (hasHint R Hints.Complete).
Proof.
  split; [split|]; unfold Analysis.prefer, Analysis.tuple_lt, Analysis.bool_lt; simpl;
    change Hints.NameMatch with Hints.Complete.
  - intros a. by destruct (hasHint a Hints.Complete).
  - intros a b c.
    by destruct (hasHint a Hints.Complete), (hasHint b Hints.Complete),
         (hasHint c Hints.Complete).
  - intros a b c.
    by destruct (hasHint a Hints.Complete), (hasHint b Hints.Complete),
         (hasHint c Hints.Complete).
  - intros L R. by destruct (hasHint L Hints.Complete), (hasHint R Hints.Complete).
Qed.

(** *** The sorts of [rank] move candidates, and the fold keeps a header
    of every run *)

Lemma linear_insert_perm {A} (Comp : A -> A -> bool) (Val : A) (Sorted : list A) :
  ADT.linear_insert Comp Val Sorted ≡ₚ Val :: Sorted.
Proof.
  induction Sorted as [|Prev Rest IH]; simpl; [done|].
  destruct (Comp Val Prev); [|done]. rewrite IH. apply Permutation_swap.
Qed.

Lemma stable_sort_perm {A} (Comp : A -> A -> bool) (Range : list A) :
  ADT.stable_sort Comp Range ≡ₚ Range.
Proof.
  unfold ADT.stable_sort. rewrite <- Permutation_rev.
  assert (forall Sorted,
            fold_left (fun Sorted Val => ADT.linear_insert Comp Val Sorted) Range Sorted
            ≡ₚ Range ++ Sorted) as H; [|by rewrite H, app_nil_r].
  induction Range as [|Val Range IH]; intros Sorted; simpl; [done|].
  rewrite IH, linear_insert_perm. by rewrite Permutation_middle.
Qed.

Lemma mergeRuns_values (Read : list (Hinted Header.t)) (W : Hinted Header.t) (H : Header.t) :
  H ∈ Value <$> Analysis.mergeRuns W Read <-> H = Value W \/ H ∈ Value <$> Read.
Proof.
  revert W. induction Read as [|R Read IH]; intros W; simpl.
  - rewrite list_elem_of_singleton. split; [by left|]. by intros [?|?%elem_of_nil].
  - destruct (Header.eqb (Value R) (Value W)) eqn:E.
    + rewrite IH. simpl. apply Header_eqb_eq in E. rewrite elem_of_cons, E. tauto.
    + rewrite !fmap_cons, !elem_of_cons, IH. tauto.
Qed.

Lemma mergeRuns_length (Read : list (Hinted Header.t)) (W : Hinted Header.t) :
  (length (Analysis.mergeRuns W Read) <= S (length Read))%nat.
Proof.
  revert W. induction Read as [|R Read IH]; intros W; simpl; [done|].
  destruct (Header.eqb _ _); simpl; [specialize (IH (Analysis.orHint (Hint_ R) W))
                                    |specialize (IH R)]; lia.
Qed.

Lemma elem_of_rank (Candidates : list (Hinted Header.t)) (H : Header.t) :
  H ∈ Analysis.rank Candidates <-> H ∈ Value <$> Candidates.
Proof.
  unfold Analysis.rank, Analysis.rankWith.
  set (Sorted := ADT.stable_sort _ Candidates).
  assert (Sorted ≡ₚ Candidates) as HP by apply stable_sort_perm.
  change (map Value ?l) with (Value <$> l).
  rewrite (stable_sort_perm _ (Analysis.uniqueMergingHints Sorted)).
  rewrite <- HP. destruct Sorted as [|W Read]; simpl; [done|].
  by rewrite mergeRuns_values, elem_of_cons.
Qed.

(** X7.  [rank] returns the headers of its candidates: it invents none
    and loses none, and returns no more headers than there are
    candidates (so none for no candidate). *)
Theorem rank_same_headers (Candidates : list (Hinted Header.t)) :
  (forall H, H ∈ Analysis.rank Candidates <-> H ∈ Value <$> Candidates) /\
  (length (Analysis.rank Candidates) <= length Candidates)%nat.
Proof.
  split; [intros H; apply elem_of_rank|].
  unfold Analysis.rank, Analysis.rankWith.
  set (Sorted := ADT.stable_sort _ Candidates).
  assert (Sorted ≡ₚ Candidates) as HP by apply stable_sort_perm.
  - rewrite length_map, (Permutation_length (stable_sort_perm _ _)).
    rewrite <- (Permutation_length HP). destruct Sorted as [|W Read]; simpl; [done|].
    apply mergeRuns_length.
Qed.

Lemma headersOfMacro_closed (M : DefinedMacro) :
  Analysis.headersOfMacro Std Ctx M
  = Value <$> Analysis.includableHeader Std Ctx (Location.Physical (Definition_ M)).
Proof.
  unfold Analysis.headersOfMacro, Analysis.locateMacro. simpl Value.
  destruct (includableHeader_cases (Location.Physical (Definition_ M)))
    as [->|(H & -> & _)]; [reflexivity|].
  cbn. unfold Analysis.nameMatches. cbn.
  destruct H; cbn; try destruct (ADT.equals_insensitive _ _); reflexivity.
Qed.

(** X8.  The headers handed over for a macro are those of its definition
    location, so at most one: hints and ranking have nothing to order. *)
Theorem headersOfMacro_of_definition (M : DefinedMacro) :
  Analysis.headersOfMacro Std Ctx M
  = Value <$> Analysis.includableHeader Std Ctx (Location.Physical (Definition_ M)) /\
  (length (Analysis.headersOfMacro Std Ctx M) <= 1)%nat.
Proof.
  split; [apply headersOfMacro_closed|]. rewrite headersOfMacro_closed.
  destruct (includableHeader_cases (Location.Physical (Definition_ M)))
    as [->|(H & -> & _)]; simpl; lia.
Qed.

Lemma addHint_values {T} (H : Hint) (Items : list (Hinted T)) :
  Value <$> Analysis.addHint H Items = Value <$> Items.
Proof. unfold Analysis.addHint. induction Items; simpl; [done|]. by f_equal. Qed.

Lemma addNameMatchHint_values (II : option string) (Hs : list (Hinted Header.t)) :
  Value <$> Analysis.addNameMatchHint II Hs = Value <$> Hs.
Proof.
  destruct II as [II|]; [|done]. simpl.
  induction Hs as [|HH Hs IH]; simpl; [done|]. f_equal; [|done].
  by destruct (Analysis.nameMatches II HH).
Qed.

Lemma elem_of_headersOfDecl (ND : Hinted NamedDecl) (H : Header.t) :
  H ∈ Analysis.headersOfDecl Std Ctx ND <->
  exists Loc, Loc ∈ Analysis.locateDecl Ctx (Value ND) /\
              H ∈ Value <$> Analysis.includableHeader Std Ctx (Value Loc).
Proof.
  unfold Analysis.headersOfDecl.
  rewrite elem_of_rank, addNameMatchHint_values, addHint_values.
  rewrite list_elem_of_fmap. setoid_rewrite list_elem_of_In.
  setoid_rewrite in_flat_map. setoid_rewrite <- list_elem_of_In. split.
  - intros (HH & -> & Loc & HL & HI). exists Loc. split; [done|].
    rewrite <- (addHint_values (Hint_ Loc)). by apply list_elem_of_fmap_2.
  - intros (Loc & HL & HI). rewrite <- (addHint_values (Hint_ Loc)) in HI.
    apply list_elem_of_fmap in HI as (HH & -> & HI). eauto.
Qed.

(** X21.  The headers handed over for a declaration are exactly the
    includable headers of the locations of the declaration: the hints and
    the ranking order them, and neither add nor drop a header. *)
Theorem headersOfDecl_of_locations (ND : Hinted NamedDecl) (H : Header.t) :
  H ∈ Analysis.headersOfDecl Std Ctx ND <->
  exists Loc, Loc ∈ Analysis.locateDecl Ctx (Value ND) /\
              H ∈ Value <$> Analysis.includableHeader Std Ctx (Value Loc).
Proof. apply elem_of_headersOfDecl. Qed.

Lemma includableHeader_not_verbatim (Loc : Location.t) (H : Header.t) :
  H ∈ Value <$> Analysis.includableHeader Std Ctx Loc -> Laws.isVerbatim H = false.
Proof.
  destruct (includableHeader_cases Loc) as [->|(H' & -> & HV)]; simpl.
  - by intros ?%elem_of_nil.
  - by intros ->%list_elem_of_singleton.
Qed.

Lemma offered_not_verbatim {Decl : Type}
    (walkAST : Decl -> list (SourceLocation * Hinted NamedDecl))
    (ASTRoots : list Decl) (MacroRefs : list SymbolReference) :
  Forall (fun c => Forall (fun H => Laws.isVerbatim H = false) c.2)
    (Spec.declCalls Std Ctx walkAST ASTRoots ++ Spec.macroCalls Std Ctx MacroRefs).
Proof.
  apply Forall_app. split.
  - unfold Spec.declCalls. apply Forall_forall. intros c.
    rewrite list_elem_of_In, in_flat_map. intros (Root & _ & Hc).
    apply in_map_iff in Hc as (R & <- & _). simpl.
    apply Forall_forall. intros H (Loc & _ & HI)%elem_of_headersOfDecl.
    by eapply includableHeader_not_verbatim.
  - induction MacroRefs as [|R Rest IH]; simpl; [constructor|].
    destruct (Target R) as [M|]; [|constructor]. constructor; [|done]. simpl.
    rewrite headersOfMacro_closed. apply Forall_forall. intros H.
    apply includableHeader_not_verbatim.
Qed.

(** X22.  [walkUsed] never offers a verbatim spelling to its callback:
    the headers of every call are physical files, standard-library
    headers, the built-in header or the main file. *)
Theorem walkUsed_offers_no_verbatim {Decl : Type}
    (walkAST : Decl -> list (SourceLocation * Hinted NamedDecl))
    {St : Type} (Callback : SourceLocation -> Symbol.t -> list Header.t -> St -> St)
    (ASTRoots : list Decl) (MacroRefs : list SymbolReference) (s : St) :
  let Calls := Spec.declCalls Std Ctx walkAST ASTRoots
               ++ Spec.macroCalls Std Ctx MacroRefs in
  (Analysis.walkUsed Std Ctx walkAST Callback ASTRoots MacroRefs s).1
  = fold_left (Spec.invoke Callback) Calls s /\
  Forall (fun c => Forall (fun H => Laws.isVerbatim H = false) c.2) Calls.
Proof.
  split; [by rewrite walkUsed_run|apply offered_not_verbatim].
Qed.

End AnalysisFacts.

(** *** Ranking candidates that are not physical headers *)

Section SortFacts.
Context {A : Type} (Comp : A -> A -> bool) (Good : A -> Prop).
Context (asym : forall a b, Good a -> Good b -> Comp a b = true -> Comp b a = false).
Context (negtrans : forall a b c, Good a -> Good b -> Good c ->
                      Comp a b = false -> Comp b c = false -> Comp a c = false).

(** The insertion keeps the sorted prefix sorted: held last element first,
    no element is less than one after it. *)
Lemma linear_insert_sorted (Val : A) (Sorted : list A) :
  Good Val -> Forall Good Sorted ->
  StronglySorted (fun x y => Comp x y = false) Sorted ->
  StronglySorted (fun x y => Comp x y = false) (ADT.linear_insert Comp Val Sorted).
Proof.
  intros HV HG HS. induction Sorted as [|Prev Rest IH]; simpl.
  - repeat constructor.
  - apply Forall_cons in HG as [HP HG].
    apply StronglySorted_cons in HS as [HPrev HS].
    destruct (Comp Val Prev) eqn:E.
    + apply StronglySorted_cons. split; [|by apply IH].
      rewrite (linear_insert_perm Comp Val Rest). constructor; [by apply asym|done].
    + apply StronglySorted_cons. split; [|by apply StronglySorted_cons].
      constructor; [done|].
      rewrite Forall_forall in HPrev, HG. apply Forall_forall. intros r Hr.
      eapply (negtrans Val Prev r); eauto.
Qed.

Lemma stable_sort_sorted (Range : list A) :
  Forall Good Range ->
  StronglySorted (fun x y => Comp y x = false) (ADT.stable_sort Comp Range).
Proof.
  intros HG. unfold ADT.stable_sort.
  assert (forall Sorted, Forall Good Sorted ->
            StronglySorted (fun x y => Comp x y = false) Sorted ->
            StronglySorted (fun x y => Comp x y = false)
              (fold_left (fun Sorted Val => ADT.linear_insert Comp Val Sorted)
                 Range Sorted)) as H.
  { induction HG as [|Val Range HV HG IH]; intros Sorted HGS HS; simpl; [done|].
    apply IH.
    - rewrite (linear_insert_perm Comp Val Sorted). by constructor.
    - by apply linear_insert_sorted. }
  specialize (H [] (List.Forall_nil _) (SSorted_nil _)).
  revert H. generalize (fold_left (fun Sorted Val => ADT.linear_insert Comp Val Sorted)
                          Range []).
  intros l. induction l as [|x l IH]; simpl; [constructor|].
  intros [Hx Hl]%StronglySorted_cons. apply StronglySorted_app_2.
  - intros y z Hy ->%list_elem_of_singleton. rewrite Forall_forall in Hx.
    apply Hx. by apply list_elem_of_In, in_rev, list_elem_of_In.
  - by apply IH.
  - repeat constructor.
Qed.
End SortFacts.

Lemma String_ltb_trans (a b c : string) :
  String.ltb a b = true -> String.ltb b c = true -> String.ltb a c = true.
Proof.
  unfold String.ltb.
  destruct (String.compare a b) eqn:Hab; try done.
  destruct (String.compare b c) eqn:Hbc; try done.
  intros _ _.
  apply OrderedTypeEx.String_as_OT.cmp_lt in Hab, Hbc.
  pose proof (OrderedTypeEx.String_as_OT.lt_trans _ _ _ Hab Hbc) as Hac.
  apply OrderedTypeEx.String_as_OT.cmp_lt in Hac.
  unfold OrderedTypeEx.String_as_OT.cmp in Hac. by rewrite Hac.
Qed.

Lemma Header_ltb_trans (a b c : Header.t) :
  Laws.isPhysical a = false -> Laws.isPhysical b = false -> Laws.isPhysical c = false ->
  Header.ltb a b = true -> Header.ltb b c = true -> Header.ltb a c = true.
Proof.
  destruct a, b, c; try done; unfold Header.ltb; simpl; intros _ _ _.
  - rewrite !N.ltb_lt. lia.
  - apply String_ltb_trans.
Qed.

Lemma Header_ltb_cases (a b : Header.t) :
  Laws.isPhysical a = false ->
  (Header.ltb a b = true /\ Header.ltb b a = false /\ a <> b) \/
  (Header.ltb a b = false /\ Header.ltb b a = true /\ a <> b) \/
  (Header.ltb a b = false /\ Header.ltb b a = false /\ a = b).
Proof.
  intros Ha. pose proof (Header_trichotomy_off_Physical a b) as HT.
  assert (Spec.exactlyOne (Header.ltb a b) (Header.ltb b a) (Header.eqb a b)) as HE
    by by destruct a, b.
  clear HT. unfold Spec.exactlyOne in HE.
  destruct (Header.eqb a b) eqn:E.
  - apply Header_eqb_eq in E. intuition congruence.
  - assert (a <> b) by (intros ?%Header_eqb_eq; congruence). intuition congruence.
Qed.

Lemma Header_ltb_asym (a b : Header.t) :
  Laws.isPhysical a = false -> Header.ltb a b = true -> Header.ltb b a = false.
Proof. intros Ha. destruct (Header_ltb_cases a b Ha); intuition congruence. Qed.

Lemma Header_ltb_negtrans (a b c : Header.t) :
  Laws.isPhysical a = false -> Laws.isPhysical b = false -> Laws.isPhysical c = false ->
  Header.ltb a b = false -> Header.ltb b c = false -> Header.ltb a c = false.
Proof.
  intros Ha Hb Hc Hab Hbc. destruct (Header.ltb a c) eqn:Hac; [|done].
  destruct (Header_ltb_cases b a Hb) as [(?&?&?)|[(?&?&?)|(?&?&?)]];
    try congruence.
  pose proof (Header_ltb_trans b a c Hb Ha Hc). intuition congruence.
Qed.

Lemma mergeRuns_NoDup (Read : list (Hinted Header.t)) (W : Hinted Header.t) :
  Forall (fun C => Laws.isPhysical (Value C) = false) (W :: Read) ->
  StronglySorted (fun x y => Header.ltb (Value y) (Value x) = false) (W :: Read) ->
  NoDup (Value <$> Analysis.mergeRuns W Read).
Proof.
  revert W. induction Read as [|R Read IH]; intros W HG HS; simpl.
  - apply NoDup_singleton.
  - apply Forall_cons in HG as [HW HG]. apply Forall_cons in HG as [HR HG].
    apply StronglySorted_cons in HS as [HWs HS].
    apply Forall_cons in HWs as [HWR HWs].
    pose proof HS as HS'. apply StronglySorted_cons in HS' as [HRs HS'].
    destruct (Header.eqb (Value R) (Value W)) eqn:E.
    + apply IH.
      * by constructor.
      * apply StronglySorted_cons. by split.
    + rewrite fmap_cons. apply NoDup_cons. split; [|apply IH; [by constructor|done]].
      rewrite mergeRuns_values.
      assert (Value R <> Value W) as Hne by (intros ?%Header_eqb_eq; congruence).
      assert (Header.ltb (Value W) (Value R) = true) as Hlt.
      { destruct (Header_ltb_cases (Value W) (Value R) HW); intuition congruence. }
      intros [HEq|HIn]; [congruence|].
      apply list_elem_of_fmap in HIn as (T & HT & HTin).
      rewrite Forall_forall in HRs. specialize (HRs T HTin).
      simpl in HRs. congruence.
Qed.

(** X9.  When no candidate is a physical header, [rank] returns every
    header once. *)
Theorem rank_unique_without_physical (Candidates : list (Hinted Header.t)) :
  Forall (fun C => Laws.isPhysical (Value C) = false) Candidates ->
  NoDup (Analysis.rank Candidates).
Proof.
  intros HG. unfold Analysis.rank, Analysis.rankWith.
  change (map Value ?l) with (Value <$> l).
  rewrite (stable_sort_perm _ (Analysis.uniqueMergingHints _)).
  pose proof (stable_sort_sorted
                (fun L R => Header.ltb (Value L) (Value R))
                (fun C => Laws.isPhysical (Value C) = false)
                (fun a b Ha _ => Header_ltb_asym (Value a) (Value b) Ha)
                (fun a b c => Header_ltb_negtrans (Value a) (Value b) (Value c))
                Candidates HG) as HS.
  assert (Forall (fun C => Laws.isPhysical (Value C) = false)
            (ADT.stable_sort (fun L R => Header.ltb (Value L) (Value R)) Candidates))
    as HG' by by rewrite stable_sort_perm.
  destruct (ADT.stable_sort _ Candidates) as [|W Read]; simpl; [constructor|].
  by apply mergeRuns_NoDup.
Qed.

Lemma rank_unique_without_physical_witness :
  NoDup (Analysis.rank
           [unhinted (Header.Verbatim "b.h"); unhinted (Header.StandardLibrary 1%N);
            unhinted Header.MainFile; mkHinted (Header.Verbatim "b.h") Hints.Complete;
            unhinted (Header.StandardLibrary 1%N)]).
Proof.
  apply rank_unique_without_physical. repeat constructor.
Defined.

(** ** The recorder (Hooks.cpp) *)

Section HooksFacts.
Context (Ctx : AnalysisContext).
Import RecordedPP PPRecorder.

Lemma record_snoc (Events : list Event) (E : Event) :
  record Ctx (Events ++ [E]) = step Ctx (record Ctx Events) E.
Proof. unfold record. by rewrite fold_left_app. Qed.

Lemma record_app (Events More : list Event) :
  record Ctx (Events ++ More) = fold_left (step Ctx) More (record Ctx Events).
Proof. unfold record. by rewrite fold_left_app. Qed.

Lemma MacroReferences_recordMacroRef (Tok : Token) (MI : MacroInfo) (R : RecordedPP.t) :
  MacroReferences (recordMacroRef Tok MI R) = MacroReferences R \/
  exists II, getIdentifierInfo Tok = Some II /\ isBuiltinMacro MI = false /\
    MacroReferences (recordMacroRef Tok MI R)
    = MacroReferences R ++
        [{| Location_ := getTokLocation Tok;
            Target := Symbol.ofMacro {| Name := II; Definition_ := getDefinitionLoc MI |} |}].
Proof.
  unfold recordMacroRef. destruct (isBuiltinMacro MI); [by left|].
  destruct (getIdentifierInfo Tok) as [II|]; [|by left]. right. by exists II.
Qed.

(** X10.  Every recorded include carries the line of its hash: [Line] is
    the spelling line number of [Location]. *)
Theorem recorded_Line_of_Location (Events : list Event) (Inc : Include) :
  Inc ∈ All (Includes (Recorded (record Ctx Events))) ->
  Line Inc = getSpellingLineNumber Ctx (Location Inc).
Proof.
  revert Inc. apply Forall_forall.
  induction Events as [|E Events IH] using rev_ind; [constructor|].
  rewrite record_snoc. generalize dependent (record Ctx Events). intros PS IH.
  destruct E; simpl; [done| | |]; destruct (Active PS); simpl; try done.
  - apply Forall_app. split; [done|]. by repeat constructor.
  - by rewrite Includes_recordMacroRef.
  - revert IH. generalize (Recorded PS). induction Tokens as [|Tok Tokens IHT];
      intros R HR; simpl; [done|].
    apply IHT. repeat case_match; try done; by rewrite Includes_recordMacroRef.
Qed.

Lemma step_macro_Includes (PS : State) (E : Event) :
  Laws.isMacroEvent E = true ->
  Active (step Ctx PS E) = Active PS /\
  Includes (Recorded (step Ctx PS E)) = Includes (Recorded PS).
Proof.
  destruct E; try done; intros _; simpl; destruct (Active PS) eqn:HA; simpl; try done.
  - by rewrite Includes_recordMacroRef.
  - split; [done|]. generalize (Recorded PS).
    induction Tokens as [|Tok Tokens IHT]; intros R; simpl; [done|].
    rewrite IHT. repeat case_match; try done; by rewrite Includes_recordMacroRef.
Qed.

Lemma step_same_Includes (PS PS' : State) (E : Event) :
  Active PS = Active PS' ->
  Includes (Recorded PS) = Includes (Recorded PS') ->
  Laws.isMacroEvent E = false ->
  Active (step Ctx PS E) = Active (step Ctx PS' E) /\
  Includes (Recorded (step Ctx PS E)) = Includes (Recorded (step Ctx PS' E)).
Proof.
  intros HA HI. destruct E; try done; intros _; simpl.
  rewrite <- HA. destruct (Active PS) eqn:E; simpl.
  - split; [done|]. by rewrite HI.
  - split; [congruence|done].
Qed.

(** X11.  The macro callbacks never touch the includes: the vector of
    includes and its two indices are what the file changes and inclusion
    directives alone would have recorded. *)
Theorem Includes_ignore_macro_events (Events : list Event) :
  Includes (Recorded (record Ctx Events))
  = Includes (Recorded (record Ctx (filter (fun E => negb (Laws.isMacroEvent E)) Events))).
Proof.
  unfold record.
  assert (forall PS PS',
            Active PS = Active PS' ->
            Includes (Recorded PS) = Includes (Recorded PS') ->
            Includes (Recorded (fold_left (step Ctx) Events PS))
            = Includes (Recorded (fold_left (step Ctx)
                                    (filter (fun E => negb (Laws.isMacroEvent E)) Events)
                                    PS'))) as H; [|by apply H].
  induction Events as [|E Events IH]; intros PS PS' HA HI; simpl; [done|].
  rewrite filter_cons. destruct (Laws.isMacroEvent E) eqn:HE; simpl.
  - destruct (step_macro_Includes PS E HE) as [HA' HI'].
    apply IH; congruence.
  - destruct (step_same_Includes PS PS' E HA HI HE) as [HA' HI'].
    by apply IH.
Qed.

Lemma step_inactive (PS : State) (E : Event) :
  Active PS = false -> Laws.isFileChanged E = false -> step Ctx PS E = PS.
Proof. intros HA. destruct E; try done; intros _; simpl; by rewrite HA. Qed.

(** X12.  Outside the main file nothing is recorded: after a file change
    to a location that is not written in the main file, the callbacks up
    to the next file change leave the recorder as it is. *)
Theorem record_inactive (Events More : list Event) :
  Active (record Ctx Events) = false ->
  Forall (fun E => Laws.isFileChanged E = false) More ->
  record Ctx (Events ++ More) = record Ctx Events.
Proof.
  rewrite record_app. generalize (record Ctx Events). intros PS HA HM.
  induction HM as [|E More HE _ IH]; simpl; [done|].
  by rewrite step_inactive.
Qed.

Lemma macro_targets_recordMacroRef (Tok : Token) (MI : MacroInfo) (R : RecordedPP.t) :
  Forall (fun Ref => Symbol.kind (Target Ref) = Symbol.Macro) (MacroReferences R) ->
  Forall (fun Ref => Symbol.kind (Target Ref) = Symbol.Macro)
    (MacroReferences (recordMacroRef Tok MI R)).
Proof.
  intros HR. destruct (MacroReferences_recordMacroRef Tok MI R) as [->|(II & _ & _ & ->)];
    [done|].
  apply Forall_app. split; [done|]. by repeat constructor.
Qed.

Lemma recorded_macro_targets (Events : list Event) :
  Forall (fun Ref => Symbol.kind (Target Ref) = Symbol.Macro)
    (MacroReferences (Recorded (record Ctx Events))).
Proof.
  induction Events as [|E Events IH] using rev_ind; [constructor|].
  rewrite record_snoc. generalize dependent (record Ctx Events). intros PS IH.
  destruct E; simpl; [done| | |]; destruct (Active PS); simpl; try done.
  - by apply macro_targets_recordMacroRef.
  - revert IH. generalize (Recorded PS). induction Tokens as [|Tok Tokens IHT];
      intros R HR; simpl; [done|].
    apply IHT. repeat case_match; try done; by apply macro_targets_recordMacroRef.
Qed.

(** X13.  What the recorder hands to the analysis meets its assertion:
    every recorded macro reference targets a macro, so that [walkUsed]
    runs to its end on the recorded references, for any roots, callback
    and captured state. *)
Theorem walkUsed_returns_on_recorded
    (Std : StdlibMapping) (Ctx' : AnalysisContext) {Decl : Type}
    (walkAST : Decl -> list (SourceLocation * Hinted NamedDecl))
    {St : Type} (Callback : SourceLocation -> Symbol.t -> list Header.t -> St -> St)
    (Events : list Event) (ASTRoots : list Decl) (s : St) :
  let MacroRefs := MacroReferences (Recorded (record Ctx Events)) in
  Forall (fun Ref => Symbol.kind (Target Ref) = Symbol.Macro) MacroRefs /\
  (Analysis.walkUsed Std Ctx' walkAST Callback ASTRoots MacroRefs s).2 = Some tt.
Proof.
  intros MacroRefs. pose proof (recorded_macro_targets Events) as HM.
  split; [done|]. rewrite walkUsed_run. simpl. by rewrite bool_decide_eq_true_2.
Qed.

(** X14.  The scan of a macro definition only adds references, in the
    order of the body: while the recorder is active, one reference for
    each token of the body, in turn, that names a macro defined at that
    point which is neither built in nor a parameter of the definition,
    and none otherwise; each reference is at its token and targets the
    macro's current definition. *)
Theorem MacroDefined_references (PS : State) (MacroName : Token)
    (Params : list string) (Tokens : list Token) :
  exists New,
    MacroReferences (Recorded (step Ctx PS (MacroDefined MacroName Params Tokens)))
    = MacroReferences (Recorded PS) ++ New /\
    New = (if Active PS then omap (Laws.referenceOfToken Params) Tokens else []) /\
    Forall (Laws.recordedFromBody Params Tokens) New.
Proof.
  simpl. destruct (Active PS); simpl;
    [|exists []; split; [by rewrite app_nil_r|split; [done|constructor]]].
  generalize (Recorded PS).
  assert (forall Toks, Toks ⊆ Tokens -> forall R : RecordedPP.t,
    exists New,
      MacroReferences
        (fold_left
           (fun R Tok =>
              match getIdentifierInfo Tok with
              | None => R
              | Some II =>
                  if negb (hadMacroDefinition Tok) || bool_decide (II ∈ Params)
                  then R
                  else match getMacroInfo Tok with
                       | Some MI => recordMacroRef Tok MI R
                       | None => R
                       end
              end) Toks R)
      = MacroReferences R ++ New /\
      New = omap (Laws.referenceOfToken Params) Toks /\
      Forall (Laws.recordedFromBody Params Tokens) New) as H; [|by apply H].
  induction Toks as [|Tok Toks IH]; intros HT R.
  - exists []. simpl. rewrite app_nil_r. repeat split. constructor.
  - assert (Tok ∈ Tokens) as HTok by (apply HT; by left).
    assert (Toks ⊆ Tokens) as HT' by (intros ? ?; apply HT; by right).
    cbn [fold_left omap list_omap]. unfold Laws.referenceOfToken at 1.
    destruct (getIdentifierInfo Tok) as [II|] eqn:HII; [|by apply IH].
    destruct (hadMacroDefinition Tok) eqn:HH; simpl; [|by apply IH].
    case_bool_decide as HP; [by apply IH|].
    destruct (getMacroInfo Tok) as [MI|] eqn:HMI; [|by apply IH].
    destruct (isBuiltinMacro MI) eqn:HB.
    + assert (recordMacroRef Tok MI R = R) as ->
        by (unfold recordMacroRef; by rewrite HB).
      by apply IH.
    + destruct (IH HT' (recordMacroRef Tok MI R)) as (New & -> & -> & HN).
      unfold recordMacroRef. rewrite HB, HII. simpl.
      eexists. split; [by rewrite <- app_assoc|]. split; [done|].
      constructor; [|done]. exists Tok, MI. by repeat split.
Qed.

End HooksFacts.

Lemma recorded_Line_of_Location_witness :
  RecordedPP.Line {| RecordedPP.Spelled := "vector"; RecordedPP.Resolved := None; RecordedPP.Location := 102%N; RecordedPP.Line := 2%N |}
  = getSpellingLineNumber Example.ctx
      (RecordedPP.Location {| RecordedPP.Spelled := "vector"; RecordedPP.Resolved := None; RecordedPP.Location := 102%N; RecordedPP.Line := 2%N |}).
Proof.
  apply (recorded_Line_of_Location Example.ctx Example.events).
  vm_compute. apply list_elem_of_In. right. left. reflexivity.
Defined.

Lemma record_inactive_witness :
  PPRecorder.record Example.ctx
    ([PPRecorder.FileChanged 100%N; PPRecorder.FileChanged 200%N] ++
     [PPRecorder.InclusionDirective 209%N "c.h" false (Some Example.c_h);
      PPRecorder.MacroExpands {| PPRecorder.getTokLocation := 210%N; PPRecorder.getIdentifierInfo := Some "BAR";
                      PPRecorder.hadMacroDefinition := true; PPRecorder.getMacroInfo := None |}
                   {| PPRecorder.isBuiltinMacro := false; PPRecorder.getDefinitionLoc := 302%N |}])
  = PPRecorder.record Example.ctx [PPRecorder.FileChanged 100%N; PPRecorder.FileChanged 200%N].
Proof.
  apply record_inactive; [reflexivity|]. by repeat constructor.
Defined.


Section ASTRecorderFacts.
Context (Ctx : AnalysisContext).
Import RecordedAST.

Lemma HandleTopLevelDecl_step (D : TopLevelDecl) (Recorded : list TopLevelDecl) :
  let Next :=
    if negb (isWrittenInMainFile Ctx (getExpansionLoc Ctx (getLocation D)))
    then Recorded
    else
      match getClass D with
      | FunctionDecl | CXXRecordDecl | VarDecl =>
          if isImplicitInstantiation D then Recorded else Recorded ++ [D]
      | ObjCMethodDecl => Recorded
      | OtherTopLevel => Recorded ++ [D]
      end in
  (kept Ctx D /\ Next = Recorded ++ [D]) \/ (~ kept Ctx D /\ Next = Recorded).
Proof.
  unfold kept. simpl.
  destruct (isWrittenInMainFile Ctx _); simpl; [|right; split; [by intros [? _]|done]].
  destruct (getClass D) eqn:HC; try destruct (isImplicitInstantiation D) eqn:HI;
    (left; split; [split; [done|split; [done|]]; (by left) || (by right)|done]) ||
    (right; split; [|done]; intros (_ & ? & [?|?]); congruence).
Qed.

(** X15.  [HandleTopLevelDecl] appends to the recorded declarations, in
    the order of the group, exactly the declarations of the group that
    are written in the main file, are not Objective-C methods and are not
    implicit instantiations of a function, a class or a variable; it
    always returns true. *)
Theorem HandleTopLevelDecl_keeps (DG TopLevelDecls : list TopLevelDecl) :
  (HandleTopLevelDecl Ctx DG TopLevelDecls).2 = true /\
  exists New,
    (HandleTopLevelDecl Ctx DG TopLevelDecls).1 = TopLevelDecls ++ New /\
    sublist New DG /\
    forall D, D ∈ New <-> D ∈ DG /\ kept Ctx D.
Proof.
  split; [done|]. unfold HandleTopLevelDecl. simpl.
  revert TopLevelDecls. induction DG as [|D DG IH]; intros Old; simpl.
  - exists []. rewrite app_nil_r. split; [done|]. split; [constructor|].
    intros D. split; [by intros ?%elem_of_nil|by intros [?%elem_of_nil _]].
  - destruct (HandleTopLevelDecl_step D Old) as [[HK ->]|[HK ->]].
    + destruct (IH (Old ++ [D])) as (New & -> & HS & HN).
      exists (D :: New). split; [by rewrite <- app_assoc|].
      split; [by constructor|]. intros D'. rewrite !elem_of_cons, HN.
      split; [intros [->|[? ?]]; auto|intros [[->|?] ?]; auto].
    + destruct (IH Old) as (New & -> & HS & HN).
      exists New. split; [done|]. split; [by constructor|].
      intros D'. rewrite elem_of_cons, HN.
      split; [intros [? ?]; auto|intros [[->|?] ?]; [done|auto]].
Qed.

End ASTRecorderFacts.

(** ** Further properties of the standalone tool *)

Section ToolReportFacts.
Context (Opts : Tool.Options) (Std : StdlibMapping) (PP : RecordedPP.t).
Import Tool.

Lemma includes_loop (Loc : SourceLocation) (Sym : Symbol.t) (Is : list nat)
    (Diagnosed : bool) (Used : gmap nat Symbol.t) (Diags : list Diagnostic) :
  fold_left
    (fun '(Diagnosed, Used, Diags) I =>
       let Used := try_emplace I Sym Used in
       if negb Diagnosed
       then (true, Used,
             Report Opts (Some Loc) ID.Satisfied
               [Symbol.nodeName Sym; Symbol.name Sym; SpelledOf PP I] Diags)
       else (Diagnosed, Used, Diags))
    Is (Diagnosed, Used, Diags)
  = (match Is with [] => Diagnosed | _ => true end,
     fold_left (fun Used I => try_emplace I Sym Used) Is Used,
     if Diagnosed then Diags
     else match Is with
          | [] => Diags
          | Ord :: _ => Diags ++ [Provided.remark Opts Loc Sym (SpelledOf PP Ord)]
          end).
Proof.
  revert Diagnosed Used Diags. induction Is as [|I Is IH]; intros Dg U Ds; simpl.
  - by destruct Dg.
  - destruct Dg; simpl; rewrite IH; by destruct Is.
Qed.

Lemma firstProvider_cons (H : Header.t) (Headers : list Header.t) :
  Provided.firstProvider Std PP (H :: Headers)
  = match Provided.provider Std PP H with
    | Some P => Some P
    | None => Provided.firstProvider Std PP Headers
    end.
Proof.
  unfold Provided.firstProvider. simpl. by destruct (Provided.provider Std PP H).
Qed.

Lemma matchedBy_cons (H : Header.t) (Headers : list Header.t) :
  Provided.matchedBy Std PP (H :: Headers)
  = RecordedPP.match_ Std (RecordedPP.Includes PP) H ++ Provided.matchedBy Std PP Headers.
Proof. reflexivity. Qed.

Lemma markUsed_from (Loc : SourceLocation) (Sym : Symbol.t) (Headers : list Header.t)
    (Diagnosed : bool) (Used : gmap nat Symbol.t) (Diags : list Diagnostic) :
  fold_left
    (fun '(Diagnosed, Used, Diags) H =>
       let '(Diagnosed, Diags) :=
         if isBuiltinOrMainFile H && negb Diagnosed
         then (true, Report Opts (Some Loc) ID.Satisfied
                       [Symbol.nodeName Sym; Symbol.name Sym; Header_name_of Std H]
                       Diags)
         else (Diagnosed, Diags) in
       fold_left
         (fun '(Diagnosed, Used, Diags) I =>
            let Used := try_emplace I Sym Used in
            if negb Diagnosed
            then (true, Used,
                  Report Opts (Some Loc) ID.Satisfied
                    [Symbol.nodeName Sym; Symbol.name Sym; SpelledOf PP I] Diags)
            else (Diagnosed, Used, Diags))
         (RecordedPP.match_ Std (RecordedPP.Includes PP) H)
         (Diagnosed, Used, Diags))
    Headers (Diagnosed, Used, Diags)
  = (Diagnosed || bool_decide (is_Some (Provided.firstProvider Std PP Headers)),
     fold_left (fun Used I => try_emplace I Sym Used)
       (Provided.matchedBy Std PP Headers) Used,
     if Diagnosed then Diags
     else match Provided.firstProvider Std PP Headers with
          | Some P => Diags ++ [Provided.remark Opts Loc Sym P]
          | None => Diags
          end).
Proof.
  revert Diagnosed Used Diags.
  induction Headers as [|H Headers IH]; intros Dg U Ds.
  - simpl. by destruct Dg.
  - rewrite firstProvider_cons, matchedBy_cons, fold_left_app.
    unfold Provided.provider. cbn beta iota delta [fold_left].
    generalize (RecordedPP.match_ Std (RecordedPP.Includes PP) H) as Is. intros Is.
    destruct (isBuiltinOrMainFile H), Dg; simpl; rewrite includes_loop, IH;
      destruct Is; simpl; try done;
      by destruct (Provided.firstProvider Std PP Headers).
Qed.

Lemma markUsed_closed (Loc : SourceLocation) (Sym : Symbol.t) (Headers : list Header.t)
    (Used0 : gmap nat Symbol.t) (Diags0 : list Diagnostic) :
  markUsed Opts Std PP Loc Sym Headers Used0 Diags0
  = (bool_decide (is_Some (Provided.firstProvider Std PP Headers)),
     fold_left (fun Used I => try_emplace I Sym Used)
       (Provided.matchedBy Std PP Headers) Used0,
     match Provided.firstProvider Std PP Headers with
     | Some P => Diags0 ++ [Provided.remark Opts Loc Sym P]
     | None => Diags0
     end).
Proof. unfold markUsed. by rewrite markUsed_from. Qed.

Lemma try_emplace_all (Sym : Symbol.t) (Is : list nat) (Used : gmap nat Symbol.t)
    (I : nat) :
  fold_left (fun Used I => try_emplace I Sym Used) Is Used !! I
  = match Used !! I with
    | Some Sym0 => Some Sym0
    | None => if bool_decide (I ∈ Is) then Some Sym else None
    end.
Proof.
  revert Used. induction Is as [|J Is IH]; intros U; simpl.
  - by destruct (U !! I).
  - rewrite IH. unfold try_emplace.
    destruct (U !! J) eqn:HJ.
    + destruct (U !! I) eqn:HI; [done|].
      assert (I <> J) by congruence.
      rewrite (bool_decide_ext (I ∈ J :: Is) (I ∈ Is)); [done|].
      rewrite elem_of_cons. tauto.
    + destruct (decide (I = J)) as [->|HN].
      * rewrite lookup_insert_eq, HJ.
        by rewrite bool_decide_eq_true_2 by left.
      * rewrite lookup_insert_ne by done.
        destruct (U !! I); [done|].
        rewrite (bool_decide_ext (I ∈ J :: Is) (I ∈ Is)); [done|].
        rewrite elem_of_cons. tauto.
Qed.

Lemma notes_loop (Headers : list Header.t) (S1 : State) :
  let S2 :=
    fold_left
      (fun S1 H =>
         {| Recovered := insert H (Recovered S1);
            UsedBy := UsedBy S1;
            Reported := Report Opts None ID.NoteHeader [Header_name_of Std H]
                          (Reported S1) |})
      Headers S1 in
  Recovered S2 = fold_left (fun R H => insert H R) Headers (Recovered S1) /\
  UsedBy S2 = UsedBy S1 /\
  Reported S2 = Reported S1 ++ map (Provided.note Opts Std) Headers.
Proof.
  revert S1. induction Headers as [|H Headers IH]; intros S1; simpl.
  - by rewrite app_nil_r.
  - destruct (IH {| Recovered := insert H (Recovered S1); UsedBy := UsedBy S1;
                    Reported := Report Opts None ID.NoteHeader [Header_name_of Std H]
                                  (Reported S1) |}) as (-> & -> & ->).
    simpl. unfold Report. by rewrite <- app_assoc.
Qed.

(** The three fields of the state after one call of [diagnoseReference],
    in closed form. *)
Lemma diagnoseReference_closed (Loc : SourceLocation) (Sym : Symbol.t)
    (Headers : list Header.t) (S0 : State) :
  let S1 := diagnoseReference Opts Std PP Loc Sym Headers S0 in
  Reported S1
  = Reported S0 ++ Provided.reportOf Opts Std PP Loc Sym Headers (Recovered S0) /\
  UsedBy S1
  = fold_left (fun Used I => try_emplace I Sym Used)
      (Provided.matchedBy Std PP Headers) (UsedBy S0) /\
  Recovered S1
  = match Provided.firstProvider Std PP Headers,
          find (contains (Recovered S0)) Headers with
    | None, None => fold_left (fun R H => insert H R) Headers (Recovered S0)
    | _, _ => Recovered S0
    end.
Proof.
  unfold diagnoseReference, Provided.reportOf. rewrite markUsed_closed.
  destruct (Provided.firstProvider Std PP Headers) as [P|] eqn:HP; simpl; [done|].
  destruct (find (contains (Recovered S0)) Headers) as [H|] eqn:HF; simpl; [done|].
  match goal with |- context [fold_left ?f Headers ?s] =>
    destruct (notes_loop Headers s) as (H1 & H2 & H3) end.
  simpl in *. rewrite H1, H2, H3. unfold Report, Provided.missing.
  by rewrite <- app_assoc.
Qed.

(** X16.  Offered headers as [walkUsed] offers them (no verbatim
    spelling, so none of the reserved keys of [DenseSet<Header>]), one call
    of [diagnoseReference] reports exactly one diagnostic at the location
    of the reference, and notes without location after it only when that
    diagnostic is the error or the warning: then there is one note per
    header offered.  A satisfied reference names the first header that is
    built in, the main file or matched by an include, and for a matched
    header the first include that matches. *)
Theorem diagnoseReference_one_located (Loc : SourceLocation) (Sym : Symbol.t)
    (Headers : list Header.t) (S0 : State) :
  Forall (fun H => Laws.isVerbatim H = false) Headers ->
  exists D Notes,
    Reported (diagnoseReference Opts Std PP Loc Sym Headers S0)
    = Reported S0 ++ D :: Notes /\
    At D = Some Loc /\
    Forall (fun N => At N = None /\ DiagID N = ID.NoteHeader) Notes /\
    match Provided.firstProvider Std PP Headers with
    | Some P =>
        D = Provided.remark Opts Loc Sym P /\ Notes = []
    | None =>
        (DiagID D = ID.Satisfied /\ Notes = [] /\
         exists H, H ∈ Headers /\ contains (Recovered S0) H = true) \/
        (DiagID D = match Headers with [] => ID.NoHeader | _ => ID.Unsatisfied end /\
         length Notes = length Headers /\
         forall H, H ∈ Headers -> contains (Recovered S0) H = false)
    end.
Proof.
  intros _.
  destruct (diagnoseReference_closed Loc Sym Headers S0) as (-> & _ & _).
  unfold Provided.reportOf.
  destruct (Provided.firstProvider Std PP Headers) as [P|].
  { exists (Provided.remark Opts Loc Sym P), []. by repeat split. }
  destruct (find (contains (Recovered S0)) Headers) as [H|] eqn:HF.
  - exists (Provided.remark Opts Loc Sym (Header_name_of Std H)), [].
    repeat split; [done|]. left. repeat split.
    apply find_some in HF as [HI HC]. exists H. by rewrite list_elem_of_In.
  - exists (Provided.missing Opts Loc Sym Headers), (map (Provided.note Opts Std) Headers).
    repeat split.
    + apply Forall_map, Forall_forall. by intros.
    + right. repeat split; [by rewrite length_map|].
      intros H HI. eapply find_none in HF; [done|]. by apply list_elem_of_In.
Qed.

(** X17.  [Used.try_emplace] keeps the first symbol: after a call of
    [diagnoseReference], on headers as [walkUsed] offers them, an include
    used before is still used by the same symbol, and an include not used
    before is used, by the symbol of the call, exactly when it matches one
    of the headers offered. *)
Theorem diagnoseReference_first_use_kept (Loc : SourceLocation) (Sym : Symbol.t)
    (Headers : list Header.t) (S0 : State) (I : nat) :
  Forall (fun H => Laws.isVerbatim H = false) Headers ->
  UsedBy (diagnoseReference Opts Std PP Loc Sym Headers S0) !! I
  = match UsedBy S0 !! I with
    | Some Sym0 => Some Sym0
    | None =>
        if bool_decide
             (Exists (fun H => I ∈ RecordedPP.match_ Std (RecordedPP.Includes PP) H)
                     Headers)
        then Some Sym else None
    end.
Proof.
  intros _.
  destruct (diagnoseReference_closed Loc Sym Headers S0) as (_ & -> & _).
  rewrite try_emplace_all. destruct (UsedBy S0 !! I); [done|].
  apply (f_equal (fun b : bool => if b then Some Sym else None)).
  apply bool_decide_ext. unfold Provided.matchedBy.
  rewrite list_elem_of_bind, Exists_exists. split; intros (H & ? & ?); by exists H.
Qed.

End ToolReportFacts.

Lemma diagnoseReference_one_located_witness :
  exists D Notes,
    Tool.Reported
      (Tool.diagnoseReference Tool.initOptions Example.std Example.twoUses 107%N
         (Symbol.ofMacro Example.BAR) [Header.Physical Example.b_h]
         {| Tool.Recovered := []; Tool.UsedBy := ∅; Tool.Reported := [] |})
    = D :: Notes /\
    Tool.At D = Some 107%N /\ length Notes = 1%nat.
Proof.
  destruct (diagnoseReference_one_located Tool.initOptions Example.std Example.twoUses
              107%N (Symbol.ofMacro Example.BAR) [Header.Physical Example.b_h]
              {| Tool.Recovered := []; Tool.UsedBy := ∅; Tool.Reported := [] |})
    as (D & Notes & HR & HA & _ & HC).
  - repeat constructor.
  - exists D, Notes. split; [exact HR|]. split; [exact HA|].
    destruct HC as [(_ & _ & H & _ & HF)|(_ & HL & _)]; [discriminate HF|exact HL].
Defined.

Lemma diagnoseReference_first_use_kept_witness :
  Tool.UsedBy
    (Tool.diagnoseReference Tool.initOptions Example.std Example.twoUses 107%N
       (Symbol.ofMacro Example.BAR) [Header.Physical Example.b_h]
       {| Tool.Recovered := []; Tool.UsedBy := {[0%nat := Symbol.ofMacro Example.BAR]};
          Tool.Reported := [] |}) !! 0%nat
  = Some (Symbol.ofMacro Example.BAR).
Proof.
  rewrite (diagnoseReference_first_use_kept Tool.initOptions Example.std Example.twoUses
             107%N (Symbol.ofMacro Example.BAR) [Header.Physical Example.b_h]
             {| Tool.Recovered := []; Tool.UsedBy := {[0%nat := Symbol.ofMacro Example.BAR]};
                Tool.Reported := [] |} 0%nat).
  - vm_compute. reflexivity.
  - repeat constructor.
Defined.

Section ToolRunFacts.
Context (Opts : Tool.Options) (Std : StdlibMapping).
Import Tool.

Lemma contains_elem_of (Set_ : list Header.t) (H : Header.t) :
  contains Set_ H = true <-> H ∈ Set_.
Proof.
  unfold contains. rewrite existsb_exists, list_elem_of_In. split.
  - by intros (H' & ? & ->%Header_eqb_eq).
  - intros ?. exists H. split; [done|]. by apply Header_eqb_eq.
Qed.

Lemma elem_of_insert (Set_ : list Header.t) (H H' : Header.t) :
  H ∈ insert H' Set_ <-> H ∈ Set_ \/ H = H'.
Proof.
  unfold insert. destruct (contains Set_ H') eqn:HC.
  - apply contains_elem_of in HC. split; [auto|]. by intros [?| ->].
  - rewrite elem_of_app, list_elem_of_singleton. tauto.
Qed.

Lemma elem_of_insert_all (Headers Set_ : list Header.t) (H : Header.t) :
  H ∈ fold_left (fun R H => insert H R) Headers Set_ <-> H ∈ Set_ \/ H ∈ Headers.
Proof.
  revert Set_. induction Headers as [|H' Headers IH]; intros Set_; simpl.
  - rewrite elem_of_nil. tauto.
  - rewrite IH, elem_of_insert, elem_of_cons. tauto.
Qed.

(** [Recovered] only grows. *)
Lemma Recovered_diagnoseReference (PP : RecordedPP.t) (Loc : SourceLocation)
    (Sym : Symbol.t) (Headers : list Header.t) (S0 : State) (H : Header.t) :
  H ∈ Recovered S0 ->
  H ∈ Recovered (diagnoseReference Opts Std PP Loc Sym Headers S0).
Proof.
  intros HR. destruct (diagnoseReference_closed Opts Std PP Loc Sym Headers S0)
    as (_ & _ & ->).
  destruct (Provided.firstProvider Std PP Headers); [done|].
  destruct (find _ Headers); [done|]. apply elem_of_insert_all. by left.
Qed.

Lemma Recovered_calls (PP : RecordedPP.t)
    (Calls : list (SourceLocation * Symbol.t * list Header.t)) (S0 : State)
    (H : Header.t) :
  H ∈ Recovered S0 ->
  H ∈ Recovered (fold_left (Spec.invoke (diagnoseReference Opts Std PP)) Calls S0).
Proof.
  apply (fold_left_inv _ (fun S1 => H ∈ Recovered S1)).
  intros S1 [[Loc Sym] Headers]. apply Recovered_diagnoseReference.
Qed.

(** X18.  An error is reported once per header: on headers as
    [walkUsed] offers them, when a call of [diagnoseReference] reports an
    error, every header it was offered is in [Recovered] from then on, and
    any later reference that is offered one of them gets "provided by"
    remarks only, whatever the flags. *)
Theorem error_once_per_header (PP : RecordedPP.t)
    (Loc1 : SourceLocation) (Sym1 : Symbol.t) (Headers1 : list Header.t)
    (S0 : State) (Calls : list (SourceLocation * Symbol.t * list Header.t))
    (Loc2 : SourceLocation) (Sym2 : Symbol.t) (Headers2 : list Header.t)
    (H : Header.t) :
  let S1 := diagnoseReference Opts Std PP Loc1 Sym1 Headers1 S0 in
  let S2 := fold_left (Spec.invoke (diagnoseReference Opts Std PP)) Calls S1 in
  Forall (fun c => Forall (fun H => Laws.isVerbatim H = false) c.2)
    ((Loc1, Sym1, Headers1) :: Calls ++ [(Loc2, Sym2, Headers2)]) ->
  Exists (fun D => Severity D = Error) (drop (length (Reported S0)) (Reported S1)) ->
  H ∈ Headers1 ->
  H ∈ Headers2 ->
  H ∈ Recovered S2 /\
  Spec.onlySatisfied (Reported S2)
    (Reported (diagnoseReference Opts Std PP Loc2 Sym2 Headers2 S2)).
Proof.
  intros S1 S2 _ HE H1 H2.
  assert (H ∈ Recovered S2) as HR.
  { apply Recovered_calls. subst S1. revert HE.
    destruct (diagnoseReference_closed Opts Std PP Loc1 Sym1 Headers1 S0)
      as (-> & _ & ->).
    rewrite drop_app_length. unfold Provided.reportOf.
    destruct (Provided.firstProvider Std PP Headers1).
    { intros [HS|[]%Exists_nil]%Exists_cons. simpl in HS.
      by destruct (ShowSatisfied Opts). }
    destruct (find _ Headers1).
    { intros [HS|[]%Exists_nil]%Exists_cons. simpl in HS.
      by destruct (ShowSatisfied Opts). }
    intros _. apply elem_of_insert_all. by right. }
  split; [done|].
  apply diagnoseReference_recovered with (H := H); [done|].
  by apply contains_elem_of.
Qed.

End ToolRunFacts.

Lemma error_once_per_header_witness :
  let H := Header.Physical Example.b_h in
  let S1 := Tool.diagnoseReference Tool.initOptions Example.std Example.twoUses
              107%N (Symbol.ofMacro Example.BAR) [H]
              {| Tool.Recovered := []; Tool.UsedBy := ∅; Tool.Reported := [] |} in
  H ∈ Tool.Recovered S1 /\
  Spec.onlySatisfied (Tool.Reported S1)
    (Tool.Reported
       (Tool.diagnoseReference Tool.initOptions Example.std Example.twoUses
          108%N (Symbol.ofMacro Example.BAR) [H] S1)).
Proof.
  apply (error_once_per_header Tool.initOptions Example.std Example.twoUses
           107%N (Symbol.ofMacro Example.BAR) [Header.Physical Example.b_h]
           {| Tool.Recovered := []; Tool.UsedBy := ∅; Tool.Reported := [] |}
           [] 108%N (Symbol.ofMacro Example.BAR) [Header.Physical Example.b_h]
           (Header.Physical Example.b_h)).
  - repeat constructor.
  - apply Exists_cons_hd. reflexivity.
  - apply list_elem_of_singleton. reflexivity.
  - apply list_elem_of_singleton. reflexivity.
Defined.

Section ToolEndFacts.
Context (Opts : Tool.Options) (Std : StdlibMapping) (Ctx : AnalysisContext).
Context {Decl : Type} (walkAST : Decl -> list (SourceLocation * Hinted NamedDecl)).
Import Tool.

Lemma Reported_calls (PP : RecordedPP.t)
    (Calls : list (SourceLocation * Symbol.t * list Header.t)) (S0 : State) :
  exists Added,
    Reported (fold_left (Spec.invoke (diagnoseReference Opts Std PP)) Calls S0)
    = Reported S0 ++ Added.
Proof.
  apply (fold_left_inv _ (fun S1 => exists Added, Reported S1 = Reported S0 ++ Added)).
  - intros S1 [[Loc Sym] Headers] [Added HA]. unfold Spec.invoke. simpl.
    destruct (diagnoseReference_closed Opts Std PP Loc Sym Headers S1) as (-> & _ & _).
    rewrite HA, <- app_assoc. eauto.
  - exists []. by rewrite app_nil_r.
Qed.

Lemma UsedBy_calls (PP : RecordedPP.t)
    (Calls : list (SourceLocation * Symbol.t * list Header.t)) (S0 : State) (I : nat) :
  is_Some (UsedBy (fold_left (Spec.invoke (diagnoseReference Opts Std PP)) Calls S0) !! I)
  <-> is_Some (UsedBy S0 !! I) \/
      exists c H, c ∈ Calls /\ H ∈ c.2 /\
                  I ∈ RecordedPP.match_ Std (RecordedPP.Includes PP) H.
Proof.
  revert S0. induction Calls as [|[[Loc Sym] Headers] Calls IH]; intros S0; simpl.
  - split; [auto|]. intros [?|(c & ? & []%elem_of_nil & _)]. done.
  - rewrite IH. unfold Spec.invoke. simpl.
    destruct (diagnoseReference_closed Opts Std PP Loc Sym Headers S0) as (_ & -> & _).
    rewrite try_emplace_all. unfold Provided.matchedBy.
    destruct (UsedBy S0 !! I) as [Sym0|] eqn:HU.
    { split; eauto. }
    case_bool_decide as HB.
    + apply list_elem_of_bind in HB as (H & ? & ?).
      split; [|eauto]. intros _. right.
      exists (Loc, Sym, Headers), H. split; [by left|done].
    + split.
      * intros [[]%is_Some_None|(c & H & ? & ? & ?)]. right. exists c, H.
        split; [by right|done].
      * intros [[]%is_Some_None|(c & H & [->|?]%elem_of_cons & ? & ?)].
        { destruct HB. apply list_elem_of_bind. by exists H. }
        right. by exists c, H.
Qed.

Lemma diagnoseIncludes_closed (PP : RecordedPP.t) (Includes : list RecordedPP.Include)
    (Used : gmap nat Symbol.t) (Diags : list Diagnostic) :
  diagnoseIncludes Opts Includes Used Diags
  = Diags ++ imap (Provided.includeDiag Opts Used) Includes.
Proof.
  unfold diagnoseIncludes, ADT.enumerate.
  assert (forall (l : list (nat * RecordedPP.Include)) Ds,
            fold_left
              (fun Diags '(Ord, Inc) =>
                 match Used !! Ord with
                 | None => Report Opts (Some (RecordedPP.Location Inc)) ID.Unused [] Diags
                 | Some Sym =>
                     Report Opts (Some (RecordedPP.Location Inc)) ID.Used
                       [Symbol.nodeName Sym; Symbol.name Sym] Diags
                 end) l Ds
            = Ds ++ map (fun p => Provided.includeDiag Opts Used p.1 p.2) l) as HF.
  { induction l as [|[Ord Inc] l IH]; intros Ds; simpl; [by rewrite app_nil_r|].
    rewrite IH. unfold Provided.includeDiag, Report. simpl.
    destruct (Used !! Ord); by rewrite <- app_assoc. }
  rewrite HF. f_equal. change map with (@fmap list _). by rewrite fmap_imap.
Qed.

(** X19.  On what the recorder has recorded, [EndSourceFile] runs to its
    end; it adds the diagnostics of the references and then exactly one
    diagnostic per recorded include, in the order of the includes and at
    the include's location: "include is unused" when no header offered for
    any reference matches the include, "include provides" when one does. *)
Theorem EndSourceFile_one_per_include (Events : list PPRecorder.Event)
    (TopLevelDecls : list Decl) (Diags : list Diagnostic) :
  let PP := PPRecorder.Recorded (PPRecorder.record Ctx Events) in
  let All := RecordedPP.All (RecordedPP.Includes PP) in
  let Calls := Spec.declCalls Std Ctx walkAST TopLevelDecls
               ++ Spec.macroCalls Std Ctx (RecordedPP.MacroReferences PP) in
  exists ForReferences ForIncludes,
    EndSourceFile Opts Std PP Ctx walkAST TopLevelDecls Diags
    = (Diags ++ ForReferences ++ ForIncludes, Some tt) /\
    length ForIncludes = length All /\
    forall i Inc, All !! i = Some Inc ->
      exists D, ForIncludes !! i = Some D /\
                At D = Some (RecordedPP.Location Inc) /\
                ((DiagID D = ID.Unused /\
                  forall c H, c ∈ Calls -> H ∈ c.2 -> ~ Spec.matches Std H Inc) \/
                 (DiagID D = ID.Used /\
                  exists c H, c ∈ Calls /\ H ∈ c.2 /\ Spec.matches Std H Inc)).
Proof.
  intros PP All Calls. unfold EndSourceFile.
  unfold mbind, Run_bind, Run.bind. rewrite walkUsed_run.
  rewrite bool_decide_eq_true_2 by apply recorded_macro_targets.
  fold Calls. simpl.
  set (S0 := {| Recovered := []; UsedBy := ∅; Reported := Diags |}).
  destruct (Reported_calls PP Calls S0) as [Added HA].
  pose proof (UsedBy_calls PP Calls S0) as HU.
  set (S1 := fold_left _ Calls S0) in *.
  rewrite diagnoseIncludes_closed by exact PP. rewrite HA. simpl.
  exists Added, (imap (Provided.includeDiag Opts (UsedBy S1)) All).
  split; [by rewrite <- app_assoc|]. split; [by rewrite length_imap|].
  intros i Inc Hi. rewrite list_lookup_imap, Hi. simpl. eexists. split; [done|].
  assert (forall H, i ∈ RecordedPP.match_ Std (RecordedPP.Includes PP) H
                    <-> Spec.matches Std H Inc) as HM.
  { intros H.
    destruct (match_indexed Std (RecordedPP.Includes PP) H (indexed_record Ctx Events))
      as [_ HX].
    rewrite HX. unfold All in Hi. split; [intros (? & ? & ?); congruence|eauto]. }
  unfold Provided.includeDiag. specialize (HU i).
  destruct (UsedBy S1 !! i) as [Sym|]; simpl.
  - split; [done|]. right. split; [done|].
    destruct HU as [HU _]. destruct HU as [[? HE]|(c & H & ? & ? & ?)]; [done| |].
    + unfold S0 in HE. simpl in HE. by rewrite lookup_empty in HE.
    + exists c, H. by rewrite <- HM.
  - split; [done|]. left. split; [done|]. intros c H Hc HH HX.
    destruct HU as [_ HU]. destruct HU as [? HE]; [|done].
    right. exists c, H. by rewrite HM.
Qed.

End ToolEndFacts.

(** ** The clang-tidy check (UnusedIncludesCheck.cpp) *)

Section TidyFacts.
Context (Std : StdlibMapping) (Ctx : AnalysisContext).
Context {Decl : Type} (walkAST : Decl -> list (SourceLocation * Hinted NamedDecl)).
Import UnusedIncludesCheck.

Lemma elem_of_insert_loop (Is : list nat) (Used0 : gset nat) (i : nat) :
  i ∈ fold_left (fun Used Inc => {[Inc]} ∪ Used) Is Used0 <-> i ∈ Is \/ i ∈ Used0.
Proof.
  revert Used0. induction Is as [|J Is IH]; intros U; simpl.
  - rewrite elem_of_nil. tauto.
  - rewrite IH, elem_of_cons, elem_of_union, elem_of_singleton. tauto.
Qed.

(** The headers seen are those handed over so far, and [Used] holds the
    includes that match a header seen. *)
Lemma callback_seen (PP : RecordedPP.t) (Loc : SourceLocation) (Sym : Symbol.t)
    (Headers : list Header.t) (C : Captured) :
  (forall i, i ∈ Used C <->
     exists H, H ∈ Seen C /\ i ∈ RecordedPP.match_ Std (RecordedPP.Includes PP) H) ->
  let C' := callback Std PP Loc Sym Headers C in
  (forall H, H ∈ Seen C' <-> H ∈ Seen C \/ H ∈ Headers) /\
  (forall i, i ∈ Used C' <->
     exists H, H ∈ Seen C' /\ i ∈ RecordedPP.match_ Std (RecordedPP.Includes PP) H).
Proof.
  unfold callback. revert C. induction Headers as [|H Headers IH]; intros C HC; simpl.
  - split; [|done]. intros H. rewrite elem_of_nil. tauto.
  - destruct (Tool.contains (Seen C) H) eqn:HS.
    + apply contains_elem_of in HS. destruct (IH C HC) as [IH1 IH2].
      split; [|done]. intros H'. rewrite IH1, elem_of_cons.
      split; [tauto|]. intros [?|[-> |?]]; auto.
    + match goal with |- context [fold_left _ Headers ?c] =>
        destruct (IH c) as [IH1 IH2] end.
      { simpl. intros i. rewrite elem_of_insert_loop, HC. split.
        - intros [?|(H' & ? & ?)].
          + exists H. split; [|done]. apply elem_of_app. right. by left.
          + exists H'. split; [|done]. apply elem_of_app. by left.
        - intros (H' & [?| ->%list_elem_of_singleton]%elem_of_app & ?); eauto. }
      split; [|done]. intros H'. rewrite IH1. simpl.
      rewrite elem_of_app, list_elem_of_singleton, elem_of_cons. tauto.
Qed.

Lemma callback_calls (PP : RecordedPP.t)
    (Calls : list (SourceLocation * Symbol.t * list Header.t)) (i : nat) :
  i ∈ Used (fold_left (Spec.invoke (callback Std PP)) Calls {| Used := ∅; Seen := [] |})
  <-> exists c H, c ∈ Calls /\ H ∈ c.2 /\
                  i ∈ RecordedPP.match_ Std (RecordedPP.Includes PP) H.
Proof.
  assert (forall C,
            (forall i, i ∈ Used C <->
               exists H, H ∈ Seen C /\
                         i ∈ RecordedPP.match_ Std (RecordedPP.Includes PP) H) ->
            let C' := fold_left (Spec.invoke (callback Std PP)) Calls C in
            (forall H, H ∈ Seen C' <-> H ∈ Seen C \/ exists c, c ∈ Calls /\ H ∈ c.2) /\
            (forall i, i ∈ Used C' <->
               exists H, H ∈ Seen C' /\
                         i ∈ RecordedPP.match_ Std (RecordedPP.Includes PP) H)) as HG.
  { induction Calls as [|[[Loc Sym] Headers] Calls IH]; intros C HC; simpl.
    - split; [|done]. intros H. split; [auto|].
      by intros [?|(c & []%elem_of_nil & _)].
    - destruct (callback_seen PP Loc Sym Headers C HC) as [H1 H2].
      destruct (IH _ H2) as [IH1 IH2]. split; [|done].
      intros H. unfold Spec.invoke at 2. simpl. rewrite IH1, H1. split.
      + intros [[?|?]|(c & ? & ?)]; auto.
        * right. exists (Loc, Sym, Headers). split; [by left|done].
        * right. exists c. split; [by right|done].
      + intros [?|(c & [-> |?]%elem_of_cons & ?)]; auto.
        right. by exists c. }
  destruct (HG {| Used := ∅; Seen := [] |}) as [H1 H2].
  { intros j. simpl. split; [set_solver|]. by intros (? & []%elem_of_nil & _). }
  rewrite H2. split.
  - intros (H & [[]%elem_of_nil|(c & ? & ?)]%H1 & ?). by exists c, H.
  - intros (c & H & ? & ? & ?). exists H. split; [|done]. apply H1. right. by exists c.
Qed.

Lemma diagnose_closed (PP : RecordedPP.t) (Used : gset nat) :
  diagnose Ctx PP Used
  = unusedDiag Ctx <$>
      (filter (fun p => p.1 ∉ Used)
         (ADT.enumerate (RecordedPP.All (RecordedPP.Includes PP)))).*2.
Proof.
  unfold diagnose. generalize (ADT.enumerate (RecordedPP.All (RecordedPP.Includes PP))).
  intros l.
  assert (forall Ds,
            fold_left
              (fun Diags '(Ord, Inc) =>
                 if bool_decide (Ord ∈ Used) then Diags else Diags ++ [unusedDiag Ctx Inc])
              l Ds
            = Ds ++ (unusedDiag Ctx <$> (filter (fun p => p.1 ∉ Used) l).*2)) as HG.
  { induction l as [|[Ord Inc] l IH]; intros Ds; simpl; [by rewrite app_nil_r|].
    rewrite IH, filter_cons. simpl. case_bool_decide.
    - by rewrite decide_False by tauto.
    - rewrite decide_True by done. simpl. by rewrite <- app_assoc. }
  apply HG.
Qed.

Lemma filter_enumerate {A} (P : nat * A -> Prop) `{forall p, Decision (P p)}
    (Q : A -> Prop) `{forall x, Decision (Q x)} (Vec : list A) :
  (forall i x, Vec !! i = Some x -> (P (i, x) <-> Q x)) ->
  (filter P (ADT.enumerate Vec)).*2 = filter Q Vec.
Proof.
  unfold ADT.enumerate.
  assert (forall (f : nat -> nat),
            (forall i x, Vec !! i = Some x -> (P (f i, x) <-> Q x)) ->
            (filter P (imap (fun i x => (f i, x)) Vec)).*2 = filter Q Vec) as HG.
  { induction Vec as [|x Vec IH]; intros f Hf; simpl; [done|].
    rewrite !filter_cons.
    specialize (IH (f ∘ S)). simpl in IH.
    destruct (decide (Q x)) as [HQ|HQ].
    - rewrite decide_True by (by apply (Hf 0%nat)). simpl. f_equal.
      apply IH. intros i y ?. by apply (Hf (S i)).
    - rewrite decide_False by (by rewrite (Hf 0%nat)).
      apply IH. intros i y ?. by apply (Hf (S i)). }
  intros Hf. by apply (HG id).
Qed.

(** X20.  On what the recorder has recorded, [onEndOfTranslationUnit]
    runs to its end and diagnoses, in the order of the includes and each
    once, exactly the recorded includes that no header offered for a
    reference matches; skipping the headers seen before loses nothing. *)
Theorem onEndOfTranslationUnit_unused (Events : list PPRecorder.Event)
    (Top : list Decl) :
  let PP := PPRecorder.Recorded (PPRecorder.record Ctx Events) in
  let Calls := Spec.declCalls Std Ctx walkAST Top
               ++ Spec.macroCalls Std Ctx (RecordedPP.MacroReferences PP) in
  onEndOfTranslationUnit Std Ctx PP walkAST Top
  = Some (unusedDiag Ctx <$>
            filter (Unused.unusedIn Std Calls) (RecordedPP.All (RecordedPP.Includes PP))).
Proof.
  intros PP Calls. unfold onEndOfTranslationUnit. rewrite walkUsed_run.
  rewrite bool_decide_eq_true_2 by apply recorded_macro_targets.
  fold Calls. rewrite diagnose_closed. do 2 f_equal.
  apply filter_enumerate. intros i Inc Hi. simpl.
  rewrite callback_calls. unfold Unused.unusedIn.
  rewrite Forall_forall.
  assert (forall H, i ∈ RecordedPP.match_ Std (RecordedPP.Includes PP) H
                    <-> Spec.matches Std H Inc) as HM.
  { intros H.
    destruct (match_indexed Std (RecordedPP.Includes PP) H (indexed_record Ctx Events))
      as [_ HX].
    rewrite HX. split; [intros (? & ? & ?); congruence|eauto]. }
  split.
  - intros HN c Hc. apply Forall_forall. intros H HH HX. apply HN.
    exists c, H. by rewrite HM.
  - intros HA (c & H & Hc & HH & HX). specialize (HA c Hc).
    rewrite Forall_forall in HA. apply (HA H HH). by apply HM.
Qed.

End TidyFacts.

(** ** Further properties of clangd's check (IncludeCleaner.cpp) *)

Section ClangdLoopFacts.
Context (AnalyzeStdlib : bool) (Std : StdlibMapping).
Import Clangd.

Lemma enumerate_snoc {A} (Vec : list A) (x : A) :
  ADT.enumerate (Vec ++ [x]) = ADT.enumerate Vec ++ [(length Vec, x)].
Proof. unfold ADT.enumerate. rewrite imap_app. simpl. by rewrite Nat.add_0_r. Qed.

(** A loop over a vector that appends the ordinals of the elements it
    keeps, and stops at the first element on which the test fails. *)
Lemma collect_loop {A} (keep : nat -> A -> option bool)
    (f : option (list nat) -> nat * A -> option (list nat)) (Vec : list A) :
  (forall Acc Ord x,
     f Acc (Ord, x)
     = Unused ← Acc; b ← keep Ord x;
       Some (if (b : bool) then Unused ++ [Ord] else Unused)) ->
  match foldl f (Some []) (ADT.enumerate Vec) with
  | Some Unused =>
      StronglySorted lt Unused /\
      (forall i, i ∈ Unused <-> exists x, Vec !! i = Some x /\ keep i x = Some true) /\
      (forall i x, Vec !! i = Some x -> is_Some (keep i x))
  | None => exists i x, Vec !! i = Some x /\ keep i x = None
  end.
Proof.
  intros Hf. induction Vec as [|x Vec IH] using rev_ind.
  - simpl. split; [constructor|]. split; [|done].
    intros i. split; [by intros ?%elem_of_nil|by intros (? & ? & _)].
  - rewrite enumerate_snoc, foldl_app. simpl.
    destruct (foldl f (Some []) (ADT.enumerate Vec)) as [Unused|].
    + destruct IH as (HS & HM & HK). rewrite Hf. simpl.
      destruct (keep (length Vec) x) as [b|] eqn:Hb; simpl.
      * assert (forall i y, (Vec ++ [x]) !! i = Some y ->
                  (Vec !! i = Some y) \/ (i = length Vec /\ y = x)) as Hsnoc.
        { intros i y Hi. apply lookup_app_Some in Hi as [?|[? Hi]]; [by left|].
          right. apply list_lookup_singleton_Some in Hi as [? ->]. split; [lia|done]. }
        split; [|split].
        -- destruct b; [|done]. apply StronglySorted_app_2; [|done|repeat constructor].
           intros i j (y & Hi & _)%HM ->%list_elem_of_singleton.
           by apply lookup_lt_Some in Hi.
        -- intros i. split.
           ++ intros Hi.
              assert (i ∈ Unused \/ (b = true /\ i = length Vec)) as [Hi'|[-> ->]].
              { destruct b; [|by left].
                apply elem_of_app in Hi as [?| ->%list_elem_of_singleton]; auto. }
              ** apply HM in Hi' as (y & ? & ?). exists y.
                 split; [|done]. by apply lookup_app_l_Some.
              ** exists x. split; [|done]. by apply list_lookup_middle.
           ++ intros (y & [Hi|[-> ->]]%Hsnoc & Hy).
              ** assert (i ∈ Unused) by (apply HM; eauto).
                 destruct b; [|done]. apply elem_of_app. by left.
              ** rewrite Hb in Hy. injection Hy as ->.
                 apply elem_of_app. right. by apply list_elem_of_singleton.
        -- intros i y [Hi|[-> ->]]%Hsnoc; [by eapply HK|by rewrite Hb].
      * exists (length Vec), x. split; [by apply list_lookup_middle|done].
    + destruct IH as (i & y & Hi & Hy). rewrite Hf. simpl.
      exists i, y. split; [|done]. by apply lookup_app_l_Some.
Qed.

Lemma markUsed_elem_of (AST : ParsedAST) (Loc : SourceLocation) (Sym : Symbol.t)
    (Headers : list Header.t) (Used : gset nat) (i : nat) :
  i ∈ markUsed Std AST Loc Sym Headers Used <->
  i ∈ Used \/
  exists Inc H, MainFileIncludes AST !! i = Some Inc /\ H ∈ Headers /\
                match_ Std H Inc AST = true.
Proof.
  unfold markUsed.
  assert (forall Ord Inc Hs (U : gset nat),
            i ∈ fold_left
                  (fun Used H => if match_ Std H Inc AST then {[Ord]} ∪ Used else Used)
                  Hs U
            <-> i ∈ U \/ (i = Ord /\ exists H, H ∈ Hs /\ match_ Std H Inc AST = true))
    as Hinner.
  { intros Ord Inc Hs. induction Hs as [|H Hs IH]; intros U; simpl.
    - split; [auto|]. by intros [?|(_ & ? & []%elem_of_nil & _)].
    - rewrite IH. destruct (match_ Std H Inc AST) eqn:HM.
      + rewrite elem_of_union, elem_of_singleton. split.
        * intros [[?|?]|(? & H' & ? & ?)]; auto.
          -- right. split; [done|]. exists H. split; [by left|done].
          -- right. split; [done|]. exists H'. split; [by right|done].
        * intros [?|(? & H' & ? & ?)]; auto.
      + split.
        * intros [?|(? & H' & ? & ?)]; auto.
          right. split; [done|]. exists H'. split; [by right|done].
        * intros [?|(? & H' & [-> |?]%elem_of_cons & ?)]; [auto|congruence|].
          right. split; [done|]. by exists H'. }
  generalize (MainFileIncludes AST) as Vec. intros Vec. revert Used.
  induction Vec as [|x Vec IH] using rev_ind; intros U.
  - simpl. split; [auto|]. by intros [?|(? & ? & ? & _)].
  - rewrite enumerate_snoc, fold_left_app. simpl. rewrite Hinner, IH. split.
    + intros [[?|(Inc & H & ? & ? & ?)]|(-> & H & ? & ?)]; auto.
      * right. exists Inc, H. split; [by apply lookup_app_l_Some|done].
      * right. exists x, H. split; [by apply list_lookup_middle|done].
    + intros [?|(Inc & H & Hi & ? & ?)]; auto.
      apply lookup_app_Some in Hi as [?|[? Hi]].
      * left. right. by exists Inc, H.
      * apply list_lookup_singleton_Some in Hi as [? ->].
        right. split; [lia|]. by exists H.
Qed.

Lemma markUsed_calls (AST : ParsedAST)
    (Calls : list (SourceLocation * Symbol.t * list Header.t)) (Used : gset nat)
    (i : nat) :
  i ∈ fold_left (Spec.invoke (markUsed Std AST)) Calls Used <->
  i ∈ Used \/
  exists Inc c H, MainFileIncludes AST !! i = Some Inc /\ c ∈ Calls /\ H ∈ c.2 /\
                  match_ Std H Inc AST = true.
Proof.
  revert Used. induction Calls as [|[[Loc Sym] Headers] Calls IH]; intros U; simpl.
  - split; [auto|]. by intros [?|(? & ? & ? & _ & []%elem_of_nil & _)].
  - rewrite IH. unfold Spec.invoke. simpl. rewrite markUsed_elem_of. split.
    + intros [[?|(Inc & H & ? & ? & ?)]|(Inc & c & H & ? & ? & ? & ?)]; auto.
      * right. exists Inc, (Loc, Sym, Headers), H. split; [done|]. split; [by left|done].
      * right. exists Inc, c, H. split; [done|]. split; [by right|done].
    + intros [?|(Inc & c & H & ? & [-> |?]%elem_of_cons & ? & ?)]; auto.
      * left. right. by exists Inc, H.
      * right. by exists Inc, c, H.
Qed.

End ClangdLoopFacts.

Section ClangdCheckFacts.
Context (AnalyzeStdlib : bool) (Std : StdlibMapping) (Ctx : AnalysisContext).
Context {Decl : Type} (walkAST : Decl -> list (SourceLocation * Hinted NamedDecl)).
Import Clangd.

(** X23.  [mayConsiderUnused] answers yes exactly for the eligible
    includes with a non-empty spelling, and trips an assertion (or reads
    the front of an empty string) exactly on an include without keep
    annotation whose spelling is empty, or is not in angle brackets while
    the include is unresolved or its header has no file. *)
Theorem mayConsiderUnused_cases (Inc : Inclusion) (AST : ParsedAST) :
  (mayConsiderUnused AnalyzeStdlib Std Inc AST = Some true <->
   Written Inc <> "" /\ Spec.eligible AnalyzeStdlib Std AST Inc) /\
  (mayConsiderUnused AnalyzeStdlib Std Inc AST = None <->
   BehindPragmaKeep Inc = false /\
   (Written Inc = "" \/
    (~ Spec.angled Inc /\
     (HeaderID Inc = None \/
      exists ID, HeaderID Inc = Some ID /\ getFile AST ID = None)))).
Proof.
  split.
  - split.
    + intros HM. split; [|by apply mayConsiderUnused_eligible].
      unfold mayConsiderUnused in HM. destruct (BehindPragmaKeep Inc); [done|].
      by destruct (Written Inc).
    + intros [HW (HK & HA & HQ)]. unfold mayConsiderUnused, Spec.angled in *.
      rewrite HK. destruct (Written Inc) as [|c W] eqn:HWr; [done|]. simpl in *.
      destruct (Ascii.eqb_spec c "<") as [->|Hc].
      * destruct HA as [-> HN]; [done|]. simpl. by rewrite bool_decide_eq_true_2.
      * destruct HQ as (ID & FE & -> & HF & HG); [congruence|]. simpl.
        rewrite HF. simpl. by rewrite HG.
  - unfold mayConsiderUnused, Spec.angled.
    destruct (BehindPragmaKeep Inc); [split; [done|by intros [? _]]|].
    destruct (Written Inc) as [|c W]; simpl; [split; auto|].
    destruct (Ascii.eqb_spec c "<") as [->|Hc].
    + split; [by destruct (AnalyzeStdlib && _)|].
      intros [_ [?|[HN _]]]; [done|]. by destruct HN.
    + destruct (HeaderID Inc) as [ID|]; simpl.
      * destruct (getFile AST ID) as [FE|] eqn:HF; simpl.
        -- split; [by destruct (isFileMultipleIncludeGuarded AST FE)|].
           intros [_ [?|[_ [?|(ID' & [= <-] & ?)]]]]; congruence.
        -- split; [|done]. intros _. split; [done|]. right.
           split; [congruence|]. right. by exists ID.
      * split; [|done]. intros _. split; [done|]. right.
        split; [congruence|]. by left.
Qed.

Lemma collectUnused_loop (AST : ParsedAST) (Used : gset nat) :
  match collectUnused AnalyzeStdlib Std AST Used with
  | Some Unused =>
      StronglySorted lt Unused /\
      (forall i, i ∈ Unused <->
         exists Inc, MainFileIncludes AST !! i = Some Inc /\ (i ∉ Used) /\
                     mayConsiderUnused AnalyzeStdlib Std Inc AST = Some true) /\
      (forall i Inc, MainFileIncludes AST !! i = Some Inc -> (i ∉ Used) ->
         is_Some (mayConsiderUnused AnalyzeStdlib Std Inc AST))
  | None =>
      exists i Inc, MainFileIncludes AST !! i = Some Inc /\ (i ∉ Used) /\
                    mayConsiderUnused AnalyzeStdlib Std Inc AST = None
  end.
Proof.
  unfold collectUnused.
  match goal with |- context [foldl ?f _ _] =>
    pose proof (collect_loop
                  (fun Ord Inc => if bool_decide (Ord ∈ Used) then Some false
                                  else mayConsiderUnused AnalyzeStdlib Std Inc AST)
                  f (MainFileIncludes AST)) as HL end.
  simpl in HL.
  destruct (foldl _ _ _) as [Unused|].
  - destruct HL as (HS & HM & HK).
    { intros [Acc|] Ord Inc; simpl; [|done]. case_bool_decide; simpl; [done|].
      by destruct (mayConsiderUnused AnalyzeStdlib Std Inc AST) as [[]|]. }
    split; [done|]. split.
    + intros i. rewrite HM. split.
      * intros (Inc & ? & HI). exists Inc. by case_bool_decide.
      * intros (Inc & ? & ? & ?). exists Inc. by rewrite bool_decide_eq_false_2.
    + intros i Inc Hi HU. specialize (HK i Inc Hi).
      by rewrite bool_decide_eq_false_2 in HK.
  - destruct HL as (i & Inc & ? & HI).
    { intros [Acc|] Ord Inc; simpl; [|done]. case_bool_decide; simpl; [done|].
      by destruct (mayConsiderUnused AnalyzeStdlib Std Inc AST) as [[]|]. }
    exists i, Inc. by case_bool_decide.
Qed.

Lemma computeUnusedIncludes_run (AST : ParsedAST) (LocalTopLevelDecls : list Decl)
    (ReferencedMacros : list SymbolReference) :
  Forall (fun R => Symbol.kind (Target R) = Symbol.Macro) ReferencedMacros ->
  exists Used : gset nat,
    computeUnusedIncludes AnalyzeStdlib Std Ctx walkAST AST LocalTopLevelDecls
      ReferencedMacros
    = collectUnused AnalyzeStdlib Std AST Used /\
    forall i Inc, MainFileIncludes AST !! i = Some Inc ->
      (i ∈ Used <->
       Unused.usedIn Std AST
         (Spec.declCalls Std Ctx walkAST LocalTopLevelDecls
          ++ Spec.macroCalls Std Ctx ReferencedMacros) Inc).
Proof.
  intros HF. unfold computeUnusedIncludes. rewrite walkUsed_run.
  rewrite bool_decide_eq_true_2 by done. eexists. split; [done|].
  intros i Inc Hi. rewrite markUsed_calls. unfold Unused.usedIn. split.
  - intros [[]%elem_of_empty|(Inc' & c & H & ? & ? & ? & ?)].
    exists c, H. by replace Inc with Inc' by congruence.
  - intros (c & H & ? & ? & ?). right. by exists Inc, c, H.
Qed.

(** X24.  Whenever [computeUnusedIncludes] returns, it returns, in
    ascending order and each once, exactly the main-file includes that
    no header offered for a reference matches and that
    [mayConsiderUnused] accepts. *)
Theorem computeUnusedIncludes_exact (AST : ParsedAST) (LocalTopLevelDecls : list Decl)
    (ReferencedMacros : list SymbolReference) (Unused : list nat) :
  let Calls := Spec.declCalls Std Ctx walkAST LocalTopLevelDecls
               ++ Spec.macroCalls Std Ctx ReferencedMacros in
  computeUnusedIncludes AnalyzeStdlib Std Ctx walkAST AST LocalTopLevelDecls
    ReferencedMacros = Some Unused ->
  StronglySorted lt Unused /\
  forall i, i ∈ Unused <->
    exists Inc, MainFileIncludes AST !! i = Some Inc /\
                ~ Unused.usedIn Std AST Calls Inc /\
                mayConsiderUnused AnalyzeStdlib Std Inc AST = Some true.
Proof.
  intros Calls HC.
  assert (Forall (fun R => Symbol.kind (Target R) = Symbol.Macro) ReferencedMacros) as HF.
  { revert HC. unfold computeUnusedIncludes. rewrite walkUsed_run.
    case_bool_decide; [done|]. simpl. done. }
  destruct (computeUnusedIncludes_run AST LocalTopLevelDecls ReferencedMacros HF)
    as (Used & HE & HU).
  rewrite HE in HC. pose proof (collectUnused_loop AST Used) as HL.
  rewrite HC in HL. destruct HL as (HS & HM & _). split; [done|].
  unfold Calls. intros i. rewrite HM. split.
  - intros (Inc & Hi & ? & ?). exists Inc. split; [done|]. split; [|done].
    by rewrite <- (HU i Inc Hi).
  - intros (Inc & Hi & ? & ?). exists Inc. split; [done|]. split; [|done].
    by rewrite (HU i Inc Hi).
Qed.

Lemma findReferencedMacros_closed (Tokens : list ClangdMacros.SpelledToken) :
  ClangdMacros.findReferencedMacros Tokens = omap Unused.referenceOf Tokens.
Proof.
  unfold ClangdMacros.findReferencedMacros.
  assert (forall Result,
            fold_left
              (fun Result Tok =>
                 match ClangdMacros.locateMacroAt Tok with
                 | None => Result
                 | Some (MacroName, Loc) =>
                     if isValid Loc
                     then Result ++
                            [{| Location_ := ClangdMacros.location Tok;
                                Target := Symbol.ofMacro
                                            {| Name := MacroName; Definition_ := Loc |} |}]
                     else Result
                 end)
              Tokens Result
            = Result ++ omap Unused.referenceOf Tokens) as HG; [|apply HG].
  induction Tokens as [|Tok Tokens IH]; intros Result; simpl; [by rewrite app_nil_r|].
  rewrite IH. unfold Unused.referenceOf.
  destruct (ClangdMacros.locateMacroAt Tok) as [[MacroName Loc]|]; [|done].
  destruct (isValid Loc); [|done]. by rewrite <- app_assoc.
Qed.

Lemma findReferencedMacros_macros (Tokens : list ClangdMacros.SpelledToken) :
  Forall (fun R => Symbol.kind (Target R) = Symbol.Macro)
    (ClangdMacros.findReferencedMacros Tokens).
Proof.
  rewrite findReferencedMacros_closed. apply Forall_forall.
  intros R (Tok & _ & HR)%list_elem_of_omap. unfold Unused.referenceOf in HR.
  destruct (ClangdMacros.locateMacroAt Tok) as [[MacroName Loc]|]; [|done].
  destruct (isValid Loc); [|done]. by injection HR as <-.
Qed.

(** X25.  [findReferencedMacros] makes one reference, in the order of the
    tokens, of every spelled token at which a macro with a valid
    definition location is found, and of no other; each reference is at
    its token and targets a macro. *)
Theorem findReferencedMacros_tokens (Tokens : list ClangdMacros.SpelledToken) :
  ClangdMacros.findReferencedMacros Tokens = omap Unused.referenceOf Tokens /\
  sublist (Location_ <$> ClangdMacros.findReferencedMacros Tokens)
          (ClangdMacros.location <$> Tokens) /\
  Forall (fun R => Symbol.kind (Target R) = Symbol.Macro)
    (ClangdMacros.findReferencedMacros Tokens).
Proof.
  split; [apply findReferencedMacros_closed|].
  split; [|apply findReferencedMacros_macros].
  rewrite findReferencedMacros_closed.
  induction Tokens as [|Tok Tokens IH]; simpl; [constructor|].
  destruct (Unused.referenceOf Tok) as [R|] eqn:HR; simpl.
  - replace (Location_ R) with (ClangdMacros.location Tok); [by constructor|].
    unfold Unused.referenceOf in HR.
    destruct (ClangdMacros.locateMacroAt Tok) as [[MacroName Loc]|]; [|done].
    destruct (isValid Loc); [|done]. by injection HR as <-.
  - by constructor.
Qed.

(** X26.  On the macro references that clangd finds in the main file,
    [computeUnusedIncludes] fails only in [mayConsiderUnused]: it trips an
    assertion exactly when some include that no offered header matches
    makes [mayConsiderUnused] fail, as an unresolved include written in
    quotes does. *)
Theorem computeUnusedIncludes_fails_iff (AST : ParsedAST)
    (LocalTopLevelDecls : list Decl) (Tokens : list ClangdMacros.SpelledToken) :
  let Calls := Spec.declCalls Std Ctx walkAST LocalTopLevelDecls
               ++ Spec.macroCalls Std Ctx (ClangdMacros.findReferencedMacros Tokens) in
  computeUnusedIncludes AnalyzeStdlib Std Ctx walkAST AST LocalTopLevelDecls
    (ClangdMacros.findReferencedMacros Tokens) = None <->
  exists i Inc, MainFileIncludes AST !! i = Some Inc /\
                ~ Unused.usedIn Std AST Calls Inc /\
                mayConsiderUnused AnalyzeStdlib Std Inc AST = None.
Proof.
  intros Calls.
  destruct (computeUnusedIncludes_run AST LocalTopLevelDecls
              (ClangdMacros.findReferencedMacros Tokens)
              (findReferencedMacros_macros Tokens)) as (Used & -> & HU).
  pose proof (collectUnused_loop AST Used) as HL. unfold Calls.
  destruct (collectUnused AnalyzeStdlib Std AST Used) as [Unused|].
  - destruct HL as (_ & _ & HK). split; [done|].
    intros (i & Inc & Hi & HN & HM). destruct (HK i Inc Hi) as [b Hb].
    + by rewrite (HU i Inc Hi).
    + congruence.
  - destruct HL as (i & Inc & Hi & HN & HM). split; [|done]. intros _.
    exists i, Inc. split; [done|]. split; [|done]. by rewrite <- (HU i Inc Hi).
Qed.

(** X27.  Whenever [getUnused] returns, it returns, in ascending order
    and each once, exactly the resolved main-file includes whose header
    is not among the referenced files and that [mayConsiderUnused]
    accepts. *)
Theorem getUnused_exact (AST : ParsedAST) (ReferencedFiles : gset nat)
    (Unused : list nat) :
  getUnused AnalyzeStdlib Std AST ReferencedFiles = Some Unused ->
  StronglySorted lt Unused /\
  forall i, i ∈ Unused <->
    exists Inc ID, MainFileIncludes AST !! i = Some Inc /\
                   HeaderID Inc = Some ID /\ (ID ∉ ReferencedFiles) /\
                   mayConsiderUnused AnalyzeStdlib Std Inc AST = Some true.
Proof.
  unfold getUnused.
  match goal with |- context [foldl ?f _ _] =>
    pose proof (collect_loop
                  (fun (Ord : nat) MFI =>
                     match HeaderID MFI with
                     | None => Some false
                     | Some ID =>
                         if bool_decide (ID ∈ ReferencedFiles) then Some false
                         else mayConsiderUnused AnalyzeStdlib Std MFI AST
                     end)
                  f (MainFileIncludes AST)) as HL end.
  simpl in HL. intros HG. rewrite HG in HL.
  destruct HL as (HS & HM & _).
  { intros [Acc|] Ord Inc; simpl; [|done].
    destruct (HeaderID Inc) as [ID|]; [|done]. case_bool_decide; simpl; [done|].
    by destruct (mayConsiderUnused AnalyzeStdlib Std Inc AST) as [[]|]. }
  split; [done|]. intros i. rewrite HM. split.
  - intros (Inc & ? & HI). exists Inc. destruct (HeaderID Inc) as [ID|]; [|done].
    exists ID. by case_bool_decide.
  - intros (Inc & ID & ? & HID & ? & ?). exists Inc. split; [done|].
    by rewrite HID, bool_decide_eq_false_2.
Qed.

End ClangdCheckFacts.

Lemma computeUnusedIncludes_exact_witness :
  StronglySorted lt [1%nat] /\
  forall i, i ∈ [1%nat] <->
    exists Inc, Clangd.MainFileIncludes Example.ast !! i = Some Inc /\
                ~ Unused.usedIn Example.std Example.ast
                    (Spec.declCalls Example.std Example.ctx Example.walkAST []
                     ++ Spec.macroCalls Example.std Example.ctx []) Inc /\
                Clangd.mayConsiderUnused false Example.std Inc Example.ast = Some true.
Proof.
  apply (computeUnusedIncludes_exact false Example.std Example.ctx Example.walkAST
           Example.ast [] [] [1%nat]).
  reflexivity.
Defined.

Lemma getUnused_exact_witness :
  StronglySorted lt [0%nat; 1%nat] /\
  forall i, i ∈ [0%nat; 1%nat] <->
    exists Inc ID, Clangd.MainFileIncludes Example.ast_unresolved !! i = Some Inc /\
                   Clangd.HeaderID Inc = Some ID /\ (ID ∉ (∅ : gset nat)) /\
                   Clangd.mayConsiderUnused true Example.std Inc Example.ast_unresolved
                   = Some true.
Proof.
  apply (getUnused_exact true Example.std Example.ast_unresolved ∅ [0%nat; 1%nat]).
  reflexivity.
Defined.

(** ** The flags of the tool only set severities *)

Section ToolFlagFacts.
Context (Std : StdlibMapping) (Ctx : AnalysisContext).
Context {Decl : Type} (walkAST : Decl -> list (SourceLocation * Hinted NamedDecl)).
Import Tool.

Lemma reportOf_content (Opts1 Opts2 : Options) (PP : RecordedPP.t)
    (Loc : SourceLocation) (Sym : Symbol.t) (Headers Set_ : list Header.t) :
  Provided.content <$> Provided.reportOf Opts1 Std PP Loc Sym Headers Set_
  = Provided.content <$> Provided.reportOf Opts2 Std PP Loc Sym Headers Set_.
Proof.
  unfold Provided.reportOf. destruct (Provided.firstProvider Std PP Headers); [done|].
  destruct (find _ Headers); [done|]. simpl. f_equal.
Qed.

Lemma reportOf_severity (Opts : Options) (PP : RecordedPP.t)
    (Loc : SourceLocation) (Sym : Symbol.t) (Headers Set_ : list Header.t) :
  Forall (fun D => Severity D = levelOf Opts (DiagID D))
    (Provided.reportOf Opts Std PP Loc Sym Headers Set_).
Proof.
  unfold Provided.reportOf. destruct (Provided.firstProvider Std PP Headers);
    [by repeat constructor|].
  destruct (find _ Headers); [by repeat constructor|].
  constructor; [done|]. apply Forall_map, Forall_forall. by intros.
Qed.

Lemma calls_content (Opts1 Opts2 : Options) (PP : RecordedPP.t)
    (Calls : list (SourceLocation * Symbol.t * list Header.t)) (S1 S2 : State) :
  Recovered S1 = Recovered S2 ->
  UsedBy S1 = UsedBy S2 ->
  Provided.content <$> Reported S1 = Provided.content <$> Reported S2 ->
  let T1 := fold_left (Spec.invoke (diagnoseReference Opts1 Std PP)) Calls S1 in
  let T2 := fold_left (Spec.invoke (diagnoseReference Opts2 Std PP)) Calls S2 in
  Recovered T1 = Recovered T2 /\ UsedBy T1 = UsedBy T2 /\
  Provided.content <$> Reported T1 = Provided.content <$> Reported T2.
Proof.
  revert S1 S2. induction Calls as [|[[Loc Sym] Headers] Calls IH];
    intros S1 S2 HR HU HD; simpl; [done|].
  destruct (diagnoseReference_closed Opts1 Std PP Loc Sym Headers S1) as (E1 & E2 & E3).
  destruct (diagnoseReference_closed Opts2 Std PP Loc Sym Headers S2) as (F1 & F2 & F3).
  apply IH; unfold Spec.invoke; simpl.
  - by rewrite E3, F3, HR.
  - by rewrite E2, F2, HU.
  - rewrite E1, F1, !fmap_app, HD, HR. f_equal. apply reportOf_content.
Qed.

Lemma calls_severity (Opts : Options) (PP : RecordedPP.t)
    (Calls : list (SourceLocation * Symbol.t * list Header.t)) (S0 : State) :
  exists Added,
    Reported (fold_left (Spec.invoke (diagnoseReference Opts Std PP)) Calls S0)
    = Reported S0 ++ Added /\
    Forall (fun D => Severity D = levelOf Opts (DiagID D)) Added.
Proof.
  apply (fold_left_inv _
           (fun S1 => exists Added,
              Reported S1 = Reported S0 ++ Added /\
              Forall (fun D => Severity D = levelOf Opts (DiagID D)) Added)).
  - intros S1 [[Loc Sym] Headers] (Added & HA & HS). unfold Spec.invoke. simpl.
    destruct (diagnoseReference_closed Opts Std PP Loc Sym Headers S1) as (-> & _ & _).
    rewrite HA, <- app_assoc. eexists. split; [done|].
    apply Forall_app. split; [done|]. apply reportOf_severity.
  - exists []. by rewrite app_nil_r.
Qed.

(** X28.  The flags only set severities: run with any two settings of
    [-satisfied] and [-recover], [EndSourceFile] reports the same
    diagnostics, in the same order, at the same locations and with the
    same arguments, and fails the same assertion or none; each diagnostic
    it adds has the severity that the constructor of [CustomDiagnosticIDs]
    gave to its id. *)
Theorem EndSourceFile_flags_set_severities (Opts1 Opts2 : Options)
    (PP : RecordedPP.t) (TopLevelDecls : list Decl) (Diags : list Diagnostic) :
  let R1 := EndSourceFile Opts1 Std PP Ctx walkAST TopLevelDecls Diags in
  let R2 := EndSourceFile Opts2 Std PP Ctx walkAST TopLevelDecls Diags in
  Provided.content <$> R1.1 = Provided.content <$> R2.1 /\
  R1.2 = R2.2 /\
  Forall (fun D => Severity D = levelOf Opts1 (DiagID D)) (drop (length Diags) R1.1).
Proof.
  unfold EndSourceFile, mbind, Run_bind, Run.bind. rewrite !walkUsed_run.
  set (Calls := Spec.declCalls Std Ctx walkAST TopLevelDecls
                ++ Spec.macroCalls Std Ctx (RecordedPP.MacroReferences PP)).
  set (S0 := {| Recovered := []; UsedBy := ∅; Reported := Diags |}).
  destruct (calls_content Opts1 Opts2 PP Calls S0 S0 eq_refl eq_refl eq_refl)
    as (_ & HU & HD).
  destruct (calls_severity Opts1 PP Calls S0) as (Added & HA & HS).
  case_bool_decide; simpl.
  - rewrite !(diagnoseIncludes_closed _ PP), !fmap_app, HD, HU, HA.
    split; [|split; [done|]].
    + f_equal. rewrite !fmap_imap. apply imap_ext. intros i Inc _. simpl.
      unfold Provided.includeDiag. by destruct (_ !! i).
    + simpl. rewrite <- app_assoc, drop_app_length. apply Forall_app. split; [done|].
      apply Forall_forall. intros D (i & Inc & -> & _)%elem_of_lookup_imap.
      unfold Provided.includeDiag. by destruct (_ !! i).
  - split; [done|]. split; [done|]. rewrite HA. simpl. by rewrite drop_app_length.
Qed.

End ToolFlagFacts.
